(** * GRASP with iterated local search for the travelling salesman problem

    A shallow embedding of [grasp.py] and the properties of its cost
    function, greedy randomised construction, 2-opt local search,
    perturbation and iteration control.

    Modelling conventions.
    - Python list objects holding city indices (tours, [nao_visitados]) live
      in a store; a variable holds a reference.  [x = y] copies the
      reference, [y[:]] allocates a new object, item and slice assignment,
      [append] and [remove] update the object in place.
    - City indices and positions are [nat] (they come from [range(n)]).
      The matrix [calcular_custo], [busca_local], [construir_solucao] and
      [grasp] work on holds Python integers, [Z]: their sums and
      comparisons are exact.
    - [alpha] is a [number]: an exact one (an [int], a [Fraction]), as a
      rational, or a float, as a binary64 number of [SpecFloat].  A float
      product is rounded to nearest, and [int()] of an infinity or of a NaN
      raises.
    - [gerar_matriz_distancias] is generic in what [math.sqrt] returns,
      which may also raise; [math_sqrt] is the float it returns on an
      integer.
    - The process-wide generator of [random] is threaded through the state.
      It is abstract: [randbelow n] is the draw behind [random.choice] on a
      sequence of length [n], [sample2 n] the pair behind
      [random.sample(range(n), 2)].
    - A [while] loop takes a bound on the number of times its body may run
      and answers [Timeout] when the bound is hit. *)

From Stdlib Require Import ZArith QArith Qround Lia List Permutation Sorted.
From Stdlib Require Import Floats.SpecFloat.
From stdpp Require Import base list relations.
Import ListNotations.
Open Scope Z_scope.
Open Scope nat_scope.

(** ** Outcomes, store and monad *)

Inductive exn := IndexError | ValueError | OverflowError | Dangling.

Inductive outcome (S A : Type) :=
| Ret (a : A) (s : S)
| Raise (e : exn)
| Timeout.
Arguments Ret {S A} a s.
Arguments Raise {S A} e.
Arguments Timeout {S A}.

(** References are positions in the store; a matrix is a list of rows. *)
Abbreviation loc := nat (only parsing).
Abbreviation matrix := (list (list Z)) (only parsing).

Record state (G : Type) := mkState { heap : list (list nat); gen : G }.
Arguments mkState {G} heap gen.
Arguments heap {G} s.
Arguments gen {G} s.

Definition M (G A : Type) := state G -> outcome (state G) A.

Definition ret {G A} (a : A) : M G A := fun s => Ret a s.
Definition raise {G A} (e : exn) : M G A := fun _ => Raise e.
Definition timeout {G A} : M G A := fun _ => Timeout.
Definition bind {G A B} (m : M G A) (k : A -> M G B) : M G B :=
  fun s => match m s with
           | Ret a s' => k a s'
           | Raise e => Raise e
           | Timeout => Timeout
           end.

(** A computation that reads no state: its value, or the exception. *)
Definition lift {G A} (r : exn + A) : M G A :=
  match r with
  | inl e => raise e
  | inr a => ret a
  end.

Definition and_then {A B} (r : exn + A) (k : A -> exn + B) : exn + B :=
  match r with
  | inl e => inl e
  | inr a => k a
  end.

Notation "'try' x ':=' r 'in' k" := (and_then r (fun x => k))
  (at level 10, x name, r at level 100, k at level 200).

(** [for x in xs: body] where nothing but the loop variables changes. *)
Fixpoint for_exn {A S} (xs : list A) (body : A -> S -> exn + S) (s : S) : exn + S :=
  match xs with
  | [] => inr s
  | x :: xs' => try s' := body x s in for_exn xs' body s'
  end.

Notation "'let*' x ':=' c1 'in' c2" := (bind c1 (fun x => c2))
  (at level 10, x name, c1 at level 100, c2 at level 200).
Notation "'let*' ' p ':=' c1 'in' c2" := (bind c1 (fun x => match x with p => c2 end))
  (at level 10, p pattern, c1 at level 100, c2 at level 200).

(** [for x in xs: body], the loop variables threaded as [s]. *)
Fixpoint for_each {G A S} (xs : list A) (body : A -> S -> M G S) (s : S) : M G S :=
  match xs with
  | [] => ret s
  | x :: xs' => let* s' := body x s in for_each xs' body s'
  end.

(** [while cond: body]; the body runs at most [fuel] times. *)
Fixpoint while_loop {G S} (fuel : nat) (cond : S -> M G bool) (body : S -> M G S)
    (s : S) : M G S :=
  let* c := cond s in
  if c then
    match fuel with
    | O => timeout
    | S fuel' => let* s' := body s in while_loop fuel' cond body s'
    end
  else ret s.

(** [range(lo, hi)] on naturals; empty when [hi <= lo]. *)
Definition range (lo hi : nat) : list nat := seq lo (hi - lo).

(** ** Numbers

    Python floats are IEEE 754 binary64 numbers: [spec_float] with 53 bits
    of precision and exponents below 1024, results rounded to nearest, ties
    to even. *)

Definition prec64 : Z := 53.
Definition emax64 : Z := 1024.

(** [float(z)] for an integer [z]; an integer that rounds beyond the largest
    float does not convert. *)
Definition float_of_int (z : Z) : exn + spec_float :=
  match binary_normalize prec64 emax64 z 0 false with
  | S754_infinity _ => inl OverflowError
  | f => inr f
  end.

(** [int(f)] for a float [f]: truncation towards zero. *)
Definition int_of_float (f : spec_float) : exn + Z :=
  match f with
  | S754_zero _ => inr 0%Z
  | S754_finite s m e => inr (cond_Zopp s (Z.shiftl (Z.pos m) e))
  | S754_infinity _ => inl OverflowError
  | S754_nan => inl ValueError
  end.

(** [int(q)] for an exact number [q]: truncation towards zero. *)
Definition py_int (q : Q) : Z := Z.quot (Qnum q) (Z.pos (Qden q)).

(** What a caller passes for [alpha]: a number with exact arithmetic (an
    [int], a [Fraction]) or a float (the default [0.3] is one). *)
Inductive number := Exact (q : Q) | Float (f : spec_float).
Coercion Exact : Q >-> number.

(** [int(k * alpha)] for an integer [k >= 0].  With a float the integer is
    converted first, and the product is the rounded one. *)
Definition int_times (k : nat) (alpha : number) : exn + Z :=
  match alpha with
  | Exact q => inr (py_int (inject_Z (Z.of_nat k) * q))
  | Float f =>
      try x := float_of_int (Z.of_nat k) in int_of_float (SFmul prec64 emax64 x f)
  end.

(** ** List objects *)

Section Store.
Context {G : Type}.

Definition heap_get (r : loc) : M G (list nat) :=
  fun s => match heap s !! r with
           | Some v => Ret v s
           | None => Raise Dangling
           end.

Definition heap_set (r : loc) (v : list nat) : M G unit :=
  fun s => match heap s !! r with
           | Some _ => Ret tt (mkState (<[r:=v]> (heap s)) (gen s))
           | None => Raise Dangling
           end.

Definition heap_new (v : list nat) : M G loc :=
  fun s => Ret (length (heap s)) (mkState (heap s ++ [v]) (gen s)).

(** [len(r)] *)
Definition list_len (r : loc) : M G nat :=
  let* v := heap_get r in ret (length v).

(** [r[i]] for [i >= 0] *)
Definition list_getitem (r : loc) (i : nat) : M G nat :=
  let* v := heap_get r in
  match v !! i with
  | Some x => ret x
  | None => raise IndexError
  end.

(** [r[-1]] *)
Definition list_getlast (r : loc) : M G nat :=
  let* v := heap_get r in
  match last v with
  | Some x => ret x
  | None => raise IndexError
  end.

(** [r[i] = x] for [i >= 0] *)
Definition list_setitem (r : loc) (i x : nat) : M G unit :=
  let* v := heap_get r in
  if i <? length v then heap_set r (<[i:=x]> v) else raise IndexError.

(** [r[:]] *)
Definition list_copy (r : loc) : M G loc :=
  let* v := heap_get r in heap_new v.

(** [r.append(x)] *)
Definition list_append (r : loc) (x : nat) : M G unit :=
  let* v := heap_get r in heap_set r (v ++ [x]).

(** The list without the first occurrence of [x]; [None] when it has none. *)
Fixpoint remove_first (x : nat) (v : list nat) : option (list nat) :=
  match v with
  | [] => None
  | y :: v' => if Nat.eqb x y then Some v'
               else match remove_first x v' with
                    | Some w => Some (y :: w)
                    | None => None
                    end
  end.

(** [r.remove(x)] *)
Definition list_remove (r : loc) (x : nat) : M G unit :=
  let* v := heap_get r in
  match remove_first x v with
  | Some w => heap_set r w
  | None => raise ValueError
  end.

(** [v[start:stop:-1]] for [0 <= stop]: the items at positions
    [start, start-1, ..., stop+1], [start] clamped to the last position. *)
Definition slice_down (v : list nat) (start stop : nat) : list nat :=
  rev (take (start - stop) (drop (S stop) v)).

(** [r[start:stop:-1]], a new list value *)
Definition list_slice_down (r : loc) (start stop : nat) : M G (list nat) :=
  let* v := heap_get r in ret (slice_down v start stop).

(** [v[i:j] = w]: the items at positions [i..j-1] give way to [w]; when
    [j < i] nothing is removed and [w] goes in at [i]. *)
Definition slice_assign (v : list nat) (i j : nat) (w : list nat) : list nat :=
  take i v ++ w ++ drop (Nat.max i j) v.

(** [r[i:j] = w] *)
Definition list_slice_assign (r : loc) (i j : nat) (w : list nat) : M G unit :=
  let* v := heap_get r in heap_set r (slice_assign v i j w).

(** ** Cost of a tour: [calcular_custo] *)

(** [distancias[a]] and [row[b]] *)
Definition matrix_row (distancias : matrix) (a : nat) : M G (list Z) :=
  match distancias !! a with
  | Some row => ret row
  | None => raise IndexError
  end.

Definition row_item (row : list Z) (b : nat) : M G Z :=
  match row !! b with
  | Some d => ret d
  | None => raise IndexError
  end.

Definition calcular_custo (rotas : loc) (distancias : matrix) : M G Z :=
  let* n := list_len rotas in
  let* custo :=
    for_each (range 0 (n - 1))
      (fun i custo =>
         let* a := list_getitem rotas i in
         let* row := matrix_row distancias a in
         let* b := list_getitem rotas (i + 1) in
         let* d := row_item row b in
         ret (custo + d)%Z) 0%Z in
  let* a := list_getlast rotas in
  let* row := matrix_row distancias a in
  let* b := list_getitem rotas 0 in
  let* d := row_item row b in
  ret (custo + d)%Z.

(** ** 2-opt local search: [busca_local] *)

(** The body of the loop on [j]; the loop variables are
    [(melhor, melhor_custo, melhorou)]. *)
Definition busca_local_j (distancias : matrix) (i j : nat)
    (st : loc * Z * bool) : M G (loc * Z * bool) :=
  let '(melhor, melhor_custo, melhorou) := st in
  if j - i =? 1 then ret st
  else
    let* nova_solucao := list_copy melhor in
    let* w := list_slice_down melhor (j - 1) (i - 1) in
    let* _ := list_slice_assign nova_solucao i j w in
    let* novo_custo := calcular_custo nova_solucao distancias in
    if (novo_custo <? melhor_custo)%Z then ret (nova_solucao, novo_custo, true)
    else ret st.

(** The body of the loop on [i]. *)
Definition busca_local_i (distancias : matrix) (solucao : loc) (i : nat)
    (st : loc * Z * bool) : M G (loc * Z * bool) :=
  let* n := list_len solucao in
  for_each (range (i + 1) n) (busca_local_j distancias i) st.

(** One pass of the [while]; the loop variables are
    [(solucao, melhor, melhor_custo, melhorou)]. *)
Definition busca_local_pass (distancias : matrix)
    (st : loc * loc * Z * bool) : M G (loc * loc * Z * bool) :=
  let '(solucao, melhor, melhor_custo, _) := st in
  let* n := list_len solucao in
  let* '(melhor, melhor_custo, melhorou) :=
    for_each (range 1 (n - 2)) (busca_local_i distancias solucao)
      (melhor, melhor_custo, false) in
  ret (melhor, melhor, melhor_custo, melhorou).

Definition busca_local (fuel : nat) (solucao : loc) (distancias : matrix) : M G loc :=
  let melhor := solucao in
  let* melhor_custo := calcular_custo melhor distancias in
  let* '(_, melhor, _, _) :=
    while_loop fuel (fun '(_, _, _, melhorou) => ret melhorou)
      (busca_local_pass distancias) (solucao, melhor, melhor_custo, true) in
  ret melhor.

(** ** Randomness *)

Section Random.
Variable randbelow : nat -> G -> nat * G.
Variable sample2 : nat -> G -> (nat * nat) * G.

(** [random.choice(seq)] *)
Definition random_choice {A} (seq : list A) : M G A :=
  match seq with
  | [] => raise IndexError
  | _ => fun s =>
           let '(k, g) := randbelow (length seq) (gen s) in
           match seq !! k with
           | Some x => Ret x (mkState (heap s) g)
           | None => Raise IndexError
           end
  end.

(** [random.sample(range(n), 2)] *)
Definition random_sample2 (n : nat) : M G (nat * nat) :=
  if n <? 2 then raise ValueError
  else fun s => let '(p, g) := sample2 n (gen s) in Ret p (mkState (heap s) g).

(** ** Perturbation: [perturbar] *)

Definition perturbar (solucao : loc) : M G loc :=
  let* nova := list_copy solucao in
  let* n := list_len solucao in
  let* '(i, j) := random_sample2 n in
  let* a := list_getitem nova j in
  let* b := list_getitem nova i in
  let* _ := list_setitem nova i a in
  let* _ := list_setitem nova j b in
  ret nova.

(** ** Greedy randomised construction: [construir_solucao] *)

(** [[f(x) for x in xs]] *)
Fixpoint list_comp {A B} (f : A -> M G B) (xs : list A) : M G (list B) :=
  match xs with
  | [] => ret []
  | x :: xs' => let* y := f x in let* ys := list_comp f xs' in ret (y :: ys)
  end.

(** [custos.sort(key=lambda x: x[1])]: the sort is stable and compares keys
    with [<] only. *)
Fixpoint sort_insert (x : nat * Z) (l : list (nat * Z)) : list (nat * Z) :=
  match l with
  | [] => [x]
  | y :: l' => if (snd y <? snd x)%Z then y :: sort_insert x l' else x :: l
  end.

Definition sort_by_cost (l : list (nat * Z)) : list (nat * Z) :=
  foldr sort_insert [] l.

(** [l[:k]] for an integer [k], negative [k] counting from the end *)
Definition slice_prefix {A} (l : list A) (k : Z) : list A :=
  if (k <? 0)%Z then take (Z.to_nat (Z.of_nat (length l) + k)) l
  else take (Z.to_nat k) l.

(** The sorted candidates of one step, from the unvisited cities. *)
Definition custos_ordenados (distancias : matrix) (cidade_atual : nat)
    (nv : list nat) : M G (list (nat * Z)) :=
  let* custos :=
    list_comp (fun cidade =>
                 let* row := matrix_row distancias cidade_atual in
                 let* d := row_item row cidade in
                 ret (cidade, d)) nv in
  ret (sort_by_cost custos).

(** The body of the [while]; the loop variable is [cidade_atual]. *)
Definition construir_passo (distancias : matrix) (alpha : number)
    (solucao nao_visitados : loc) (cidade_atual : nat) : M G nat :=
  let* nv := heap_get nao_visitados in
  let* custos := custos_ordenados distancias cidade_atual nv in
  let* z := lift (int_times (length custos) alpha) in
  let limite := (z + 1)%Z in
  let rcl := slice_prefix custos limite in
  let* c := random_choice rcl in
  let cidade_escolhida := fst c in
  let* _ := list_append solucao cidade_escolhida in
  let* _ := list_remove nao_visitados cidade_escolhida in
  ret cidade_escolhida.

Definition construir_solucao (fuel : nat) (distancias : matrix) (alpha : number)
    : M G loc :=
  let n := length distancias in
  let* solucao := heap_new [] in
  let* nao_visitados := heap_new (range 0 n) in
  let* nv := heap_get nao_visitados in
  let* cidade_atual := random_choice nv in
  let* _ := list_append solucao cidade_atual in
  let* _ := list_remove nao_visitados cidade_atual in
  let* _ :=
    while_loop fuel
      (fun _ => let* k := list_len nao_visitados in ret (negb (k =? 0)))
      (construir_passo distancias alpha solucao nao_visitados) cidade_atual in
  ret solucao.

(** ** Iteration control: [grasp] *)

(** A cost or [float("inf")]. *)
Inductive num := Int (z : Z) | Inf.

(** [c < m] for an integer [c] *)
Definition lt_num (c : Z) (m : num) : bool :=
  match m with
  | Int z => (c <? z)%Z
  | Inf => true
  end.

(** The body of the [for]; the loop variables are
    [(melhor_solucao, melhor_custo)], [None] for Python's [None]. *)
Definition grasp_iter (fuel : nat) (distancias : matrix) (alpha : number) (it : nat)
    (st : option loc * num) : M G (option loc * num) :=
  let '(melhor_solucao, melhor_custo) := st in
  let* solucao := construir_solucao fuel distancias alpha in
  let* solucao := busca_local fuel solucao distancias in
  let* custo := calcular_custo solucao distancias in
  let* solucao_perturbada := perturbar solucao in
  let* solucao_perturbada := busca_local fuel solucao_perturbada distancias in
  let* custo_perturbado := calcular_custo solucao_perturbada distancias in
  let '(solucao, custo) :=
    if (custo_perturbado <? custo)%Z then (solucao_perturbada, custo_perturbado)
    else (solucao, custo) in
  if lt_num custo melhor_custo then ret (Some solucao, Int custo)
  else ret (melhor_solucao, melhor_custo).

Definition grasp (fuel : nat) (distancias : matrix) (iteracoes : nat)
    (alpha : number) : M G (option loc * num) :=
  for_each (range 0 iteracoes) (grasp_iter fuel distancias alpha) (None, Inf).

End Random.
End Store.

(** A numeral for [alpha] is an exact number. *)
Arguments construir_passo {G} randbelow distancias alpha%_Q solucao nao_visitados
  cidade_atual.
Arguments construir_solucao {G} randbelow fuel distancias alpha%_Q.
Arguments grasp_iter {G} randbelow sample2 fuel distancias alpha%_Q it st.
Arguments grasp {G} randbelow sample2 fuel distancias iteracoes alpha%_Q.

(** ** A concrete generator, for running the model

    The state is a number [g] below 64; a draw below [n] is [g mod n], a
    pair of distinct positions below [n] is [g mod n] and the position
    [1 + g mod (n - 1)] places after it, cyclically. *)
Module Lcg.
Definition next (g : nat) : nat := (5 * g + 3) mod 64.
Definition randbelow (n : nat) (g : nat) : nat * nat := (g mod n, next g).
Definition sample2 (n : nat) (g : nat) : (nat * nat) * nat :=
  ((g mod n, (g mod n + 1 + g mod (n - 1)) mod n), next g).
End Lcg.

(** ** Value-level reading of the cost and of the local search

    What [calcular_custo] and [busca_local] compute, as functions of the
    value a reference holds.  [None] and [Err] stand for [IndexError], [Out]
    for [Timeout].  The lemmas [calcular_custo_sim] and [busca_local_sim]
    below relate them to the code. *)

Inductive res (A : Type) := Ok (a : A) | Err | Out.
Arguments Ok {A} a.
Arguments Err {A}.
Arguments Out {A}.

Fixpoint fold_opt {A S} (xs : list A) (f : A -> S -> option S) (s : S) : option S :=
  match xs with
  | [] => Some s
  | x :: xs' => match f x s with
                | Some s' => fold_opt xs' f s'
                | None => None
                end
  end.

Definition passo_custo (distancias : matrix) (v : list nat) (i : nat) (custo : Z)
    : option Z :=
  a ← v !! i; row ← distancias !! a; b ← v !! (i + 1); d ← row !! b;
  Some (custo + d)%Z.

Definition custo_de (distancias : matrix) (v : list nat) : option Z :=
  custo ← fold_opt (range 0 (length v - 1)) (passo_custo distancias v) 0%Z;
  a ← last v; row ← distancias !! a; b ← v !! 0; d ← row !! b;
  Some (custo + d)%Z.

(** The candidate of the move [(i, j)]:
    [nova = v[:]; nova[i:j] = v[j-1:i-1:-1]]. *)
Definition two_opt (v : list nat) (i j : nat) : list nat :=
  slice_assign v i j (slice_down v (j - 1) (i - 1)).

Definition passo_j_val (distancias : matrix) (i j : nat)
    (st : list nat * Z * bool) : option (list nat * Z * bool) :=
  let '(v, c, _) := st in
  if j - i =? 1 then Some st
  else
    c' ← custo_de distancias (two_opt v i j);
    Some (if (c' <? c)%Z then (two_opt v i j, c', true) else st).

Definition passo_i_val (distancias : matrix) (n i : nat)
    (st : list nat * Z * bool) : option (list nat * Z * bool) :=
  fold_opt (range (i + 1) n) (passo_j_val distancias i) st.

Definition pass_val (distancias : matrix) (v : list nat) (c : Z)
    : option (list nat * Z * bool) :=
  fold_opt (range 1 (length v - 2)) (passo_i_val distancias (length v)) (v, c, false).

Fixpoint busca_val (fuel : nat) (distancias : matrix) (v : list nat) (c : Z)
    : res (list nat) :=
  match fuel with
  | O => Out
  | S fuel' =>
      match pass_val distancias v c with
      | None => Err
      | Some (v', c', melhorou) =>
          if melhorou then busca_val fuel' distancias v' c' else Ok v'
      end
  end.

Definition busca_local_val (fuel : nat) (distancias : matrix) (v : list nat)
    : res (list nat) :=
  match custo_de distancias v with
  | None => Err
  | Some c => busca_val fuel distancias v c
  end.

(** The moves one pass scans on a tour of length [n]. *)
Definition scanned (n i j : nat) : Prop := 1 <= i /\ i + 2 <= j /\ j < n.

(** All tours of a given length over the cities of [alphabet]. *)
Fixpoint words (alphabet : list nat) (n : nat) : list (list nat) :=
  match n with
  | O => [[]]
  | S n' => w ← words alphabet n'; (fun a => a :: w) <$> alphabet
  end.

(** How many of the tours [ws] cost less than [c]. *)
Definition cheaper (distancias : matrix) (c : Z) (w : list nat) : bool :=
  match custo_de distancias w with
  | Some c' => (c' <? c)%Z
  | None => false
  end.

Definition count_cheaper (distancias : matrix) (ws : list (list nat)) (c : Z) : nat :=
  length (List.filter (cheaper distancias c) ws).

(** Enough passes for any tour over the cities of [v]: one more than the
    number of such tours. *)
Definition fuel_for (v : list nat) : nat := S (length (words v (length v))).

(** The new store holds the old one unchanged, then new objects; the
    generator is where it was. *)
Definition extends {G} (s s' : state G) : Prop :=
  gen s' = gen s /\ exists ext, heap s' = heap s ++ ext.

(** How an outcome of the code matches a value-level answer: the code answers
    in an extension of the state it started in, its answer related by [R]. *)
Definition sim_opt {G A B} (R : A -> state G -> B -> Prop) (s : state G)
    (o : outcome (state G) A) (p : option B) : Prop :=
  match p with
  | Some b => exists a s', o = Ret a s' /\ extends s s' /\ R a s' b
  | None => o = Raise IndexError
  end.

Definition sim_res {G A B} (R : A -> state G -> B -> Prop) (s : state G)
    (o : outcome (state G) A) (p : res B) : Prop :=
  match p with
  | Ok b => exists a s', o = Ret a s' /\ extends s s' /\ R a s' b
  | Err => o = Raise IndexError
  | Out => o = Timeout
  end.

(** The loop variables of the code and of the value-level reading agree. *)
Definition agree {G} (st : loc * Z * bool) (s : state G)
    (pst : list nat * Z * bool) : Prop :=
  heap s !! st.1.1 = Some pst.1.1 /\ st.1.2 = pst.1.2 /\ st.2 = pst.2.

(** At the head of the [while], [solucao] and [melhor] are one reference. *)
Definition agree_pass {G} (st : loc * loc * Z * bool) (s : state G)
    (pst : list nat * Z * bool) : Prop :=
  st.1.1.1 = st.1.1.2 /\ agree (st.1.1.2, st.1.2, st.2) s pst.

(** Every pair of cities of [v] has an entry in the matrix, and [v] has a
    city: the cost of any arrangement of [v] is defined. *)
Definition defined_on (distancias : matrix) (v : list nat) : Prop :=
  v <> [] /\
  forall a b, a ∈ v -> b ∈ v ->
    exists row d, distancias !! a = Some row /\ row !! b = Some d.

(** What a pass keeps true of its loop variables, from the tour [v0] of cost
    [c0] it started with. *)
Definition reach (distancias : matrix) (v0 : list nat) (c0 : Z)
    (st : list nat * Z * bool) : Prop :=
  let '(v, c, b) := st in
  v ≡ₚ v0 /\ custo_de distancias v = Some c /\ v !! 0 = v0 !! 0 /\ last v = last v0 /\
  if b then (c < c0)%Z else v = v0 /\ c = c0.

(** ** Vocabulary of the properties *)

(** An [n x n] matrix, and one without negative entries. *)
Definition square {A} (n : nat) (distancias : list (list A)) : Prop :=
  length distancias = n /\ Forall (fun row => length row = n) distancias.

Definition nonneg (distancias : matrix) : Prop :=
  Forall (Forall (fun d => (0 <= d)%Z)) distancias.

(** The entry [distancias[a][b]], and the cost the specification gives a
    tour: the sum over consecutive pairs, plus the way back from the last
    city to the first. *)
Definition entry (distancias : matrix) (a b : nat) : Z :=
  nth b (nth a distancias []) 0%Z.

Definition edge_cost (distancias : matrix) (T : list nat) (i k : nat) : Z :=
  entry distancias (nth i T 0) (nth k T 0).

Definition tour_cost_spec (distancias : matrix) (T : list nat) : Z :=
  let n := length T in
  (foldr Z.add 0 (map (fun i => edge_cost distancias T i (i + 1)) (seq 0 (n - 1)))
   + edge_cost distancias T (n - 1) 0)%Z.

(** The tour with the cities at positions [a..b] in reverse order. *)
Definition reverse_segment (v : list nat) (a b : nat) : list nat :=
  take a v ++ rev (take (S b - a) (drop a v)) ++ drop (S b) v.

(** A 2-opt local optimum: no reversal of a segment costs strictly less. *)
Definition optimal_2opt (distancias : matrix) (v : list nat) : Prop :=
  forall a b c c', a <= b -> b < length v ->
    custo_de distancias v = Some c ->
    custo_de distancias (reverse_segment v a b) = Some c' -> (c <= c')%Z.

(** The same for the segments that keep clear of the first and of the last
    position. *)
Definition optimal_inner (distancias : matrix) (v : list nat) : Prop :=
  forall a b, 1 <= a -> a < b -> b + 1 < length v ->
    exists c c', custo_de distancias v = Some c
                 /\ custo_de distancias (reverse_segment v a b) = Some c' /\ (c <= c')%Z.

(** Candidates in ascending order of cost. *)
Definition by_cost (x y : nat * Z) : Prop := (snd x <= snd y)%Z.

(** The sorted candidates of a step and its restricted candidate list, from
    the current city and the unvisited ones. *)
Definition candidatos (distancias : matrix) (cidade_atual : nat) (nv : list nat)
    : list (nat * Z) :=
  sort_by_cost (map (fun cidade => (cidade, entry distancias cidade_atual cidade)) nv).

(** For an exact [alpha], whose products always convert: the limit of a
    step with [k] candidates, and its restricted candidate list. *)
Definition limite_rcl (k : nat) (alpha : Q) : Z :=
  (py_int (inject_Z (Z.of_nat k) * alpha) + 1)%Z.


(** What the library promises of the generator: the draw behind
    [random.choice] is a position of the sequence, and
    [random.sample(range(n), 2)] gives two distinct positions. *)
Definition randbelow_ok {G} (randbelow : nat -> G -> nat * G) : Prop :=
  forall n g, 0 < n -> (randbelow n g).1 < n.

Definition sample2_ok {G} (sample2 : nat -> G -> (nat * nat) * G) : Prop :=
  forall n g, 2 <= n ->
    (sample2 n g).1.1 < n /\ (sample2 n g).1.2 < n /\ (sample2 n g).1.1 <> (sample2 n g).1.2.





(** Four cities at the corners of a 3 by 4 rectangle: city 0 at (4, 3),
    city 1 at (4, 0), city 2 at (0, 3), city 3 at (0, 0).  The tour
    [0, 1, 2, 3] runs along both diagonals. *)
Definition rect345 : matrix :=
  [[0; 3; 4; 5]; [3; 0; 5; 4]; [4; 5; 0; 3]; [5; 4; 3; 0]]%Z.

Definition crossing_tour : list nat := [0; 1; 2; 3].


(** ** Distances: [distancia_euclidiana] and [gerar_matriz_distancias]

    Cities are pairs of integer coordinates, as the example program draws
    them.  [math.sqrt] is a parameter [raiz]: it returns a number of some
    type [D] or raises, and the matrix holds the integer [zero] where the
    loops write nothing.  [math_sqrt] below is what the library does. *)

Section Distancias.
Context {D : Type}.
Variable zero : D.
Variable raiz : Z -> exn + D.

Definition distancia_euclidiana (cidade1 cidade2 : Z * Z) : exn + D :=
  raiz ((cidade1.1 - cidade2.1) ^ 2 + (cidade1.2 - cidade2.2) ^ 2)%Z.

(** [cidades[i]] *)
Definition cidade (cidades : list (Z * Z)) (i : nat) : exn + Z * Z :=
  match cidades !! i with
  | Some c => inr c
  | None => inl IndexError
  end.

(** [matriz[i][j] = d] *)
Definition matriz_set (matriz : list (list D)) (i j : nat) (d : D)
    : exn + list (list D) :=
  match matriz !! i with
  | Some row =>
      if j <? length row then inr (<[i := <[j := d]> row]> matriz) else inl IndexError
  | None => inl IndexError
  end.

(** The body of the loop on [j]. *)
Definition gerar_matriz_j (cidades : list (Z * Z)) (i j : nat)
    (matriz : list (list D)) : exn + list (list D) :=
  if i =? j then inr matriz
  else
    try a := cidade cidades i in
    try b := cidade cidades j in
    try d := distancia_euclidiana a b in
    matriz_set matriz i j d.

Definition gerar_matriz_distancias (cidades : list (Z * Z)) : exn + list (list D) :=
  let n := length cidades in
  let matriz := replicate n (replicate n zero) in
  for_exn (range 0 n)
    (fun i matriz => for_exn (range 0 n) (gerar_matriz_j cidades i) matriz) matriz.

(** The entry [matriz[a][b]], [zero] where there is none. *)
Definition cell (matriz : list (list D)) (a b : nat) : D :=
  nth b (nth a matriz []) zero.

End Distancias.

(** The numbers of a matrix of distances: the integer it is filled with, and
    floats. *)
Inductive pynum := PyInt (z : Z) | PyFloat (f : spec_float).

(** [math.sqrt(z)] for an integer [z]: the integer is converted, and a
    negative one is outside the domain. *)
Definition math_sqrt (z : Z) : exn + pynum :=
  try x := float_of_int z in
  match SFsqrt prec64 emax64 x with
  | S754_nan => inl ValueError
  | r => inr (PyFloat r)
  end.

(** A matrix that reads the same in both directions. *)
Definition symmetric (distancias : matrix) : Prop :=
  forall a b, entry distancias a b = entry distancias b a.

(** The cost of walking along [l], without the way back, and the way back
    from its last city to its first. *)
Fixpoint path_cost (distancias : matrix) (l : list nat) : Z :=
  match l with
  | a :: (b :: _) as t => (entry distancias a b + path_cost distancias t)%Z
  | _ => 0%Z
  end.

Definition first_city (l : list nat) : nat := hd 0 l.
Definition last_city (l : list nat) : nat := List.last l 0.

Definition closing (distancias : matrix) (l : list nat) : Z :=
  entry distancias (last_city l) (first_city l).

(** What the move [(i, j)] adds to the cost on a symmetric matrix: the two
    edges it puts in, minus the two it takes out. *)
Definition delta_2opt (distancias : matrix) (v : list nat) (i j : nat) : Z :=
  (edge_cost distancias v (i - 1) (j - 1) + edge_cost distancias v i j
   - edge_cost distancias v (i - 1) i - edge_cost distancias v (j - 1) j)%Z.

(** The loop variables of a pass hold a tour of the store and its cost;
    they are those the pass began with, [(m0, c0)] in the state [s0], or an
    object allocated since, of strictly smaller cost. *)
Definition tracks {G} (distancias : matrix) (s0 : state G) (m0 : loc) (c0 : Z)
    (st : loc * Z * bool) (s : state G) : Prop :=
  extends s0 s
  /\ (exists v, heap s !! st.1.1 = Some v /\ custo_de distancias v = Some st.1.2)
  /\ (st = (m0, c0, false)
      \/ (st.2 = true /\ length (heap s0) <= st.1.1 /\ (st.1.2 < c0)%Z)).

(** The current city has an entry for every unvisited city. *)
Definition lookups_ok (distancias : matrix) (cur : nat) (nv : list nat) : Prop :=
  forall c, c ∈ nv -> exists row d, distancias !! cur = Some row /\ row !! c = Some d.



(** The four corners of the rectangle that [rect345] measures, and two
    cities too far apart for a float. *)
Definition rectangle : list (Z * Z) := [(4, 3); (4, 0); (0, 3); (0, 0)]%Z.
Definition far_apart : list (Z * Z) := [(0, 0); (10 ^ 200, 0)]%Z.

(** ** [alpha] as a number

    The floats [0.3] (the default of the code), [0.58], [1.0], [3.0],
    [-1.0] and [1e308]; the number a float stands for; [alpha] in [[0, 1]], [alpha = 0] and
    [alpha = 1] for an exact [alpha] and for a float. *)
Definition float_03 : spec_float := S754_finite false 5404319552844595 (-54).
Definition float_058 : spec_float := S754_finite false 5224175567749775 (-53).
Definition float_one : spec_float := S754_finite false 4503599627370496 (-52).
Definition float_3 : spec_float := S754_finite false 6755399441055744 (-51).
Definition float_m1 : spec_float := S754_finite true 4503599627370496 (-52).
Definition float_1e308 : spec_float := S754_finite false 5010420900022432 971.

(** [a / b] for two integers: the float nearest to the quotient, which is
    also how the literal is read. *)
Definition float_ratio (a b : Z) : spec_float :=
  SFdiv prec64 emax64 (binary_normalize prec64 emax64 a 0 false)
    (binary_normalize prec64 emax64 b 0 false).

Definition float_value (f : spec_float) : Q :=
  match f with
  | S754_finite s m e => inject_Z (cond_Zopp s (Z.pos m)) * Qpower 2 e
  | _ => 0
  end.

Definition unit_float (f : spec_float) : Prop :=
  valid_binary prec64 emax64 f = true
  /\ SFleb (S754_zero false) f = true /\ SFleb f float_one = true.

Definition unit_alpha (alpha : number) : Prop :=
  match alpha with
  | Exact q => (0 <= q)%Q /\ (q <= 1)%Q
  | Float f => unit_float f
  end.

Definition zero_alpha (alpha : number) : Prop :=
  match alpha with
  | Exact q => (q == 0)%Q
  | Float (S754_zero _) => True
  | Float _ => False
  end.

Definition one_alpha (alpha : number) : Prop :=
  match alpha with
  | Exact q => (q == 1)%Q
  | Float f => f = float_one
  end.

(** Each product [k * alpha] a run on [n] cities forms, [1 <= k < n],
    converts to an integer [z] with [P k z]. *)
Definition converts (n : nat) (alpha : number) (P : nat -> Z -> Prop) : Prop :=
  forall k, 1 <= k < n -> exists z, int_times k alpha = inr z /\ P k z.


Definition alpha_le_m1 (n : nat) (alpha : number) : Prop :=
  match alpha with
  | Exact q => (q <= -1)%Q
  | Float _ => converts n alpha (fun k z => (z <= - Z.of_nat k)%Z)
  end.

(** One step of the construction as the specification describes it, from
    the tour so far, the unvisited cities and the generator to what they are
    after the step: the candidates are the unvisited cities with their
    distance from the current city, in ascending order; the restricted
    candidate list is made of the first [int(k * alpha) + 1] of them; the
    city chosen is the one at the position the generator draws below the
    length of that list, where no city occurs twice. *)
Definition passo_rcl {G} (randbelow : nat -> G -> nat * G) (distancias : matrix)
    (alpha : number) (st st' : list nat * list nat * G) : Prop :=
  let '(sol, nv, g) := st in
  exists cur custos z c d nv',
    last sol = Some cur
    /\ StronglySorted by_cost custos /\ map fst custos ≡ₚ nv
    /\ (forall c' d', (c', d') ∈ custos -> d' = entry distancias cur c')
    /\ int_times (length nv) alpha = inr z /\ (0 <= z)%Z
    /\ let rcl := take (Z.to_nat (z + 1)) custos in
       let p := (randbelow (length rcl) g).1 in
       NoDup (map fst rcl) /\ p < length rcl /\ rcl !! p = Some (c, d)
       /\ (zero_alpha alpha ->
           length rcl = 1 /\ forall c', c' ∈ nv -> (d <= entry distancias cur c')%Z)
       /\ (one_alpha alpha -> rcl = custos)
       /\ remove_first c nv = Some nv'
       /\ st' = (sol ++ [c], nv', (randbelow (length rcl) g).2).

(** Cities on a line, one unit apart. *)
Definition line (n : nat) : matrix :=
  map (fun a => map (fun b => Z.abs (Z.of_nat a - Z.of_nat b)) (seq 0 n)) (seq 0 n).

(** * Lemmas *)

(** ** The monad and the store *)

Section StoreFacts.
Context {G : Type}.
Implicit Types (s : state G) (v w : list nat) (r : loc).

Lemma extends_refl s : extends s s.
Proof. split; [reflexivity|]. exists []. now rewrite app_nil_r. Qed.

Lemma extends_trans s1 s2 s3 : extends s1 s2 -> extends s2 s3 -> extends s1 s3.
Proof.
  intros [Hg1 [e1 H1]] [Hg2 [e2 H2]]. split; [congruence|].
  exists (e1 ++ e2). now rewrite H2, H1, app_assoc.
Qed.

Lemma extends_lookup s s' r v : extends s s' -> heap s !! r = Some v -> heap s' !! r = Some v.
Proof.
  intros [_ [e He]] Hr. rewrite He. rewrite lookup_app_l; [assumption|].
  now apply lookup_lt_Some in Hr.
Qed.

Lemma extends_new h (g : G) v : extends (mkState h g) (mkState (h ++ [v]) g).
Proof. split; [reflexivity|]. now exists [v]. Qed.

Lemma bind_ret_eq {A B} (m : M G A) (k : A -> M G B) s a s' :
  m s = Ret a s' -> bind m k s = k a s'.
Proof. intros H. unfold bind. now rewrite H. Qed.

Lemma bind_inv {A B} (m : M G A) (k : A -> M G B) s b s' :
  bind m k s = Ret b s' -> exists a s1, m s = Ret a s1 /\ k a s1 = Ret b s'.
Proof. unfold bind. destruct (m s) as [a s1| |]; [eauto|discriminate..]. Qed.

Lemma heap_get_eq r v s : heap s !! r = Some v -> heap_get r s = Ret v s.
Proof. intros H. unfold heap_get. now rewrite H. Qed.

Lemma list_len_eq r v s : heap s !! r = Some v -> list_len r s = Ret (length v) s.
Proof. intros H. unfold list_len. now rewrite (bind_ret_eq _ _ _ _ _ (heap_get_eq _ _ _ H)). Qed.

Lemma heap_set_eq r v w s :
  heap s !! r = Some v -> heap_set r w s = Ret tt (mkState (<[r:=w]> (heap s)) (gen s)).
Proof. intros H. unfold heap_set. now rewrite H. Qed.

Lemma lookup_fresh (h : list (list nat)) v : (h ++ [v]) !! length h = Some v.
Proof. rewrite lookup_app_r by lia. now rewrite Nat.sub_diag. Qed.

Lemma insert_fresh (h : list (list nat)) v w : <[length h := w]> (h ++ [v]) = h ++ [w].
Proof. rewrite insert_app_r_alt by lia. now rewrite Nat.sub_diag. Qed.

Lemma lookup_old (h : list (list nat)) e r v : h !! r = Some v -> (h ++ e) !! r = Some v.
Proof. intros H. rewrite lookup_app_l; [assumption|]. now apply lookup_lt_Some in H. Qed.

End StoreFacts.

(** ** Ranges *)

Lemma elem_of_range lo hi i : i ∈ range lo hi <-> lo <= i /\ i < hi.
Proof. unfold range. rewrite elem_of_seq. lia. Qed.

(** ** The candidate of a 2-opt move *)

Lemma two_opt_eq v i j :
  1 <= i -> i <= j ->
  two_opt v i j = take i v ++ rev (take (j - i) (drop i v)) ++ drop j v.
Proof.
  intros Hi Hj. unfold two_opt, slice_assign, slice_down.
  replace (S (i - 1)) with i by lia. replace (j - 1 - (i - 1)) with (j - i) by lia.
  now rewrite Nat.max_r by lia.
Qed.

Lemma split3 {A} (v : list A) i j :
  i <= j -> v = take i v ++ take (j - i) (drop i v) ++ drop j v.
Proof.
  intros Hj. rewrite <- (take_drop i v) at 1. f_equal.
  rewrite <- (take_drop (j - i) (drop i v)) at 1. f_equal.
  rewrite drop_drop. f_equal. lia.
Qed.

Lemma two_opt_perm v i j : 1 <= i -> i <= j -> two_opt v i j ≡ₚ v.
Proof.
  intros Hi Hj. rewrite two_opt_eq by assumption.
  rewrite (split3 v i j) at 4 by assumption.
  apply Permutation_app_head, Permutation_app_tail. symmetry. apply Permutation_rev.
Qed.

Lemma two_opt_length v i j : 1 <= i -> i <= j -> length (two_opt v i j) = length v.
Proof. intros Hi Hj. apply Permutation_length. now apply two_opt_perm. Qed.

Lemma two_opt_head v i j : 1 <= i -> i <= j -> two_opt v i j !! 0 = v !! 0.
Proof.
  intros Hi Hj. rewrite two_opt_eq by assumption.
  destruct v as [|a v]; [now rewrite !take_nil, !drop_nil, take_nil|].
  destruct i as [|i]; [lia|]. reflexivity.
Qed.

Lemma two_opt_last v i j : 1 <= i -> i <= j -> j < length v -> last (two_opt v i j) = last v.
Proof.
  intros Hi Hj Hn. rewrite two_opt_eq by assumption.
  rewrite (split3 v i j) at 4 by assumption.
  rewrite !last_app.
  destruct (last (drop j v)) eqn:E; [reflexivity|].
  apply last_None in E. apply (f_equal length) in E. rewrite length_drop in E.
  simpl in E. lia.
Qed.

(** ** The code computes the value-level functions *)

Section Simulation.
Context {G : Type}.
Implicit Types (s : state G) (v w : list nat) (r : loc).

Lemma passo_custo_sim distancias r v s ixs custo :
  heap s !! r = Some v ->
  for_each ixs
      (fun i custo =>
         let* a := list_getitem r i in
         let* row := matrix_row distancias a in
         let* b := list_getitem r (i + 1) in
         let* d := row_item row b in
         ret (custo + d)%Z) custo s
  = match fold_opt ixs (passo_custo distancias v) custo with
    | Some c => Ret c s
    | None => Raise IndexError
    end.
Proof.
  intros Hr. revert custo. induction ixs as [|i ixs IH]; intros custo; [reflexivity|].
  cbn [for_each fold_opt]. unfold bind at 1, passo_custo.
  unfold list_getitem, bind, matrix_row, row_item. rewrite !(heap_get_eq _ _ _ Hr).
  destruct (v !! i) as [a|]; [|reflexivity]. cbn.
  destruct (distancias !! a) as [row|]; [|reflexivity]. cbn.
  rewrite (heap_get_eq _ _ _ Hr).
  destruct (v !! (i + 1)) as [b|]; [|reflexivity]. cbn.
  destruct (row !! b) as [d|]; [|reflexivity]. cbn.
  apply IH.
Qed.

(** [calcular_custo] reads the tour, leaves the state as it is and answers
    [custo_de]. *)
Lemma calcular_custo_sim distancias r v s :
  heap s !! r = Some v ->
  calcular_custo r distancias s
  = match custo_de distancias v with
    | Some c => Ret c s
    | None => Raise IndexError
    end.
Proof.
  intros Hr. unfold calcular_custo, custo_de.
  unfold bind at 1. unfold list_len, bind at 1. rewrite (heap_get_eq _ _ _ Hr). cbn [ret].
  unfold bind at 1. rewrite (passo_custo_sim _ _ _ _ _ _ Hr).
  destruct (fold_opt _ _ _) as [c|]; [|reflexivity]. cbn [mbind option_bind].
  unfold list_getlast, list_getitem, bind, matrix_row, row_item. rewrite !(heap_get_eq _ _ _ Hr).
  destruct (last v) as [a|]; [|reflexivity]. cbn.
  destruct (distancias !! a) as [row|]; [|reflexivity]. cbn.
  rewrite (heap_get_eq _ _ _ Hr).
  destruct (v !! 0) as [b|]; [|reflexivity]. cbn.
  destruct (row !! b) as [d|]; reflexivity.
Qed.

Lemma sim_opt_mono {A B} (R R' : A -> state G -> B -> Prop) s o p :
  sim_opt R s o p ->
  (forall a s' b, extends s s' -> R a s' b -> R' a s' b) ->
  sim_opt R' s o p.
Proof.
  unfold sim_opt. destruct p as [b|]; [|trivial].
  intros (a & s' & -> & Hext & HR) Hmono. exists a, s'.
  split; [reflexivity|]. split; [assumption|]. now apply Hmono.
Qed.

Lemma for_each_sim {A S T} (R : S -> state G -> T -> Prop)
    (body : A -> S -> M G S) (pbody : A -> T -> option T) (xs : list A) :
  (forall x st s pst, R st s pst -> sim_opt R s (body x st s) (pbody x pst)) ->
  forall st s pst, R st s pst -> sim_opt R s (for_each xs body st s) (fold_opt xs pbody pst).
Proof.
  intros Hbody. induction xs as [|x xs IH]; intros st s pst HR.
  - cbn. exists st, s. split; [reflexivity|]. split; [apply extends_refl|assumption].
  - cbn [for_each fold_opt]. unfold bind.
    specialize (Hbody x st s pst HR). unfold sim_opt in Hbody.
    destruct (pbody x pst) as [pst1|].
    + destruct Hbody as (st1 & s1 & -> & Hext & HR1).
      specialize (IH st1 s1 pst1 HR1). unfold sim_opt in *.
      destruct (fold_opt xs pbody pst1) as [pst2|].
      * destruct IH as (st2 & s2 & -> & Hext2 & HR2). exists st2, s2.
        split; [reflexivity|]. split; [eapply extends_trans; eassumption|assumption].
      * assumption.
    + now rewrite Hbody.
Qed.

Lemma busca_local_j_sim distancias i j st s pst :
  agree st s pst ->
  sim_opt agree s (busca_local_j distancias i j st s) (passo_j_val distancias i j pst).
Proof.
  destruct st as [[melhor c] b], pst as [[v c'] b']. intros (Hm & Hc & Hb).
  cbn in Hm, Hc, Hb. subst c' b'.
  unfold busca_local_j, passo_j_val. destruct (j - i =? 1).
  { exists (melhor, c, b), s. split; [reflexivity|].
    split; [apply extends_refl|]. now split. }
  destruct s as [h g]. cbn in Hm.
  unfold bind at 1. unfold list_copy, bind at 1.
  rewrite (heap_get_eq melhor v) by assumption. cbn [heap_new heap gen].
  unfold bind at 1. unfold list_slice_down, bind at 1.
  rewrite (heap_get_eq melhor v) by (now apply lookup_old). cbn [ret].
  unfold bind at 1. unfold list_slice_assign, bind at 1.
  rewrite (heap_get_eq (length h) v) by apply lookup_fresh.
  rewrite (heap_set_eq (length h) v) by apply lookup_fresh. cbn [heap gen].
  rewrite insert_fresh. fold (two_opt v i j).
  unfold bind at 1.
  rewrite (calcular_custo_sim _ (length h) (two_opt v i j)) by apply lookup_fresh.
  destruct (custo_de distancias (two_opt v i j)) as [c'|]; [|reflexivity].
  cbn [mbind option_bind sim_opt].
  destruct (c' <? c)%Z.
  - eexists _, _. split; [reflexivity|]. split; [apply extends_new|].
    split; [apply lookup_fresh|now split].
  - eexists _, _. split; [reflexivity|]. split; [apply extends_new|].
    split; [now apply lookup_old|now split].
Qed.

Lemma busca_local_i_sim distancias solucao n i st s pst :
  (exists vs, heap s !! solucao = Some vs /\ length vs = n) ->
  agree st s pst ->
  sim_opt agree s (busca_local_i distancias solucao i st s) (passo_i_val distancias n i pst).
Proof.
  intros (vs & Hs & Hn) HR. unfold busca_local_i, passo_i_val.
  unfold bind, list_len, bind. rewrite (heap_get_eq _ _ _ Hs). cbn [ret]. rewrite Hn.
  apply for_each_sim; [|assumption]. intros. now apply busca_local_j_sim.
Qed.

Lemma busca_local_pass_sim distancias melhor c b v s :
  heap s !! melhor = Some v ->
  sim_opt agree_pass s (busca_local_pass distancias (melhor, melhor, c, b) s)
    (pass_val distancias v c).
Proof.
  intros Hm. unfold busca_local_pass, pass_val.
  unfold bind at 1. unfold list_len, bind at 1. rewrite (heap_get_eq _ _ _ Hm). cbn [ret].
  unfold bind at 1.
  pose proof (for_each_sim
    (fun st s' pst => agree st s' pst /\ heap s' !! melhor = Some v)
    (busca_local_i distancias melhor) (passo_i_val distancias (length v))
    (range 1 (length v - 2))) as H.
  assert (Hagree : agree (melhor, c, false) s (v, c, false)) by (now split).
  specialize (H ltac:(intros x st s1 pst [HR Hs1];
    eapply sim_opt_mono; [apply busca_local_i_sim; eauto|];
    intros a s2 p Hext HR2; split; [assumption|now apply (extends_lookup s1)])
    (melhor, c, false) s (v, c, false) (conj Hagree Hm)).
  unfold sim_opt in *.
  destruct (fold_opt _ _ _) as [[[v' c'] b']|].
  - destruct H as ([[m' c2] b2] & s' & -> & Hext & (Hm' & Hc & Hb) & _).
    cbn in Hm', Hc, Hb. subst c2 b2. eexists _, s'.
    split; [reflexivity|]. split; [assumption|]. now repeat split.
  - now rewrite H.
Qed.

Lemma busca_while_sim distancias fuel : forall melhor c v s,
  heap s !! melhor = Some v ->
  sim_res (fun st s' v' => st.2 = false /\ heap s' !! st.1.1.2 = Some v') s
    (while_loop fuel (fun '(_, _, _, melhorou) => ret melhorou)
       (busca_local_pass distancias) (melhor, melhor, c, true) s)
    (busca_val fuel distancias v c).
Proof.
  induction fuel as [|fuel IH]; intros melhor c v s Hm; [reflexivity|].
  cbn [busca_val while_loop]. unfold bind at 1. cbn [ret]. unfold bind at 1.
  pose proof (busca_local_pass_sim distancias melhor c true v s Hm) as Hp.
  unfold sim_opt in Hp.
  destruct (pass_val distancias v c) as [[[v1 c1] b1]|]; [|now rewrite Hp].
  destruct Hp as ([[[m0 m1] c2] b2] & s1 & -> & Hext & Heq & Hm1 & Hc & Hb).
  cbn in Heq, Hm1, Hc, Hb. subst m0 c2 b2.
  destruct b1.
  - specialize (IH m1 c1 v1 s1 Hm1). unfold sim_res in *.
    destruct (busca_val fuel distancias v1 c1) as [v2| |]; [|assumption..].
    destruct IH as (st2 & s2 & -> & Hext2 & Hm2). exists st2, s2.
    split; [reflexivity|]. split; [eapply extends_trans; eassumption|assumption].
  - exists (m1, m1, c1, false), s1. split; [now destruct fuel|]. now split.
Qed.

(** [busca_local] allocates candidates, leaves every object that was there
    untouched and answers a reference to [busca_local_val]. *)
Lemma busca_local_sim distancias fuel solucao v s :
  heap s !! solucao = Some v ->
  sim_res (fun r s' v' => heap s' !! r = Some v') s
    (busca_local fuel solucao distancias s) (busca_local_val fuel distancias v).
Proof.
  intros Hs. unfold busca_local, busca_local_val. unfold bind at 1.
  rewrite (calcular_custo_sim _ _ _ _ Hs).
  destruct (custo_de distancias v) as [c|]; [|reflexivity].
  unfold bind at 1.
  pose proof (busca_while_sim distancias fuel solucao c v s Hs) as H.
  unfold sim_res in *.
  destruct (busca_val fuel distancias v c) as [v'| |].
  - destruct H as ([[[m0 m] c'] b'] & s' & -> & Hext & Hb & Hm). now exists m, s'.
  - now rewrite H.
  - now rewrite H.
Qed.

End Simulation.

(** ** Folds that may fail *)

Lemma fold_opt_inv {A S} (P : S -> Prop) (xs : list A) (f : A -> S -> option S) :
  (forall x s s', x ∈ xs -> P s -> f x s = Some s' -> P s') ->
  forall s s', P s -> fold_opt xs f s = Some s' -> P s'.
Proof.
  induction xs as [|x xs IH]; intros Hf s s' HP Hfold; cbn in Hfold.
  - now inversion Hfold; subst.
  - destruct (f x s) as [s1|] eqn:E; [|discriminate].
    apply (IH (fun y t t' Hy => Hf y t t' (list_elem_of_further _ _ _ Hy)) s1 s');
      [|assumption].
    apply (Hf x s s1); [apply list_elem_of_here|assumption..].
Qed.

Lemma fold_opt_total {A S} (P : S -> Prop) (xs : list A) (f : A -> S -> option S) :
  (forall x s, x ∈ xs -> P s -> exists s', f x s = Some s' /\ P s') ->
  forall s, P s -> exists s', fold_opt xs f s = Some s' /\ P s'.
Proof.
  induction xs as [|x xs IH]; intros Hf s HP; cbn.
  - now exists s.
  - destruct (Hf x s (list_elem_of_here _ _) HP) as (s1 & -> & HP1).
    apply IH; [|assumption]. intros y t Hy. apply Hf. now apply list_elem_of_further.
Qed.

(** ** The cost is defined on every arrangement of a valid tour *)

Lemma defined_on_perm distancias v w : v ≡ₚ w -> defined_on distancias v -> defined_on distancias w.
Proof.
  intros Hp [Hne Hd]. split.
  - intros ->. apply Permutation_nil_r in Hp. contradiction.
  - intros a b Ha Hb. apply Hd; now rewrite Hp.
Qed.

Lemma custo_de_defined distancias v :
  defined_on distancias v -> exists c, custo_de distancias v = Some c.
Proof.
  intros [Hne Hd]. unfold custo_de.
  destruct (fold_opt_total (fun _ => True) (range 0 (length v - 1))
              (passo_custo distancias v)) with (s := 0%Z) as (c & -> & _); [|exact I|].
  - intros i c Hi _. apply elem_of_range in Hi. unfold passo_custo.
    destruct (lookup_lt_is_Some_2 v i) as [a Ha]; [lia|].
    destruct (lookup_lt_is_Some_2 v (i + 1)) as [b Hb]; [lia|].
    destruct (Hd a b) as (row & d & Hrow & Hd'); [eapply list_elem_of_lookup_2; eassumption..|].
    rewrite Ha. cbn. rewrite Hrow. cbn. rewrite Hb. cbn. rewrite Hd'. cbn. eauto.
  - cbn. destruct v as [|b v]; [contradiction|].
    destruct (last (b :: v)) as [a|] eqn:Ha; [|now apply last_None in Ha].
    destruct (Hd a b) as (row & d & Hrow & Hd');
      [apply last_Some_elem_of; assumption|apply list_elem_of_here|].
    cbn. rewrite Hrow. cbn. rewrite Hd'. cbn. eauto.
Qed.

(** ** One pass of the local search, value level *)

Section Pass.
Variable distancias : matrix.
Implicit Types (v w : list nat) (c : Z) (b : bool).

Lemma passo_j_val_cases i j v c b st' :
  passo_j_val distancias i j (v, c, b) = Some st' ->
  st' = (v, c, b)
  \/ (j - i <> 1 /\ exists c', custo_de distancias (two_opt v i j) = Some c'
                              /\ (c' < c)%Z /\ st' = (two_opt v i j, c', true)).
Proof.
  unfold passo_j_val. destruct (j - i =? 1) eqn:E.
  - intros [= <-]. now left.
  - apply Nat.eqb_neq in E.
    destruct (custo_de distancias (two_opt v i j)) as [c'|] eqn:Ec; [|discriminate].
    cbn. destruct (c' <? c)%Z eqn:Hlt; intros [= <-].
    + right. split; [assumption|]. exists c'. apply Z.ltb_lt in Hlt. now repeat split.
    + now left.
Qed.

Lemma passo_j_val_reach v0 c0 i j st st' :
  1 <= i -> i < j -> j < length v0 ->
  reach distancias v0 c0 st -> passo_j_val distancias i j st = Some st' ->
  reach distancias v0 c0 st'.
Proof.
  intros Hi Hj Hn. destruct st as [[v c] b]. intros HR Hst.
  apply passo_j_val_cases in Hst as [->|(_ & c' & Hc' & Hlt & ->)]; [assumption|].
  destruct HR as (Hp & Hc & Hh & Hl & Hb).
  assert (length v = length v0) by now apply Permutation_length.
  split; [now rewrite two_opt_perm by lia|]. split; [assumption|].
  split; [now rewrite two_opt_head by lia|].
  split; [now rewrite two_opt_last by lia|].
  destruct b; [lia|]. destruct Hb as [_ ->]. assumption.
Qed.

Lemma passo_i_val_reach v0 c0 i st st' :
  1 <= i ->
  reach distancias v0 c0 st -> passo_i_val distancias (length v0) i st = Some st' ->
  reach distancias v0 c0 st'.
Proof.
  intros Hi HR. unfold passo_i_val. apply fold_opt_inv; [|assumption].
  intros j s s' Hj%elem_of_range. apply passo_j_val_reach; lia.
Qed.

Lemma reach_start v c : custo_de distancias v = Some c -> reach distancias v c (v, c, false).
Proof. intros Hc. now repeat split. Qed.

Lemma pass_val_reach v c st' :
  custo_de distancias v = Some c -> pass_val distancias v c = Some st' ->
  reach distancias v c st'.
Proof.
  intros Hc. unfold pass_val. apply fold_opt_inv; [|now apply reach_start].
  intros i s s' Hi%elem_of_range. apply passo_i_val_reach; lia.
Qed.

(** On a tour whose cost is defined everywhere a pass does not fail. *)
Lemma pass_val_total v c :
  defined_on distancias v -> custo_de distancias v = Some c ->
  exists st', pass_val distancias v c = Some st'.
Proof.
  intros Hd Hc. unfold pass_val.
  destruct (fold_opt_total (reach distancias v c) (range 1 (length v - 2))
              (passo_i_val distancias (length v))) with (s := (v, c, false))
    as (st' & Hst & _); [|now apply reach_start|now exists st'].
  intros i st Hi%elem_of_range HR. unfold passo_i_val.
  apply fold_opt_total; [|assumption].
  intros j [[w cw] bw] Hj%elem_of_range HRw.
  assert (exists st1, passo_j_val distancias i j (w, cw, bw) = Some st1) as [st1 Hst1].
  { unfold passo_j_val. destruct (j - i =? 1); [eauto|].
    destruct (custo_de_defined distancias (two_opt w i j)) as [c' ->]; [|cbn; eauto].
    destruct HRw as (Hp & _). eapply defined_on_perm; [|exact Hd].
    symmetry. rewrite two_opt_perm by lia. assumption. }
  exists st1. split; [assumption|].
  eapply passo_j_val_reach; [| | | exact HRw | exact Hst1]; lia.
Qed.

(** Once a move was accepted the flag stays up. *)
Lemma passo_j_val_flag i j v c st' :
  passo_j_val distancias i j (v, c, true) = Some st' -> st'.2 = true.
Proof. intros [->|(_ & c' & _ & _ & ->)]%passo_j_val_cases; reflexivity. Qed.

Lemma fold_j_flag i js : forall st st',
  st.2 = true -> fold_opt js (passo_j_val distancias i) st = Some st' -> st'.2 = true.
Proof.
  intros st st'. apply (fold_opt_inv (fun st => st.2 = true)).
  intros j [[v c] b] s' _ Hb. cbn in Hb. subst b. apply passo_j_val_flag.
Qed.

Lemma fold_i_flag n ixs : forall st st',
  st.2 = true -> fold_opt ixs (passo_i_val distancias n) st = Some st' -> st'.2 = true.
Proof.
  intros st st'. apply (fold_opt_inv (fun st => st.2 = true)).
  intros i s s' _. apply fold_j_flag.
Qed.

(** A loop on [j] that ends with the flag down met no improving candidate. *)
Lemma fold_j_false i v c js : forall st',
  fold_opt js (passo_j_val distancias i) (v, c, false) = Some st' -> st'.2 = false ->
  st' = (v, c, false)
  /\ forall j, j ∈ js -> j - i <> 1 ->
       exists c', custo_de distancias (two_opt v i j) = Some c' /\ (c <= c')%Z.
Proof.
  induction js as [|j js IH]; intros st' Hfold Hb; cbn [fold_opt] in Hfold.
  - inversion Hfold; subst. split; [reflexivity|]. intros j Hj. now apply elem_of_nil in Hj.
  - destruct (passo_j_val distancias i j (v, c, false)) as [st1|] eqn:E; [|discriminate].
    pose proof E as E'.
    apply passo_j_val_cases in E as [->|(_ & c' & _ & _ & ->)].
    + destruct (IH st' Hfold Hb) as [-> Hall]. split; [reflexivity|].
      intros j' [->|Hj']%elem_of_cons Hne; [|now apply Hall].
      unfold passo_j_val in E'. destruct (j - i =? 1) eqn:E1; [now apply Nat.eqb_eq in E1|].
      destruct (custo_de distancias (two_opt v i j)) as [c'|]; [|discriminate].
      exists c'. split; [reflexivity|]. cbn in E'.
      destruct (c' <? c)%Z eqn:Hlt; [discriminate|]. now apply Z.ltb_ge in Hlt.
    + apply fold_j_flag in Hfold; [|reflexivity]. congruence.
Qed.

Lemma fold_i_false n v c ixs : forall st',
  fold_opt ixs (passo_i_val distancias n) (v, c, false) = Some st' -> st'.2 = false ->
  st' = (v, c, false)
  /\ forall i j, i ∈ ixs -> j ∈ range (i + 1) n -> j - i <> 1 ->
       exists c', custo_de distancias (two_opt v i j) = Some c' /\ (c <= c')%Z.
Proof.
  induction ixs as [|i ixs IH]; intros st' Hfold Hb; cbn [fold_opt] in Hfold.
  - inversion Hfold; subst. split; [reflexivity|]. intros i j Hi. now apply elem_of_nil in Hi.
  - destruct (passo_i_val distancias n i (v, c, false)) as [st1|] eqn:E; [|discriminate].
    destruct (st1.2) eqn:Hb1.
    + apply fold_i_flag in Hfold; [congruence|assumption].
    + destruct (fold_j_false _ _ _ _ _ E Hb1) as [-> Hj].
      destruct (IH st' Hfold Hb) as [-> Hall]. split; [reflexivity|].
      intros i' j [->|Hi']%elem_of_cons; [apply Hj|now apply Hall].
Qed.

(** A pass that accepts no move leaves the tour as it is, and every move it
    scanned gives a tour that is defined and costs no less. *)
Lemma pass_val_false v c st' :
  pass_val distancias v c = Some st' -> st'.2 = false ->
  st' = (v, c, false)
  /\ forall i j, scanned (length v) i j ->
       exists c', custo_de distancias (two_opt v i j) = Some c' /\ (c <= c')%Z.
Proof.
  intros Hp Hb. destruct (fold_i_false _ _ _ _ _ Hp Hb) as [-> Hall].
  split; [reflexivity|]. intros i j (Hi & Hj & Hn).
  apply Hall; [apply elem_of_range|apply elem_of_range|]; lia.
Qed.

End Pass.

(** ** The tours over given cities, and counting the cheaper ones *)

Lemma elem_of_words alphabet w :
  Forall (fun a => a ∈ alphabet) w -> w ∈ words alphabet (length w).
Proof.
  induction 1 as [|a w Ha _ IH]; cbn.
  - apply list_elem_of_here.
  - apply list_elem_of_bind. exists w. split; [|assumption].
    apply list_elem_of_fmap. now exists a.
Qed.

Lemma perm_in_words v w : w ≡ₚ v -> w ∈ words v (length v).
Proof.
  intros Hp. rewrite <- (Permutation_length Hp). apply elem_of_words.
  apply Forall_forall. intros a Ha. now rewrite <- Hp.
Qed.

Lemma count_cheaper_le distancias ws c : count_cheaper distancias ws c <= length ws.
Proof. unfold count_cheaper. apply List.filter_length_le. Qed.

Lemma count_cheaper_lt distancias ws w c c' :
  w ∈ ws -> custo_de distancias w = Some c' -> (c' < c)%Z ->
  count_cheaper distancias ws c' < count_cheaper distancias ws c.
Proof.
  intros Hw Hc Hlt. unfold count_cheaper.
  assert (Hmono : forall u, cheaper distancias c' u = true -> cheaper distancias c u = true).
  { intros u. unfold cheaper. destruct (custo_de distancias u); [|discriminate].
    rewrite !Z.ltb_lt. lia. }
  induction ws as [|u ws IH]; [now apply elem_of_nil in Hw|].
  assert (Hle : length (List.filter (cheaper distancias c') ws)
                <= length (List.filter (cheaper distancias c) ws)).
  { clear -Hmono. induction ws as [|u ws IH]; [reflexivity|]. cbn.
    destruct (cheaper distancias c' u) eqn:E.
    - rewrite (Hmono u E). cbn. lia.
    - destruct (cheaper distancias c u); cbn; lia. }
  apply elem_of_cons in Hw as [<-|Hw]; cbn.
  - assert (cheaper distancias c' w = false) as ->
      by (unfold cheaper; rewrite Hc; apply Z.ltb_irrefl).
    assert (cheaper distancias c w = true) as ->
      by (unfold cheaper; rewrite Hc; now apply Z.ltb_lt).
    cbn. lia.
  - specialize (IH Hw). destruct (cheaper distancias c' u) eqn:E.
    + rewrite (Hmono u E). cbn. lia.
    + destruct (cheaper distancias c u); cbn; lia.
Qed.

(** ** The loop of the local search, value level *)

Section Loop.
Variable distancias : matrix.
Implicit Types (v w : list nat) (c : Z).

(** What the loop returns: an arrangement of the input that costs no more,
    keeps the first and the last city, and on which a further pass accepts
    no move. *)
Lemma busca_val_ok fuel : forall v c v',
  custo_de distancias v = Some c -> busca_val fuel distancias v c = Ok v' ->
  exists c', custo_de distancias v' = Some c' /\ (c' <= c)%Z /\ v' ≡ₚ v
             /\ v' !! 0 = v !! 0 /\ last v' = last v
             /\ pass_val distancias v' c' = Some (v', c', false).
Proof.
  induction fuel as [|fuel IH]; intros v c v' Hc Hrun; [discriminate|].
  cbn in Hrun. destruct (pass_val distancias v c) as [[[v1 c1] b1]|] eqn:Hp; [|discriminate].
  pose proof (pass_val_reach _ _ _ _ Hc Hp) as (Hperm & Hc1 & Hh & Hl & Hb).
  destruct b1.
  - destruct (IH v1 c1 v' Hc1 Hrun) as (c' & Hc' & Hle & Hp' & Hh' & Hl' & Hfix).
    exists c'. split; [assumption|]. split; [lia|]. split; [now rewrite Hp'|].
    split; [congruence|]. split; [congruence|assumption].
  - inversion Hrun; subst v'. destruct Hb as [-> ->].
    exists c. split; [assumption|]. split; [lia|]. now repeat split.
Qed.

(** More passes than there are cheaper tours is enough. *)
Lemma busca_val_halts v0 fuel : forall v c,
  v ≡ₚ v0 -> custo_de distancias v = Some c ->
  count_cheaper distancias (words v0 (length v0)) c < fuel ->
  busca_val fuel distancias v c <> Out.
Proof.
  induction fuel as [|fuel IH]; intros v c Hperm Hc Hfuel; [lia|].
  cbn. destruct (pass_val distancias v c) as [[[v1 c1] b1]|] eqn:Hp; [|discriminate].
  pose proof (pass_val_reach _ _ _ _ Hc Hp) as (Hperm1 & Hc1 & _ & _ & Hb).
  destruct b1; [|discriminate].
  apply IH; [now rewrite Hperm1|assumption|].
  assert (count_cheaper distancias (words v0 (length v0)) c1
          < count_cheaper distancias (words v0 (length v0)) c); [|lia].
  apply (count_cheaper_lt _ _ v1); [|assumption..].
  apply perm_in_words. now rewrite Hperm1.
Qed.

(** An answer does not depend on the bound that was enough for it. *)
Lemma busca_val_more fuel : forall fuel' v c,
  fuel <= fuel' -> busca_val fuel distancias v c <> Out ->
  busca_val fuel' distancias v c = busca_val fuel distancias v c.
Proof.
  induction fuel as [|fuel IH]; intros fuel' v c Hle Hrun; [now cbn in Hrun|].
  destruct fuel' as [|fuel']; [lia|]. cbn in *.
  destruct (pass_val distancias v c) as [[[v1 c1] [|]]|]; [|reflexivity..].
  apply IH; [lia|assumption].
Qed.

Lemma busca_val_no_err fuel : forall v c,
  defined_on distancias v -> custo_de distancias v = Some c ->
  busca_val fuel distancias v c <> Err.
Proof.
  induction fuel as [|fuel IH]; intros v c Hd Hc; [discriminate|].
  cbn. destruct (pass_val_total _ _ _ Hd Hc) as [[[v1 c1] b1] Hp]. rewrite Hp.
  pose proof (pass_val_reach _ _ _ _ Hc Hp) as (Hperm1 & Hc1 & _).
  destruct b1; [|discriminate].
  apply IH; [|assumption]. eapply defined_on_perm; [symmetry|]; eassumption.
Qed.

Lemma busca_local_val_ok fuel v v' :
  busca_local_val fuel distancias v = Ok v' ->
  exists c c', custo_de distancias v = Some c /\ custo_de distancias v' = Some c'
               /\ (c' <= c)%Z /\ v' ≡ₚ v /\ v' !! 0 = v !! 0 /\ last v' = last v
               /\ pass_val distancias v' c' = Some (v', c', false).
Proof.
  unfold busca_local_val. destruct (custo_de distancias v) as [c|] eqn:Hc; [|discriminate].
  intros Hrun. destruct (busca_val_ok _ _ _ _ Hc Hrun) as (c' & H).
  exists c, c'. now split.
Qed.

Lemma busca_local_val_halts fuel v :
  fuel_for v <= fuel -> busca_local_val fuel distancias v <> Out.
Proof.
  intros Hfuel. unfold busca_local_val.
  destruct (custo_de distancias v) as [c|] eqn:Hc; [|discriminate].
  apply (busca_val_halts v); [reflexivity|assumption|].
  pose proof (count_cheaper_le distancias (words v (length v)) c).
  unfold fuel_for in Hfuel. lia.
Qed.

Lemma busca_local_val_returns fuel v :
  defined_on distancias v -> fuel_for v <= fuel ->
  exists v', busca_local_val fuel distancias v = Ok v'.
Proof.
  intros Hd Hfuel. pose proof (busca_local_val_halts fuel v Hfuel) as Hh.
  unfold busca_local_val in *.
  destruct (custo_de_defined _ _ Hd) as [c Hc]. rewrite Hc in *.
  pose proof (busca_val_no_err fuel v c Hd Hc).
  destruct (busca_val fuel distancias v c); [eauto|contradiction..].
Qed.

Lemma busca_local_val_more fuel fuel' v :
  fuel <= fuel' -> busca_local_val fuel distancias v <> Out ->
  busca_local_val fuel' distancias v = busca_local_val fuel distancias v.
Proof.
  unfold busca_local_val. destruct (custo_de distancias v); [|reflexivity].
  apply busca_val_more.
Qed.

(** On its own answer the local search accepts no move. *)
Lemma busca_local_val_fix fuel v v' :
  busca_local_val fuel distancias v = Ok v' ->
  forall fuel', 1 <= fuel' -> busca_local_val fuel' distancias v' = Ok v'.
Proof.
  intros (c & c' & _ & Hc' & _ & _ & _ & _ & Hfix)%busca_local_val_ok fuel' Hf.
  unfold busca_local_val. rewrite Hc'. destruct fuel' as [|fuel']; [lia|].
  cbn. now rewrite Hfix.
Qed.

End Loop.

(** ** Valid tours and the cost the specification gives them *)

Lemma tour_defined_on n T distancias :
  T <> [] -> Forall (fun a => a < n) T -> square n distancias -> defined_on distancias T.
Proof.
  intros Hne HT [Hlen Hrows]. split; [assumption|].
  intros a b Ha Hb. rewrite Forall_forall in HT.
  destruct (lookup_lt_is_Some_2 distancias a) as [row Hrow]; [rewrite Hlen; now apply HT|].
  rewrite Forall_lookup in Hrows. specialize (Hrows a row Hrow).
  destruct (lookup_lt_is_Some_2 row b) as [d Hd]; [rewrite Hrows; now apply HT|].
  now exists row, d.
Qed.

Lemma perm_defined_on n T distancias :
  1 <= n -> T ≡ₚ seq 0 n -> square n distancias -> defined_on distancias T.
Proof.
  intros Hn HT HM. apply (tour_defined_on n); [| |assumption].
  - intros ->. apply Permutation_nil_l in HT. destruct n; [lia|discriminate].
  - apply Forall_forall. intros a Ha. rewrite HT in Ha. apply elem_of_seq in Ha. lia.
Qed.

Lemma entry_lookup distancias a b row d :
  distancias !! a = Some row -> row !! b = Some d -> entry distancias a b = d.
Proof.
  intros Hrow Hd. unfold entry.
  rewrite (nth_lookup_Some _ _ _ _ Hrow). now rewrite (nth_lookup_Some _ _ _ _ Hd).
Qed.

Lemma entry_nonneg distancias a b : nonneg distancias -> (0 <= entry distancias a b)%Z.
Proof.
  intros HM. unfold entry. destruct (distancias !! a) as [row|] eqn:Hrow.
  - rewrite (nth_lookup_Some _ _ _ _ Hrow).
    unfold nonneg in HM. rewrite Forall_lookup in HM. specialize (HM a row Hrow).
    destruct (row !! b) as [d|] eqn:Hd.
    + rewrite (nth_lookup_Some _ _ _ _ Hd). rewrite Forall_lookup in HM. eauto.
    + rewrite nth_lookup, Hd. reflexivity.
  - rewrite (nth_lookup distancias a []), Hrow. cbn. now destruct b.
Qed.

Lemma passo_custo_spec distancias T ixs : forall acc,
  defined_on distancias T -> Forall (fun i => i + 1 < length T) ixs ->
  fold_opt ixs (passo_custo distancias T) acc
  = Some (acc + foldr Z.add 0 (map (fun i => edge_cost distancias T i (i + 1)) ixs))%Z.
Proof.
  intros acc [_ Hd] Hixs. revert acc.
  induction Hixs as [|i ixs Hi _ IH]; intros acc; cbn [fold_opt map foldr].
  - f_equal. lia.
  - destruct (lookup_lt_is_Some_2 T i) as [a Ha]; [lia|].
    destruct (lookup_lt_is_Some_2 T (i + 1)) as [b Hb]; [lia|].
    destruct (Hd a b) as (row & d & Hrow & Hd'); [eapply list_elem_of_lookup_2; eassumption..|].
    unfold passo_custo at 1. rewrite Ha. cbn. rewrite Hrow. cbn. rewrite Hb. cbn.
    rewrite Hd'. cbn. rewrite IH. f_equal. unfold edge_cost at 2.
    rewrite (nth_lookup_Some _ _ _ _ Ha), (nth_lookup_Some _ _ _ _ Hb).
    rewrite (entry_lookup _ _ _ _ _ Hrow Hd'). lia.
Qed.

Lemma custo_de_spec distancias T :
  defined_on distancias T -> custo_de distancias T = Some (tour_cost_spec distancias T).
Proof.
  intros Hdef. pose proof Hdef as [Hne Hd]. unfold custo_de, tour_cost_spec.
  rewrite (passo_custo_spec _ _ _ _ Hdef).
  2:{ apply Forall_forall. intros i Hi%elem_of_range. lia. }
  cbn [mbind option_bind]. rewrite last_lookup.
  assert (0 < length T) by (destruct T; [contradiction|cbn; lia]).
  destruct (lookup_lt_is_Some_2 T (pred (length T))) as [a Ha]; [lia|].
  destruct (lookup_lt_is_Some_2 T 0) as [b Hb]; [lia|].
  destruct (Hd a b) as (row & d & Hrow & Hd'); [eapply list_elem_of_lookup_2; eassumption..|].
  rewrite Ha. cbn. rewrite Hrow. cbn. rewrite Hb. cbn. rewrite Hd'. cbn.
  replace (length T - 1) with (pred (length T)) by lia.
  assert (edge_cost distancias T (pred (length T)) 0 = d) as ->.
  { unfold edge_cost. rewrite (nth_lookup_Some _ _ _ _ Ha), (nth_lookup_Some _ _ _ _ Hb).
    apply (entry_lookup _ _ _ _ _ Hrow Hd'). }
  unfold range. rewrite Nat.sub_0_r. f_equal.
Qed.

Lemma tour_cost_spec_nonneg distancias T :
  nonneg distancias -> (0 <= tour_cost_spec distancias T)%Z.
Proof.
  intros HM. unfold tour_cost_spec.
  assert (forall ixs, 0 <= foldr Z.add 0
            (map (fun i => edge_cost distancias T i (i + 1)) ixs))%Z as Hsum.
  { induction ixs as [|i ixs IH]; cbn; [lia|].
    pose proof (entry_nonneg distancias (nth i T 0) (nth (i + 1) T 0) HM).
    unfold edge_cost at 1. lia. }
  specialize (Hsum (seq 0 (length T - 1))).
  pose proof (entry_nonneg distancias (nth (length T - 1) T 0) (nth 0 T 0) HM).
  cbn zeta. unfold edge_cost at 2. lia.
Qed.

(** ** Segment reversals *)

Lemma two_opt_reverse_segment v i j :
  1 <= i -> i < j -> two_opt v i j = reverse_segment v i (j - 1).
Proof.
  intros Hi Hj. rewrite two_opt_eq by lia. unfold reverse_segment.
  replace (S (j - 1)) with j by lia. reflexivity.
Qed.

Lemma pass_fix_optimal_inner distancias v c :
  custo_de distancias v = Some c ->
  pass_val distancias v c = Some (v, c, false) -> optimal_inner distancias v.
Proof.
  intros Hc Hp a b Ha Hb Hn.
  destruct (pass_val_false _ _ _ _ Hp eq_refl) as [_ Hall].
  destruct (Hall a (S b)) as (c' & Hc' & Hle); [unfold scanned; lia|].
  rewrite two_opt_reverse_segment in Hc' by lia. cbn in Hc'. rewrite Nat.sub_0_r in Hc'.
  now exists c, c'.
Qed.

(** ** How many passes are enough depends on the length only *)

Lemma length_bind_const {A B} (f : A -> list B) (k : nat) (l : list A) :
  (forall x, length (f x) = k) -> length (l ≫= f) = length l * k.
Proof.
  intros Hf. induction l as [|x l IH]; [reflexivity|].
  change ((x :: l) ≫= f) with (f x ++ (l ≫= f)). rewrite length_app, Hf, IH. cbn. lia.
Qed.

Lemma length_words alphabet n : length (words alphabet n) = length alphabet ^ n.
Proof.
  induction n as [|n IH]; [reflexivity|]. cbn [words Nat.pow].
  rewrite (length_bind_const _ (length alphabet)); [rewrite IH; lia|].
  intros w. apply length_fmap.
Qed.

Lemma fuel_for_length v : fuel_for v = S (length v ^ length v).
Proof. unfold fuel_for. now rewrite length_words. Qed.

Lemma fuel_for_perm v w : v ≡ₚ w -> fuel_for v = fuel_for w.
Proof. intros Hp. rewrite !fuel_for_length. now rewrite (Permutation_length Hp). Qed.

(** ** The local search on the store *)

Section LocalSearch.
Context {G : Type}.
Implicit Types (s : state G) (v w T : list nat) (r : loc).

(** On a tour whose cost is defined, with enough passes allowed,
    [busca_local] answers a reference to an arrangement of the tour that
    costs no more, keeps the first and the last city, and on which a further
    pass accepts no move; the objects of the store are as they were. *)
Lemma busca_local_spec distancias fuel r v s :
  heap s !! r = Some v -> defined_on distancias v -> fuel_for v <= fuel ->
  exists r' s' v' c c',
    busca_local fuel r distancias s = Ret r' s' /\ extends s s'
    /\ heap s' !! r' = Some v'
    /\ custo_de distancias v = Some c /\ custo_de distancias v' = Some c' /\ (c' <= c)%Z
    /\ v' ≡ₚ v /\ v' !! 0 = v !! 0 /\ last v' = last v
    /\ pass_val distancias v' c' = Some (v', c', false).
Proof.
  intros Hr Hd Hfuel.
  destruct (busca_local_val_returns distancias fuel v Hd Hfuel) as [v' Hv'].
  pose proof (busca_local_sim distancias fuel r v s Hr) as Hsim.
  rewrite Hv' in Hsim. destruct Hsim as (r' & s' & Hrun & Hext & Hr').
  destruct (busca_local_val_ok _ _ _ _ Hv') as (c & c' & Hc & Hc' & Hle & Hp & Hh & Hl & Hfix).
  exists r', s', v', c, c'. repeat (split; [assumption|]). assumption.
Qed.

(** Whenever [busca_local] answers, the objects of the store are as they
    were and the answer keeps the first and the last city. *)
Lemma busca_local_frame distancias fuel r v s r' s' :
  heap s !! r = Some v -> busca_local fuel r distancias s = Ret r' s' ->
  extends s s' /\ exists v', heap s' !! r' = Some v' /\ v' ≡ₚ v
                            /\ v' !! 0 = v !! 0 /\ last v' = last v.
Proof.
  intros Hr Hrun. pose proof (busca_local_sim distancias fuel r v s Hr) as Hsim.
  unfold sim_res in Hsim.
  destruct (busca_local_val fuel distancias v) as [v'| |] eqn:Hv'; [|congruence..].
  destruct Hsim as (r1 & s1 & Hrun1 & Hext & Hr1). rewrite Hrun in Hrun1.
  inversion Hrun1; subst r1 s1. split; [assumption|]. exists v'. split; [assumption|].
  destruct (busca_local_val_ok _ _ _ _ Hv') as (c & c' & _ & _ & _ & Hp & Hh & Hl & _).
  now repeat split.
Qed.

(** With enough passes allowed [busca_local] does not time out, whatever the
    tour and the matrix. *)
Lemma busca_local_halts distancias fuel r v s :
  heap s !! r = Some v -> fuel_for v <= fuel ->
  busca_local fuel r distancias s <> Timeout.
Proof.
  intros Hr Hfuel. pose proof (busca_local_sim distancias fuel r v s Hr) as Hsim.
  pose proof (busca_local_val_halts distancias fuel v Hfuel) as Hh.
  unfold sim_res in Hsim. destruct (busca_local_val fuel distancias v) as [v'| |].
  - destruct Hsim as (r' & s' & -> & _). discriminate.
  - rewrite Hsim. discriminate.
  - contradiction.
Qed.

End LocalSearch.

(** ** Perturbation on the store *)

Section Perturbation.
Context {G : Type}.
Variable sample2 : nat -> G -> (nat * nat) * G.
Implicit Types (s : state G) (T : list nat) (r : loc).

(** [perturbar] allocates one object: the tour with the items at the two
    sampled positions exchanged. *)
Lemma perturbar_spec r T s i j g a b :
  heap s !! r = Some T -> 2 <= length T ->
  sample2 (length T) (gen s) = ((i, j), g) ->
  T !! j = Some a -> T !! i = Some b ->
  perturbar sample2 r s
  = Ret (length (heap s)) (mkState (heap s ++ [<[j:=b]> (<[i:=a]> T)]) g).
Proof.
  intros Hr Hn Hs Ha Hb. destruct s as [h g0]. cbn in Hr, Hs.
  pose proof (lookup_lt_Some _ _ _ Ha) as Hj. pose proof (lookup_lt_Some _ _ _ Hb) as Hi.
  unfold perturbar. unfold bind at 1. unfold list_copy, bind at 1.
  rewrite (heap_get_eq r T) by assumption. cbn [heap_new heap gen].
  unfold bind at 1. unfold list_len, bind at 1.
  rewrite (heap_get_eq r T) by (now apply lookup_old). cbn [ret].
  unfold bind at 1. unfold random_sample2.
  destruct (length T <? 2) eqn:E; [apply Nat.ltb_lt in E; lia|]. cbn [gen heap].
  rewrite Hs.
  unfold bind at 1. unfold list_getitem at 1, bind at 1.
  rewrite (heap_get_eq (length h) T) by apply lookup_fresh. rewrite Ha. cbn [ret].
  unfold bind at 1. unfold list_getitem at 1, bind at 1.
  rewrite (heap_get_eq (length h) T) by apply lookup_fresh. rewrite Hb. cbn [ret].
  unfold bind at 1. unfold list_setitem at 1, bind at 1.
  rewrite (heap_get_eq (length h) T) by apply lookup_fresh.
  destruct (i <? length T) eqn:Ei; [|apply Nat.ltb_ge in Ei; lia].
  rewrite (heap_set_eq (length h) T) by apply lookup_fresh. cbn [heap gen].
  rewrite insert_fresh.
  unfold bind at 1. unfold list_setitem at 1, bind at 1.
  rewrite (heap_get_eq (length h) (<[i:=a]> T)) by apply lookup_fresh.
  rewrite length_insert.
  destruct (j <? length T) eqn:Ej; [|apply Nat.ltb_ge in Ej; lia].
  rewrite (heap_set_eq (length h) (<[i:=a]> T)) by apply lookup_fresh. cbn [heap gen].
  rewrite insert_fresh. reflexivity.
Qed.

End Perturbation.

(** The exchange of two positions, position by position. *)
Lemma swap_lookup (T : list nat) i j a b k :
  T !! j = Some a -> T !! i = Some b -> i <> j ->
  <[j:=b]> (<[i:=a]> T) !! k
  = if decide (k = i) then Some a else if decide (k = j) then Some b else T !! k.
Proof.
  intros Ha Hb Hne.
  pose proof (lookup_lt_Some _ _ _ Ha). pose proof (lookup_lt_Some _ _ _ Hb).
  destruct (decide (k = i)) as [->|Hki].
  - rewrite list_lookup_insert_ne by congruence. now apply list_lookup_insert_eq.
  - destruct (decide (k = j)) as [->|Hkj].
    + apply list_lookup_insert_eq. now rewrite length_insert.
    + now rewrite !list_lookup_insert_ne by congruence.
Qed.

(** ** Sorting the candidates *)

Lemma sort_insert_perm x l : sort_insert x l ≡ₚ x :: l.
Proof.
  induction l as [|y l IH]; cbn; [reflexivity|].
  destruct (snd y <? snd x)%Z; [|reflexivity].
  rewrite IH. apply Permutation_swap.
Qed.

Lemma sort_by_cost_perm l : sort_by_cost l ≡ₚ l.
Proof.
  induction l as [|x l IH]; cbn; [reflexivity|].
  fold (sort_by_cost l). now rewrite sort_insert_perm, IH.
Qed.

Lemma sort_insert_sorted x l :
  StronglySorted by_cost l -> StronglySorted by_cost (sort_insert x l).
Proof.
  induction 1 as [|y l Hl IH Hy]; cbn.
  - repeat constructor.
  - destruct (snd y <? snd x)%Z eqn:E.
    + apply Z.ltb_lt in E. constructor; [assumption|].
      rewrite Forall_forall. intros z Hz. rewrite sort_insert_perm in Hz.
      apply elem_of_cons in Hz as [->|Hz]; [unfold by_cost; lia|].
      rewrite Forall_forall in Hy. now apply Hy.
    + apply Z.ltb_ge in E. constructor; [now constructor|].
      constructor; [assumption|].
      rewrite Forall_forall in Hy |- *. intros z Hz. specialize (Hy z Hz).
      unfold by_cost in *. lia.
Qed.

Lemma sort_by_cost_sorted l : StronglySorted by_cost (sort_by_cost l).
Proof.
  induction l as [|x l IH]; cbn; [constructor|]. now apply sort_insert_sorted.
Qed.

(** The head of a sorted list is a cheapest item. *)
Lemma sorted_head_min x l y :
  StronglySorted by_cost (x :: l) -> y ∈ x :: l -> (snd x <= snd y)%Z.
Proof.
  intros Hs Hy. inversion Hs as [|? ? _ Hall]; subst.
  apply elem_of_cons in Hy as [->|Hy]; [lia|].
  rewrite Forall_forall in Hall. now apply Hall.
Qed.

(** ** The size of the restricted candidate list *)

Lemma py_int_floor q : (0 <= q)%Q -> py_int q = Qfloor q.
Proof.
  destruct q as [n d]. unfold Qle, py_int, Qfloor. cbn. intros Hn.
  apply Z.quot_div_nonneg; lia.
Qed.

Lemma limite_rcl_floor k alpha :
  (0 <= alpha)%Q -> limite_rcl k alpha = (Qfloor (inject_Z (Z.of_nat k) * alpha) + 1)%Z.
Proof.
  intros Ha. unfold limite_rcl. rewrite py_int_floor; [reflexivity|].
  apply Qmult_le_0_compat; [|assumption]. unfold Qle. cbn. lia.
Qed.


Lemma limite_rcl_0 k alpha : (alpha == 0)%Q -> limite_rcl k alpha = 1%Z.
Proof.
  intros H0. unfold limite_rcl, py_int. destruct alpha as [n d].
  unfold Qeq in H0. cbn in *. rewrite Pos.mul_1_l. assert (n = 0%Z) as -> by lia.
  now rewrite Z.mul_0_r.
Qed.

Lemma limite_rcl_1 k alpha : (alpha == 1)%Q -> limite_rcl k alpha = (Z.of_nat k + 1)%Z.
Proof.
  intros H1. unfold limite_rcl, py_int. destruct alpha as [n d].
  unfold Qeq in H1. cbn in *. rewrite Pos.mul_1_l. assert (n = Z.pos d) as -> by lia.
  rewrite Z.quot_mul by lia. reflexivity.
Qed.

(** ** Removing a city *)

Lemma remove_first_perm x v : x ∈ v -> exists w, remove_first x v = Some w /\ v ≡ₚ x :: w.
Proof.
  induction v as [|y v IH]; intros Hx; [now apply elem_of_nil in Hx|]. cbn.
  destruct (Nat.eqb x y) eqn:E.
  - apply Nat.eqb_eq in E. subst y. now exists v.
  - apply Nat.eqb_neq in E. apply elem_of_cons in Hx as [->|Hx]; [contradiction|].
    destruct (IH Hx) as (w & -> & Hp). exists (y :: w). split; [reflexivity|].
    rewrite Hp. apply Permutation_swap.
Qed.

(** ** One step of the construction *)

Lemma candidatos_perm distancias cur nv : map fst (candidatos distancias cur nv) ≡ₚ nv.
Proof.
  unfold candidatos. rewrite sort_by_cost_perm. rewrite map_map. cbn. now rewrite map_id.
Qed.

Lemma candidatos_length distancias cur nv : length (candidatos distancias cur nv) = length nv.
Proof.
  rewrite <- (Permutation_length (candidatos_perm distancias cur nv)). now rewrite length_map.
Qed.

Lemma candidatos_sorted distancias cur nv : StronglySorted by_cost (candidatos distancias cur nv).
Proof. apply sort_by_cost_sorted. Qed.

Lemma candidatos_cost distancias cur nv c d :
  (c, d) ∈ candidatos distancias cur nv -> c ∈ nv /\ d = entry distancias cur c.
Proof.
  unfold candidatos. rewrite sort_by_cost_perm. rewrite list_elem_of_In, in_map_iff.
  intros (c' & [= <- <-] & Hc). split; [now apply list_elem_of_In|reflexivity].
Qed.




Lemma slice_prefix_take {A} (l : list A) (k : Z) : exists m, slice_prefix l k = take m l.
Proof. unfold slice_prefix. destruct (k <? 0)%Z; eauto. Qed.

Section Construction.
Context {G : Type}.
Variable randbelow : nat -> G -> nat * G.
Implicit Types (s : state G) (v nv sol : list nat) (h : list (list nat)).

(** What [random.choice] returns: the item at the position drawn. *)
Lemma random_choice_spec {A} (l : list A) s k g x :
  randbelow (length l) (gen s) = (k, g) -> l !! k = Some x ->
  random_choice randbelow l s = Ret x (mkState (heap s) g).
Proof.
  intros Hk Hx. unfold random_choice. destruct l as [|y l]; [discriminate|].
  rewrite Hk, Hx. reflexivity.
Qed.

Lemma list_comp_custos distancias cur nv s :
  (forall c, c ∈ nv -> exists row d, distancias !! cur = Some row /\ row !! c = Some d) ->
  list_comp (fun cidade =>
               let* row := matrix_row distancias cur in
               let* d := row_item row cidade in
               ret (cidade, d)) nv s
  = Ret (map (fun cidade => (cidade, entry distancias cur cidade)) nv) s.
Proof.
  induction nv as [|c nv IH]; intros Hd; [reflexivity|].
  cbn [list_comp map].
  destruct (Hd c) as (row & d & Hrow & Hd'); [apply list_elem_of_here|].
  erewrite bind_ret_eq.
  2:{ unfold bind, matrix_row, row_item. rewrite Hrow. cbn [ret]. rewrite Hd'. reflexivity. }
  erewrite bind_ret_eq.
  2:{ apply IH. intros c' Hc'. apply Hd. now apply list_elem_of_further. }
  cbn [ret]. now rewrite (entry_lookup _ _ _ _ _ Hrow Hd').
Qed.

Lemma lookup_pair_l h (a b : list nat) : (h ++ [a; b]) !! length h = Some a.
Proof. rewrite lookup_app_r by lia. now rewrite Nat.sub_diag. Qed.

Lemma lookup_pair_r h (a b : list nat) : (h ++ [a; b]) !! S (length h) = Some b.
Proof. rewrite lookup_app_r by lia. now replace (S (length h) - length h) with 1 by lia. Qed.

Lemma insert_pair_l h (a b a' : list nat) : <[length h := a']> (h ++ [a; b]) = h ++ [a'; b].
Proof. rewrite insert_app_r_alt by lia. now rewrite Nat.sub_diag. Qed.

Lemma insert_pair_r h (a b b' : list nat) : <[S (length h) := b']> (h ++ [a; b]) = h ++ [a; b'].
Proof.
  rewrite insert_app_r_alt by lia. now replace (S (length h) - length h) with 1 by lia.
Qed.

(** Up to the choice, a step reads the unvisited cities, sorts the
    candidates and converts the product; an [alpha] whose product does not
    convert stops the step there. *)
Lemma construir_passo_num distancias (alpha : number) h sol nv cur g0 z :
  lookups_ok distancias cur nv ->
  int_times (length nv) alpha = inr z ->
  construir_passo randbelow distancias alpha (length h) (S (length h)) cur
    (mkState (h ++ [sol; nv]) g0)
  = (let* c := random_choice randbelow
                 (slice_prefix (candidatos distancias cur nv) (z + 1)) in
     let* _ := list_append (length h) c.1 in
     let* _ := list_remove (S (length h)) c.1 in
     ret c.1) (mkState (h ++ [sol; nv]) g0).
Proof.
  intros Hd Hz. unfold construir_passo. unfold bind at 1.
  rewrite (heap_get_eq (S (length h)) nv) by apply lookup_pair_r.
  unfold bind at 1. unfold custos_ordenados, bind at 1.
  rewrite list_comp_custos by assumption. cbn [ret].
  fold (candidatos distancias cur nv). rewrite candidatos_length.
  unfold bind at 1. rewrite Hz. reflexivity.
Qed.

Lemma construir_passo_num_error distancias (alpha : number) h sol nv cur g0 e :
  lookups_ok distancias cur nv ->
  int_times (length nv) alpha = inl e ->
  construir_passo randbelow distancias alpha (length h) (S (length h)) cur
    (mkState (h ++ [sol; nv]) g0)
  = Raise e.
Proof.
  intros Hd He. unfold construir_passo. unfold bind at 1.
  rewrite (heap_get_eq (S (length h)) nv) by apply lookup_pair_r.
  unfold bind at 1. unfold custos_ordenados, bind at 1.
  rewrite list_comp_custos by assumption. cbn [ret].
  fold (candidatos distancias cur nv). rewrite candidatos_length.
  unfold bind at 1. rewrite He. reflexivity.
Qed.

(** A step whose restricted candidate list is empty raises [IndexError]. *)
Lemma construir_passo_num_empty distancias (alpha : number) h sol nv cur g0 z :
  lookups_ok distancias cur nv ->
  int_times (length nv) alpha = inr z ->
  slice_prefix (candidatos distancias cur nv) (z + 1) = [] ->
  construir_passo randbelow distancias alpha (length h) (S (length h)) cur
    (mkState (h ++ [sol; nv]) g0)
  = Raise IndexError.
Proof.
  intros Hd Hz Hnil. rewrite (construir_passo_num _ _ _ _ _ _ _ _ Hd Hz).
  rewrite Hnil. reflexivity.
Qed.

(** A step appends to [solucao] the candidate at the position drawn in the
    restricted candidate list and removes it from [nao_visitados]. *)
Lemma construir_passo_num_step distancias (alpha : number) h sol nv cur g0 z k g c d :
  lookups_ok distancias cur nv ->
  int_times (length nv) alpha = inr z ->
  randbelow (length (slice_prefix (candidatos distancias cur nv) (z + 1))) g0 = (k, g) ->
  slice_prefix (candidatos distancias cur nv) (z + 1) !! k = Some (c, d) ->
  exists nv', remove_first c nv = Some nv' /\ nv ≡ₚ c :: nv' /\
    construir_passo randbelow distancias alpha (length h) (S (length h)) cur
      (mkState (h ++ [sol; nv]) g0)
    = Ret c (mkState (h ++ [sol ++ [c]; nv']) g).
Proof.
  intros Hd Hz Hk Hc.
  assert (Hin : c ∈ nv).
  { apply (candidatos_cost distancias cur nv c d).
    destruct (slice_prefix_take (candidatos distancias cur nv) (z + 1)) as [m Hm].
    rewrite Hm in Hc. apply lookup_take_Some in Hc as [Hc _].
    eapply list_elem_of_lookup_2; eassumption. }
  destruct (remove_first_perm c nv Hin) as (nv' & Hrem & Hperm).
  exists nv'. split; [assumption|]. split; [assumption|].
  rewrite (construir_passo_num _ _ _ _ _ _ _ _ Hd Hz).
  unfold bind at 1.
  rewrite (random_choice_spec _ _ k g (c, d)) by assumption. cbn [fst heap].
  unfold bind at 1. unfold list_append, bind at 1.
  rewrite (heap_get_eq (length h) sol) by apply lookup_pair_l.
  rewrite (heap_set_eq (length h) sol) by apply lookup_pair_l. cbn [heap gen].
  rewrite insert_pair_l.
  unfold bind at 1. unfold list_remove, bind at 1.
  rewrite (heap_get_eq (S (length h)) nv) by apply lookup_pair_r. rewrite Hrem.
  rewrite (heap_set_eq (S (length h)) nv) by apply lookup_pair_r. cbn [heap gen].
  rewrite insert_pair_r. reflexivity.
Qed.




End Construction.

(** ** The iterations of [grasp] *)







Section Iterations.
Context {G : Type}.
Variable randbelow : nat -> G -> nat * G.
Variable sample2 : nat -> G -> (nat * nat) * G.
Implicit Types (s : state G) (T : list nat) (st : option loc * num).








Section Valid.
Variables (distancias : list (list Z)) (alpha : Q) (n fuel : nat).
Hypothesis Hrand : randbelow_ok randbelow.
Hypothesis Hsample : sample2_ok sample2.
Hypothesis Hn : 2 <= n.
Hypothesis HM : square n distancias.
Hypothesis H0 : (0 <= alpha)%Q.
Hypothesis H1 : (alpha <= 1)%Q.
Hypothesis Hfuel : S (n ^ n) <= fuel.





End Valid.
End Iterations.

(** ** What a segment reversal leaves in place *)

Lemma two_opt_lookup_outside v i j k :
  1 <= i -> i <= j -> j <= length v -> k < i \/ j <= k ->
  two_opt v i j !! k = v !! k.
Proof.
  intros Hi Hj Hn Hk. rewrite two_opt_eq by assumption.
  rewrite (split3 v i j) at 4 by assumption.
  assert (length (take i v) = i) by (rewrite length_take; lia).
  assert (length (take (j - i) (drop i v)) = j - i)
    by (rewrite length_take, length_drop; lia).
  destruct Hk as [Hk|Hk].
  - now rewrite !lookup_app_l by lia.
  - rewrite !(lookup_app_r (take i v)) by lia.
    rewrite !lookup_app_r by (rewrite ?length_rev; lia).
    now rewrite length_rev.
Qed.

(** ** A second bound on the passes: the cost of the input *)

Lemma busca_val_halts_nonneg distancias fuel : forall v c,
  defined_on distancias v -> nonneg distancias ->
  custo_de distancias v = Some c -> Z.to_nat c < fuel ->
  busca_val fuel distancias v c <> Out.
Proof.
  induction fuel as [|fuel IH]; intros v c Hd HM Hc Hfuel; [lia|].
  cbn. destruct (pass_val distancias v c) as [[[v1 c1] b1]|] eqn:Hp; [|discriminate].
  pose proof (pass_val_reach _ _ _ _ Hc Hp) as (Hperm1 & Hc1 & _ & _ & Hb).
  destruct b1; [|discriminate].
  assert (Hd1 : defined_on distancias v1)
    by (eapply defined_on_perm; [symmetry|]; eassumption).
  apply IH; [assumption..|].
  pose proof (tour_cost_spec_nonneg distancias v1 HM) as Hpos.
  rewrite (custo_de_spec _ _ Hd1) in Hc1. inversion Hc1; subst c1. lia.
Qed.

Section LocalSearchMoves.
Context {G : Type}.
Implicit Types (s : state G).

(** The body of the loop on [j] keeps the loop variables or accepts a
    strictly cheaper candidate. *)
Lemma busca_local_j_cases distancias i j st s st' s' :
  busca_local_j distancias i j st s = Ret st' s' ->
  st' = st \/ ((st'.1.2 < st.1.2)%Z /\ st'.2 = true).
Proof.
  destruct st as [[m c] b]. unfold busca_local_j.
  destruct (j - i =? 1); [intros [= <- <-]; now left|]. intros H.
  apply bind_inv in H as (nova & s1 & _ & H). apply bind_inv in H as (w & s2 & _ & H).
  apply bind_inv in H as (u & s3 & _ & H). apply bind_inv in H as (c' & s4 & _ & H).
  destruct (c' <? c)%Z eqn:E; inversion H; subst; [right|now left].
  apply Z.ltb_lt in E. now split.
Qed.

(** Whenever [busca_local] answers, a further pass on the answer accepts no
    move. *)
Lemma busca_local_exit distancias fuel r v s r' s' :
  heap s !! r = Some v -> busca_local fuel r distancias s = Ret r' s' ->
  exists v' c', heap s' !! r' = Some v' /\ custo_de distancias v' = Some c'
                /\ pass_val distancias v' c' = Some (v', c', false).
Proof.
  intros Hr Hrun. pose proof (busca_local_sim distancias fuel r v s Hr) as Hsim.
  unfold sim_res in Hsim.
  destruct (busca_local_val fuel distancias v) as [v'| |] eqn:Hv'; [|congruence..].
  destruct Hsim as (r1 & s1 & Hrun1 & Hext & Hr1). rewrite Hrun in Hrun1.
  inversion Hrun1; subst r1 s1.
  destruct (busca_local_val_ok _ _ _ _ Hv') as (c & c' & _ & Hc' & _ & _ & _ & _ & Hfix).
  now exists v', c'.
Qed.

End LocalSearchMoves.

(** ** The concrete generator keeps the promises of the library *)

Lemma Lcg_randbelow_ok : randbelow_ok Lcg.randbelow.
Proof. intros n g Hn. unfold Lcg.randbelow. cbn [fst]. apply Nat.mod_upper_bound. lia. Qed.

Lemma Lcg_sample2_ok : sample2_ok Lcg.sample2.
Proof.
  intros n g Hn. unfold Lcg.sample2. cbn [fst snd].
  assert (Ha : g mod n < n) by (apply Nat.mod_upper_bound; lia).
  assert (Hd : g mod (n - 1) < n - 1) by (apply Nat.mod_upper_bound; lia).
  split; [assumption|]. split; [apply Nat.mod_upper_bound; lia|].
  destruct (Nat.lt_ge_cases (g mod n + 1 + g mod (n - 1)) n) as [Hlt|Hge].
  - rewrite (Nat.mod_small (g mod n + 1 + g mod (n - 1)) n) by assumption. lia.
  - replace (g mod n + 1 + g mod (n - 1))
      with ((g mod n + 1 + g mod (n - 1) - n) + 1 * n) by lia.
    rewrite Nat.Div0.mod_add.
    rewrite (Nat.mod_small (g mod n + 1 + g mod (n - 1) - n) n) by lia. lia.
Qed.

(** ** The construction for any exact [alpha] *)

Lemma limite_rcl_ge_1 k alpha : (0 <= alpha)%Q -> (1 <= limite_rcl k alpha)%Z.
Proof.
  intros H0. unfold limite_rcl, py_int. destruct alpha as [n d].
  unfold Qle in H0. cbn in *. rewrite Pos.mul_1_l.
  rewrite Z.quot_div_nonneg by nia.
  assert (0 <= Z.of_nat k * n / Z.pos d)%Z by (apply Z.div_pos; nia). lia.
Qed.


Lemma limite_rcl_le_neg k alpha :
  (alpha <= -1)%Q -> (limite_rcl k alpha <= 1 - Z.of_nat k)%Z.
Proof.
  intros H1. unfold limite_rcl, py_int. destruct alpha as [n d].
  unfold Qle in H1. cbn in *. rewrite Pos.mul_1_l.
  assert (Z.of_nat k * n ÷ Z.pos d <= - Z.of_nat k)%Z; [|lia].
  replace (Z.of_nat k * n)%Z with (- (Z.of_nat k * - n))%Z by lia.
  rewrite Z.quot_opp_l by lia. rewrite Z.quot_div_nonneg by nia.
  assert (Z.of_nat k <= Z.of_nat k * - n / Z.pos d)%Z; [|lia].
  apply Z.div_le_lower_bound; nia.
Qed.



Section ConstructionAnyAlpha.
Context {G : Type}.
Variable randbelow : nat -> G -> nat * G.
Implicit Types (s : state G) (v nv sol : list nat) (h : list (list nat)).

Lemma lookups_ok_square distancias n cur nv :
  square n distancias -> cur < n -> (forall c, c ∈ nv -> c < n) ->
  lookups_ok distancias cur nv.
Proof.
  intros [Hlen Hrows] Hcur Hsub c Hc.
  destruct (lookup_lt_is_Some_2 distancias cur) as [row Hrow]; [lia|].
  rewrite Forall_lookup in Hrows. specialize (Hrows cur row Hrow).
  destruct (lookup_lt_is_Some_2 row c) as [d Hd]; [rewrite Hrows; now apply Hsub|].
  now exists row, d.
Qed.


(** Up to its loop, [construir_solucao] allocates the two lists, draws the
    first city and moves it from one to the other. *)
Lemma construir_solucao_prelude distancias alpha n fuel h g0 :
  randbelow_ok randbelow -> 1 <= n -> length distancias = n ->
  exists k g nv,
    randbelow n g0 = (k, g) /\ k < n /\ seq 0 n ≡ₚ k :: nv
    /\ construir_solucao randbelow fuel distancias alpha (mkState h g0)
       = (let* _ :=
            while_loop fuel
              (fun _ => let* k := list_len (S (length h)) in ret (negb (k =? 0)))
              (construir_passo randbelow distancias alpha (length h) (S (length h))) k
          in ret (length h)) (mkState (h ++ [[k]; nv]) g).
Proof.
  intros Hrand Hn Hlen. unfold construir_solucao. rewrite Hlen.
  destruct (randbelow n g0) as [k g] eqn:Hk.
  assert (Hlt : k < n).
  { pose proof (Hrand n g0 ltac:(lia)) as Hr. now rewrite Hk in Hr. }
  assert (Hx : range 0 n !! k = Some k).
  { unfold range. rewrite Nat.sub_0_r. now apply lookup_seq_lt. }
  destruct (remove_first_perm k (range 0 n)) as (nv & Hrem & Hp).
  { eapply list_elem_of_lookup_2; eassumption. }
  exists k, g, nv. split; [reflexivity|]. split; [assumption|].
  split; [rewrite <- Hp; unfold range; now rewrite Nat.sub_0_r|].
  erewrite bind_ret_eq; [|reflexivity]. cbn [heap gen].
  erewrite bind_ret_eq; [|reflexivity]. cbn [heap gen].
  rewrite <- app_assoc. cbn [app]. rewrite length_app. cbn [length].
  replace (length h + 1) with (S (length h)) by lia.
  erewrite bind_ret_eq; [|apply heap_get_eq, lookup_pair_r].
  erewrite bind_ret_eq.
  2:{ apply random_choice_spec with (k := k); [|exact Hx]. cbn [gen].
      unfold range. rewrite length_seq, Nat.sub_0_r. exact Hk. }
  cbn [heap].
  erewrite bind_ret_eq.
  2:{ unfold list_append. erewrite bind_ret_eq; [|apply heap_get_eq, lookup_pair_l].
      apply heap_set_eq with (v := []), lookup_pair_l. }
  cbn [heap gen]. rewrite insert_pair_l. cbn [app].
  erewrite bind_ret_eq.
  2:{ unfold list_remove. erewrite bind_ret_eq; [|apply heap_get_eq, lookup_pair_r].
      rewrite Hrem. apply heap_set_eq with (v := range 0 n), lookup_pair_r. }
  cbn [heap gen]. rewrite insert_pair_r. reflexivity.
Qed.

Lemma construir_cond h sol nv g0 :
  (let* k := list_len (S (length h)) in ret (negb (k =? 0)))
    (mkState (h ++ [sol; nv]) g0)
  = Ret (negb (length nv =? 0)) (mkState (h ++ [sol; nv]) g0 : state G).
Proof. erewrite bind_ret_eq; [|apply list_len_eq, lookup_pair_r]. reflexivity. Qed.


End ConstructionAnyAlpha.



(** ** Products with a float *)

(** The float constants are the floats nearest to the numbers they are
    named after. *)
Lemma float_constants :
  float_03 = float_ratio 3 10 /\ float_058 = float_ratio 58 100
  /\ float_one = float_ratio 1 1 /\ float_3 = float_ratio 3 1
  /\ float_m1 = float_ratio (-1) 1 /\ float_1e308 = float_ratio (10 ^ 308) 1.
Proof. repeat split; vm_compute; reflexivity. Qed.

Lemma digits2_size p : digits2_pos p = Pos.size p.
Proof. induction p; cbn; congruence. Qed.

Lemma digits2_iter_xO p n : digits2_pos (Pos.iter xO p n) = (digits2_pos p + n)%positive.
Proof.
  induction n as [|n IH] using Pos.peano_ind.
  - cbn. lia.
  - rewrite Pos.iter_succ. cbn. rewrite IH. lia.
Qed.

Lemma pos_iter_xO p n : Z.pos (Pos.iter xO p n) = (Z.pos p * 2 ^ Z.pos n)%Z.
Proof.
  induction n as [|n IH] using Pos.peano_ind.
  - cbn. lia.
  - rewrite Pos.iter_succ. rewrite Pos2Z.inj_xO, IH.
    rewrite Pos2Z.inj_succ, Z.pow_succ_r by lia. lia.
Qed.

Lemma digits2_bound p k : (Z.pos p < 2 ^ Z.pos k)%Z -> (digits2_pos p <= k)%positive.
Proof.
  intros H. rewrite digits2_size.
  pose proof (Pos.size_le p) as Hs.
  destruct (Pos.leb_spec (Pos.size p) k) as [|Hlt]; [assumption|exfalso].
  assert (2 ^ Z.pos (Pos.size p) <= 2 * Z.pos p)%Z.
  { change (2 * Z.pos p)%Z with (Z.pos p~0). rewrite <- (Pos2Z.inj_pow 2). lia. }
  assert (2 ^ (Z.pos k + 1) <= 2 ^ Z.pos (Pos.size p))%Z by (apply Z.pow_le_mono_r; lia).
  rewrite Z.pow_add_r in * by lia. lia.
Qed.

(** A mantissa of 53 bits that carries no rounding stays as it is. *)
Lemma binary_round_aux_exact m e :
  digits2_pos m = 53%positive -> (-1074 <= e <= 971)%Z ->
  binary_round_aux prec64 emax64 false (Z.pos m) e loc_Exact = S754_finite false m e.
Proof.
  intros Hd He. unfold binary_round_aux, shr_fexp. cbn [Zdigits2 shr_record_of_loc].
  rewrite Hd.
  assert (Hf : (fexp prec64 emax64 (53 + e) - e = 0)%Z)
    by (unfold fexp, emin, prec64, emax64; lia).
  rewrite Hf. cbn [shr shr_m loc_of_shr_record round_nearest_even shr_record_of_loc Zdigits2].
  rewrite Hd, Hf. cbn [shr shr_m].
  assert ((e <=? emax64 - prec64)%Z = true) as -> by (unfold emax64, prec64; lia).
  reflexivity.
Qed.

(** An integer below [2^53] converts exactly. *)
Lemma float_of_int_exact k :
  (0 < k < 2 ^ 53)%Z ->
  exists m e, float_of_int k = inr (S754_finite false m e)
              /\ digits2_pos m = 53%positive /\ (-52 <= e <= 0)%Z
              /\ exists n, (e = - n /\ 0 <= n /\ Z.pos m = k * 2 ^ n)%Z.
Proof.
  intros Hk. destruct k as [|k|k]; [lia| |lia].
  assert (Hd : (digits2_pos k <= 53)%positive) by (apply digits2_bound; lia).
  unfold float_of_int. cbn [binary_normalize]. unfold binary_round.
  assert (Hf : fexp prec64 emax64 (Z.pos (digits2_pos k) + 0) = (Z.pos (digits2_pos k) - 53)%Z)
    by (unfold fexp, emin, prec64, emax64; lia).
  rewrite Hf. unfold shl_align. rewrite Z.sub_0_r.
  destruct (Z.pos (digits2_pos k) - 53)%Z as [|q|q] eqn:Eq; [|lia|].
  - rewrite binary_round_aux_exact by lia.
    exists k, 0%Z. split; [reflexivity|]. split; [lia|]. split; [lia|].
    exists 0%Z. cbn. lia.
  - rewrite binary_round_aux_exact.
    + exists (Pos.iter xO k q), (Z.neg q). split; [reflexivity|].
      split; [rewrite digits2_iter_xO; lia|]. split; [lia|].
      exists (Z.pos q). split; [reflexivity|]. split; [lia|apply pos_iter_xO].
    + rewrite digits2_iter_xO. lia.
    + lia.
Qed.

(** ** Rounding keeps the sign and, for small exponents, stays finite *)

Lemma Zdigits2_log2 m : (0 < m)%Z -> Zdigits2 m = (Z.log2 m + 1)%Z.
Proof.
  destruct m as [|p|p]; [lia| |lia]. intros _. cbn [Zdigits2].
  destruct p; cbn [digits2_pos Z.log2]; rewrite ?digits2_size; lia.
Qed.

Lemma Zdigits2_nonneg m : (0 <= Zdigits2 m)%Z.
Proof. destruct m; cbn; lia. Qed.

Lemma Zdigits2_mono a b : (0 <= a <= b)%Z -> (Zdigits2 a <= Zdigits2 b)%Z.
Proof.
  intros H. destruct (Z.eq_dec a 0%Z) as [->|Ha]; [apply Zdigits2_nonneg|].
  rewrite !Zdigits2_log2 by lia. pose proof (Z.log2_le_mono a b ltac:(lia)).
  lia.
Qed.

Lemma Zdigits2_succ a : (0 <= a)%Z -> (Zdigits2 (a + 1) <= Zdigits2 a + 1)%Z.
Proof.
  intros H. destruct (Z.eq_dec a 0%Z) as [->|Ha]; [discriminate|].
  replace (a + 1)%Z with (Z.succ a) by lia.
  rewrite !Zdigits2_log2 by lia. pose proof (Z.log2_succ_le a). lia.
Qed.

Lemma Zdigits2_mul a b :
  (0 < a)%Z -> (0 < b)%Z -> (Zdigits2 (a * b) <= Zdigits2 a + Zdigits2 b)%Z.
Proof.
  intros Ha Hb. rewrite !Zdigits2_log2 by lia.
  pose proof (Z.log2_mul_above a b ltac:(lia) ltac:(lia)). lia.
Qed.

Lemma shr_1_bounds mrs : (0 <= shr_m mrs)%Z -> (0 <= shr_m (shr_1 mrs) <= shr_m mrs)%Z.
Proof. destruct mrs as [[|[p|p|]|p] r s]; cbn; lia. Qed.

Lemma iter_pos_shr_1_bounds n : forall mrs,
  (0 <= shr_m mrs)%Z -> (0 <= shr_m (SpecFloat.iter_pos shr_1 n mrs) <= shr_m mrs)%Z.
Proof.
  induction n as [n IH|n IH|]; intros mrs H; cbn [SpecFloat.iter_pos].
  - pose proof (shr_1_bounds mrs H). pose proof (IH (shr_1 mrs) ltac:(lia)).
    pose proof (IH (SpecFloat.iter_pos shr_1 n (shr_1 mrs)) ltac:(lia)). lia.
  - pose proof (IH mrs H). pose proof (IH (SpecFloat.iter_pos shr_1 n mrs) ltac:(lia)). lia.
  - now apply shr_1_bounds.
Qed.

Lemma shr_fexp_bounds m e l mrs e' :
  (0 <= m)%Z -> shr_fexp prec64 emax64 m e l = (mrs, e') ->
  (0 <= shr_m mrs <= m)%Z
  /\ (e' <= Z.max e (fexp prec64 emax64 (Zdigits2 m + e)))%Z.
Proof.
  intros Hm. unfold shr_fexp, shr.
  assert (Hr : shr_m (shr_record_of_loc m l) = m) by (destruct l as [|[]]; reflexivity).
  destruct (fexp prec64 emax64 (Zdigits2 m + e) - e)%Z as [|p|p] eqn:E; intros [= <- <-].
  - rewrite Hr. lia.
  - pose proof (iter_pos_shr_1_bounds p (shr_record_of_loc m l)) as Hb.
    rewrite Hr in Hb. specialize (Hb Hm). lia.
  - rewrite Hr. lia.
Qed.

Lemma round_nearest_even_bounds m l :
  (m <= round_nearest_even m l <= m + 1)%Z.
Proof. destruct l as [|[]]; cbn; try lia. destruct (Z.even m); lia. Qed.

(** The rounded product of two non-negative numbers with at most 106 bits
    and an exponent of at most -52 is zero or a positive finite float. *)
Lemma binary_round_aux_finite m e l :
  (0 <= m)%Z -> (Zdigits2 m <= 106)%Z -> (e <= -52)%Z ->
  binary_round_aux prec64 emax64 false m e l = S754_zero false
  \/ exists m' e', binary_round_aux prec64 emax64 false m e l = S754_finite false m' e'.
Proof.
  intros Hm Hd He. unfold binary_round_aux.
  destruct (shr_fexp prec64 emax64 m e l) as [mrs1 e1] eqn:E1.
  destruct (shr_fexp_bounds m e l mrs1 e1 Hm E1) as [Hb1 He1].
  pose proof (round_nearest_even_bounds (shr_m mrs1) (loc_of_shr_record mrs1)) as Hr.
  set (m1 := round_nearest_even (shr_m mrs1) (loc_of_shr_record mrs1)) in *.
  destruct (shr_fexp prec64 emax64 m1 e1 loc_Exact) as [mrs2 e2] eqn:E2.
  destruct (shr_fexp_bounds m1 e1 loc_Exact mrs2 e2 ltac:(lia) E2) as [Hb2 He2].
  assert (Hd1 : (Zdigits2 m1 <= 107)%Z).
  { pose proof (Zdigits2_mono m1 (m + 1) ltac:(lia)).
    pose proof (Zdigits2_succ m Hm). lia. }
  assert (He2' : (e2 <= 971)%Z).
  { unfold fexp, emin, prec64, emax64 in *. lia. }
  destruct (shr_m mrs2) as [|p|p] eqn:Ep; [now left| |lia].
  right. exists p, e2.
  assert ((e2 <=? emax64 - prec64)%Z = true) as -> by (unfold emax64, prec64; lia).
  reflexivity.
Qed.

Lemma unit_float_cases f :
  unit_float f ->
  (exists s, f = S754_zero s)
  \/ exists m e, f = S754_finite false m e
                 /\ (Z.pos (digits2_pos m) <= 53)%Z /\ (e <= -52)%Z.
Proof.
  intros (Hv & H0 & H1). destruct f as [s|s| |s m e].
  - left. now exists s.
  - destruct s; discriminate.
  - discriminate.
  - right. destruct s; [discriminate|]. exists m, e. split; [reflexivity|].
    cbn in Hv. apply andb_prop in Hv as [Hc _]. unfold canonical_mantissa in Hc.
    apply Z.eqb_eq in Hc. unfold fexp, emin, prec64, emax64 in Hc.
    split; [lia|].
    unfold SFleb, SFcompare, float_one in H1.
    destruct (e ?= -52)%Z eqn:Ee; [apply Z.compare_eq in Ee; lia| |discriminate].
    rewrite Z.compare_lt_iff in Ee. lia.
Qed.

(** With [alpha] a float in [[0, 1]] and fewer than [2^53] candidates, the
    product converts to a non-negative integer. *)
Lemma int_times_unit_float k f :
  unit_float f -> (Z.of_nat k < 2 ^ 53)%Z ->
  exists z, int_times k (Float f) = inr z /\ (0 <= z)%Z.
Proof.
  intros Hf Hk. unfold int_times.
  destruct (Z.eq_dec (Z.of_nat k) 0%Z) as [E0|E0].
  { rewrite E0. cbn [float_of_int binary_normalize and_then].
    destruct (unit_float_cases f Hf) as [[s ->]|(m & e & -> & _)];
      exists 0%Z; split; reflexivity || lia. }
  destruct (float_of_int_exact (Z.of_nat k) ltac:(lia))
    as (mx & ex & -> & Hdx & Hex & _).
  cbn [and_then].
  destruct (unit_float_cases f Hf) as [[s ->]|(m & e & -> & Hd & He)].
  { exists 0%Z. split; [reflexivity|lia]. }
  cbn [SFmul xorb].
  destruct (binary_round_aux_finite (Z.pos (mx * m)) (ex + e) loc_Exact)
    as [->|(m' & e' & ->)].
  - lia.
  - rewrite Pos2Z.inj_mul.
    pose proof (Zdigits2_mul (Z.pos mx) (Z.pos m) ltac:(lia) ltac:(lia)) as Hm.
    cbn [Zdigits2] in Hm. rewrite Hdx in Hm. lia.
  - lia.
  - exists 0%Z. split; [reflexivity|lia].
  - exists (Z.shiftl (Z.pos m') e'). split; [reflexivity|].
    apply Z.shiftl_nonneg. lia.
Qed.

Lemma int_times_float_zero k s :
  (Z.of_nat k < 2 ^ 53)%Z -> int_times k (Float (S754_zero s)) = inr 0%Z.
Proof.
  intros Hk. unfold int_times.
  destruct (Z.eq_dec (Z.of_nat k) 0%Z) as [E0|E0]; [now rewrite E0|].
  destruct (float_of_int_exact (Z.of_nat k) ltac:(lia)) as (mx & ex & -> & _).
  reflexivity.
Qed.

(** Multiplying by [1.0] changes nothing. *)
Lemma SFmul_one m e :
  digits2_pos m = 53%positive -> (-52 <= e <= 0)%Z ->
  SFmul prec64 emax64 (S754_finite false m e) float_one = S754_finite false m e.
Proof.
  intros Hd He. unfold float_one. cbn [SFmul xorb].
  rewrite Pos.mul_comm.
  change (4503599627370496 * m)%positive with (Pos.iter xO m 52).
  unfold binary_round_aux, shr_fexp. cbn [Zdigits2 shr_record_of_loc].
  rewrite digits2_iter_xO, Hd.
  assert (Hf : (fexp prec64 emax64 (Z.pos (53 + 52) + (e + -52)) - (e + -52) = 52)%Z)
    by (unfold fexp, emin, prec64, emax64; lia).
  rewrite Hf. cbv [Pos.iter]. cbn [shr SpecFloat.iter_pos shr_1 orb].
  cbn [shr_m loc_of_shr_record round_nearest_even shr_record_of_loc Zdigits2].
  rewrite Hd.
  assert (Hf' : (fexp prec64 emax64 (53 + (e + -52 + 52)) - (e + -52 + 52) = 0)%Z)
    by (unfold fexp, emin, prec64, emax64; lia).
  rewrite Hf'. cbn [shr shr_m].
  assert ((e + -52 + 52 <=? emax64 - prec64)%Z = true) as ->
    by (unfold emax64, prec64; lia).
  f_equal. lia.
Qed.

Lemma int_times_float_one k :
  (Z.of_nat k < 2 ^ 53)%Z -> int_times k (Float float_one) = inr (Z.of_nat k).
Proof.
  intros Hk. unfold int_times.
  destruct (Z.eq_dec (Z.of_nat k) 0%Z) as [E0|E0]; [now rewrite E0|].
  destruct (float_of_int_exact (Z.of_nat k) ltac:(lia))
    as (mx & ex & -> & Hdx & Hex & n & -> & Hn & Hm).
  cbn [and_then]. rewrite SFmul_one by assumption. cbn [int_of_float cond_Zopp]. f_equal.
  rewrite Hm. rewrite Z.shiftl_opp_r, Z.shiftr_div_pow2 by lia.
  apply Z.div_mul. apply Z.pow_nonzero; lia.
Qed.

(** ** The products of a step, for an exact [alpha] and for a float *)

Lemma int_times_unit k alpha :
  unit_alpha alpha -> (Z.of_nat k < 2 ^ 53)%Z ->
  exists z, int_times k alpha = inr z /\ (0 <= z)%Z.
Proof.
  destruct alpha as [q|f]; cbn [unit_alpha].
  - intros [H0 _] _. eexists. split; [reflexivity|].
    pose proof (limite_rcl_ge_1 k q H0). unfold limite_rcl in *. lia.
  - apply int_times_unit_float.
Qed.

Lemma int_times_zero k alpha :
  zero_alpha alpha -> (Z.of_nat k < 2 ^ 53)%Z -> int_times k alpha = inr 0%Z.
Proof.
  destruct alpha as [q|f]; cbn [zero_alpha].
  - intros H0 _. cbn [int_times]. f_equal.
    pose proof (limite_rcl_0 k q H0). unfold limite_rcl in *. lia.
  - destruct f; try contradiction. intros _. apply int_times_float_zero.
Qed.

Lemma int_times_one k alpha :
  one_alpha alpha -> (Z.of_nat k < 2 ^ 53)%Z -> int_times k alpha = inr (Z.of_nat k).
Proof.
  destruct alpha as [q|f]; cbn [one_alpha].
  - intros H1 _. cbn [int_times]. f_equal.
    pose proof (limite_rcl_1 k q H1). unfold limite_rcl in *. lia.
  - intros ->. apply int_times_float_one.
Qed.

Lemma unit_alpha_converts n alpha :
  unit_alpha alpha -> (Z.of_nat n <= 2 ^ 53)%Z -> converts n alpha (fun _ z => (0 <= z)%Z).
Proof. intros Ha Hn k Hk. apply int_times_unit; [assumption|lia]. Qed.


Lemma alpha_le_m1_converts n alpha :
  alpha_le_m1 n alpha -> converts n alpha (fun k z => (z <= - Z.of_nat k)%Z).
Proof.
  destruct alpha as [q|f]; cbn [alpha_le_m1]; [|easy].
  intros H1 k _. eexists. split; [reflexivity|].
  pose proof (limite_rcl_le_neg k q H1). unfold limite_rcl in *. lia.
Qed.

(** The slice of the code, for a limit that is not negative. *)
Lemma slice_prefix_nonneg {A} (l : list A) (z : Z) :
  (0 <= z)%Z -> slice_prefix l (z + 1) = take (Z.to_nat (z + 1)) l.
Proof.
  intros Hz. unfold slice_prefix.
  destruct (z + 1 <? 0)%Z eqn:E; [apply Z.ltb_lt in E; lia|reflexivity].
Qed.

Lemma take_candidatos_NoDup distancias cur nv k :
  NoDup nv -> NoDup (map fst (take k (candidatos distancias cur nv))).
Proof.
  intros Hnd. rewrite <- firstn_map.
  eapply sublist_NoDup; [|apply sublist_take].
  now rewrite candidatos_perm.
Qed.

(** The first candidate is a nearest unvisited city. *)
Lemma take_1_min distancias cur nv p c d :
  take 1 (candidatos distancias cur nv) !! p = Some (c, d) ->
  forall c', c' ∈ nv -> (d <= entry distancias cur c')%Z.
Proof.
  intros Hp c' Hc'.
  pose proof (candidatos_sorted distancias cur nv) as Hs.
  assert (Hin : (c', entry distancias cur c') ∈ candidatos distancias cur nv).
  { unfold candidatos. rewrite sort_by_cost_perm.
    apply list_elem_of_In, in_map_iff. exists c'. split; [reflexivity|].
    now apply list_elem_of_In. }
  destruct (candidatos distancias cur nv) as [|x l] eqn:E; [now apply elem_of_nil in Hin|].
  destruct p; [|discriminate]. cbn in Hp. inversion Hp; subst x.
  exact (sorted_head_min (c, d) l _ Hs Hin).
Qed.

(** ** The run of the construction, step by step *)

Section ConstructionSteps.
Context {G : Type}.
Variable randbelow : nat -> G -> nat * G.
Implicit Types (s : state G) (v nv sol : list nat) (h : list (list nat)).

(** The loop for an [alpha] whose products convert to integers that are not
    negative, with a property [P] of [(solucao, nao_visitados,
    cidade_atual)] and of the generator that every step keeps. *)
Lemma construir_while_num distancias (alpha : number) n h
    (P : list nat -> list nat -> nat -> G -> Prop) fuel :
  randbelow_ok randbelow -> square n distancias ->
  converts n alpha (fun _ z => (0 <= z)%Z) ->
  (forall sol nv cur g z c d nv',
     P sol nv cur g -> sol ++ nv ≡ₚ seq 0 n -> cur < n -> length nv < n ->
     int_times (length nv) alpha = inr z -> (0 <= z)%Z ->
     let rcl := take (Z.to_nat (z + 1)) (candidatos distancias cur nv) in
     (randbelow (length rcl) g).1 < length rcl ->
     rcl !! (randbelow (length rcl) g).1 = Some (c, d) ->
     remove_first c nv = Some nv' -> nv ≡ₚ c :: nv' ->
     P (sol ++ [c]) nv' c (randbelow (length rcl) g).2) ->
  forall sol nv cur g0,
    P sol nv cur g0 -> sol ++ nv ≡ₚ seq 0 n -> cur < n -> length nv <= fuel ->
    length nv < n ->
    exists T cur' g,
      while_loop fuel
        (fun _ => let* k := list_len (S (length h)) in ret (negb (k =? 0)))
        (construir_passo randbelow distancias alpha (length h) (S (length h))) cur
        (mkState (h ++ [sol; nv]) g0)
      = Ret cur' (mkState (h ++ [T; []]) g)
      /\ T ≡ₚ seq 0 n /\ P T [] cur' g.
Proof.
  intros Hrand HM Hconv Hstep.
  induction fuel as [|fuel IH]; intros sol nv cur g0 HP Hperm Hcur Hfuel Hlt.
  - destruct nv; [|cbn in Hfuel; lia]. exists sol, cur, g0.
    rewrite app_nil_r in Hperm. split; [|now split].
    cbn [while_loop]. now rewrite (bind_ret_eq _ _ _ _ _ (construir_cond h sol [] g0)).
  - destruct nv as [|c0 nv0] eqn:Env.
    { exists sol, cur, g0. rewrite app_nil_r in Hperm. split; [|now split].
      cbn [while_loop]. now rewrite (bind_ret_eq _ _ _ _ _ (construir_cond h sol [] g0)). }
    rewrite <- Env in *.
    assert (Hnv : nv <> []) by (rewrite Env; discriminate).
    assert (Hsub : forall c, c ∈ nv -> c < n).
    { intros c Hc. assert (c ∈ seq 0 n) as Hs
        by (rewrite <- Hperm; apply elem_of_app; now right).
      apply elem_of_seq in Hs. lia. }
    pose proof (lookups_ok_square distancias n cur nv HM Hcur Hsub) as Hd.
    destruct (Hconv (length nv)) as (z & Hz & Hz0).
    { destruct nv; [contradiction|cbn [length] in *; lia]. }
    pose proof (slice_prefix_nonneg (candidatos distancias cur nv) z Hz0) as Hsl.
    set (rcl := take (Z.to_nat (z + 1)) (candidatos distancias cur nv)) in *.
    assert (Hrcl : 0 < length rcl).
    { unfold rcl. rewrite length_take, candidatos_length.
      destruct nv; [contradiction|cbn [length]; lia]. }
    pose proof (Hrand (length rcl) g0 Hrcl) as Hp.
    destruct (lookup_lt_is_Some_2 _ _ Hp) as [[c d] Hc].
    destruct (construir_passo_num_step randbelow distancias alpha h sol nv cur g0 z
                (randbelow (length rcl) g0).1 (randbelow (length rcl) g0).2 c d Hd Hz)
      as (nv' & Hrem & Hpm & Hrun).
    { rewrite Hsl. apply surjective_pairing. }
    { now rewrite Hsl. }
    assert (Hlen : length nv = S (length nv')) by now rewrite Hpm.
    destruct (IH (sol ++ [c]) nv' c (randbelow (length rcl) g0).2)
      as (T & cur' & g' & Hloop & HT & HPT).
    { eapply Hstep; eassumption. }
    { rewrite <- Hperm, Hpm, <- app_assoc. reflexivity. }
    { apply Hsub. rewrite Hpm. apply list_elem_of_here. }
    { lia. }
    { lia. }
    exists T, cur', g'. split; [|now split].
    cbn [while_loop]. rewrite (bind_ret_eq _ _ _ _ _ (construir_cond h sol nv g0)).
    rewrite Hlen. cbn [Nat.eqb negb].
    now rewrite (bind_ret_eq _ _ _ _ _ Hrun).
Qed.

(** A step of the loop is a step as the specification describes it. *)
Lemma passo_rcl_step distancias (alpha : number) n sol nv cur g z c d nv' :
  unit_alpha alpha -> (Z.of_nat n <= 2 ^ 53)%Z ->
  last sol = Some cur -> sol ++ nv ≡ₚ seq 0 n -> length nv < n ->
  int_times (length nv) alpha = inr z -> (0 <= z)%Z ->
  let rcl := take (Z.to_nat (z + 1)) (candidatos distancias cur nv) in
  (randbelow (length rcl) g).1 < length rcl ->
  rcl !! (randbelow (length rcl) g).1 = Some (c, d) ->
  remove_first c nv = Some nv' ->
  passo_rcl randbelow distancias alpha (sol, nv, g)
    (sol ++ [c], nv', (randbelow (length rcl) g).2).
Proof.
  intros Ha Hn Hlast Hperm Hlt Hz Hz0 rcl Hp Hc Hrem.
  assert (Hnd : NoDup nv).
  { assert (NoDup (sol ++ nv)) as Hnd by (rewrite Hperm; apply NoDup_seq).
    now apply NoDup_app in Hnd as (_ & _ & ?). }
  exists cur, (candidatos distancias cur nv), z, c, d, nv'.
  split; [assumption|]. split; [apply candidatos_sorted|].
  split; [apply candidatos_perm|].
  split; [intros c' d' H'; now apply (candidatos_cost distancias cur nv c' d')|].
  split; [assumption|]. split; [assumption|].
  fold rcl. cbn zeta.
  split; [now apply take_candidatos_NoDup|]. split; [assumption|]. split; [assumption|].
  split; [|split; [|now split]].
  - intros H0. pose proof (int_times_zero (length nv) alpha H0 ltac:(lia)) as Hz'.
    rewrite Hz in Hz'. inversion Hz'; subst z. change (Z.to_nat (0 + 1)) with 1 in *.
    split.
    + unfold rcl in *. rewrite length_take in *. lia.
    + now apply (take_1_min distancias cur nv _ c d Hc).
  - intros H1. pose proof (int_times_one (length nv) alpha H1 ltac:(lia)) as Hz'.
    rewrite Hz in Hz'. inversion Hz'; subst z.
    unfold rcl. apply take_ge. rewrite candidatos_length. lia.
Qed.

(** Up to its loop, [construir_solucao] allocates the two lists, draws the
    first city and removes it from the unvisited ones. *)
Lemma construir_solucao_inicio distancias (alpha : number) n fuel h g0 :
  randbelow_ok randbelow -> 1 <= n -> length distancias = n ->
  exists nv,
    (randbelow n g0).1 < n
    /\ remove_first (randbelow n g0).1 (seq 0 n) = Some nv
    /\ seq 0 n ≡ₚ (randbelow n g0).1 :: nv
    /\ construir_solucao randbelow fuel distancias alpha (mkState h g0)
       = (let* _ :=
            while_loop fuel
              (fun _ => let* k := list_len (S (length h)) in ret (negb (k =? 0)))
              (construir_passo randbelow distancias alpha (length h) (S (length h)))
              (randbelow n g0).1
          in ret (length h)) (mkState (h ++ [[(randbelow n g0).1]; nv]) (randbelow n g0).2).
Proof.
  intros Hrand Hn Hlen. unfold construir_solucao. rewrite Hlen.
  destruct (randbelow n g0) as [k g] eqn:Hk. cbn [fst snd].
  assert (Hlt : k < n).
  { pose proof (Hrand n g0 ltac:(lia)) as Hr. now rewrite Hk in Hr. }
  assert (Hx : range 0 n !! k = Some k).
  { unfold range. rewrite Nat.sub_0_r. now apply lookup_seq_lt. }
  destruct (remove_first_perm k (range 0 n)) as (nv & Hrem & Hp).
  { eapply list_elem_of_lookup_2; eassumption. }
  exists nv. split; [assumption|].
  split; [unfold range in Hrem; now rewrite Nat.sub_0_r in Hrem|].
  split; [rewrite <- Hp; unfold range; now rewrite Nat.sub_0_r|].
  erewrite bind_ret_eq; [|reflexivity]. cbn [heap gen].
  erewrite bind_ret_eq; [|reflexivity]. cbn [heap gen].
  rewrite <- app_assoc. cbn [app]. rewrite length_app. cbn [length].
  replace (length h + 1) with (S (length h)) by lia.
  erewrite bind_ret_eq; [|apply heap_get_eq, lookup_pair_r].
  erewrite bind_ret_eq.
  2:{ apply random_choice_spec with (k := k); [|exact Hx]. cbn [gen].
      unfold range. rewrite length_seq, Nat.sub_0_r. exact Hk. }
  cbn [heap].
  erewrite bind_ret_eq.
  2:{ unfold list_append. erewrite bind_ret_eq; [|apply heap_get_eq, lookup_pair_l].
      apply heap_set_eq with (v := []), lookup_pair_l. }
  cbn [heap gen]. rewrite insert_pair_l. cbn [app].
  erewrite bind_ret_eq.
  2:{ unfold list_remove. erewrite bind_ret_eq; [|apply heap_get_eq, lookup_pair_r].
      rewrite Hrem. apply heap_set_eq with (v := range 0 n), lookup_pair_r. }
  cbn [heap gen]. rewrite insert_pair_r. reflexivity.
Qed.

(** The run of [construir_solucao] for [alpha] in [[0, 1]]: the first city,
    then [n - 1] steps. *)
Lemma construir_solucao_passos distancias (alpha : number) n fuel s :
  randbelow_ok randbelow -> 1 <= n -> (Z.of_nat n <= 2 ^ 53)%Z -> square n distancias ->
  unit_alpha alpha -> n <= S fuel ->
  exists T g nv,
    construir_solucao randbelow fuel distancias alpha s
    = Ret (length (heap s)) (mkState (heap s ++ [T; []]) g)
    /\ T ≡ₚ seq 0 n
    /\ remove_first (randbelow n (gen s)).1 (seq 0 n) = Some nv
    /\ nsteps (passo_rcl randbelow distancias alpha) (n - 1)
         ([(randbelow n (gen s)).1], nv, (randbelow n (gen s)).2) (T, [], g).
Proof.
  intros Hrand Hn Hn53 HM Ha Hfuel. destruct s as [h g0]. cbn [heap gen].
  destruct (construir_solucao_inicio distancias alpha n fuel h g0 Hrand Hn (proj1 HM))
    as (nv & Hlt & Hrem & Hp & ->).
  set (k := (randbelow n g0).1) in *. set (g1 := (randbelow n g0).2) in *.
  assert (Hlen : n = S (length nv)).
  { apply Permutation_length in Hp. rewrite length_seq in Hp. exact Hp. }
  destruct (construir_while_num distancias alpha n h
              (fun sol nv' cur g =>
                 last sol = Some cur
                 /\ nsteps (passo_rcl randbelow distancias alpha) (n - 1 - length nv')
                      ([k], nv, g1) (sol, nv', g))
              fuel Hrand HM (unit_alpha_converts n alpha Ha Hn53))
    with (sol := [k]) (nv := nv) (cur := k) (g0 := g1)
    as (T & cur' & g' & Hloop & HT & _ & Hsteps).
  - intros sol nv0 cur g z c d nv' [Hlast Hst] Hperm Hcur Hlt0 Hz Hz0 rcl Hpos Hc Hrem0 Hpm.
    split; [apply last_snoc|].
    assert (Hl : length nv0 = S (length nv')) by now rewrite Hpm.
    replace (n - 1 - length nv') with (S (n - 1 - length nv0)) by lia.
    eapply nsteps_r; [exact Hst|].
    exact (passo_rcl_step distancias alpha n sol nv0 cur g z c d nv'
             Ha Hn53 Hlast Hperm Hlt0 Hz Hz0 Hpos Hc Hrem0).
  - split; [reflexivity|]. replace (n - 1 - length nv) with 0 by lia. constructor.
  - now rewrite Hp.
  - assumption.
  - lia.
  - lia.
  - exists T, g', nv. rewrite (bind_ret_eq _ _ _ _ _ Hloop).
    split; [reflexivity|]. split; [assumption|]. split; [assumption|].
    cbn [length] in Hsteps. now rewrite Nat.sub_0_r in Hsteps.
Qed.

End ConstructionSteps.

(** ** The construction outside [alpha] in [[0, 1]], exact or float *)

Section ConstructionErrors.
Context {G : Type}.
Variable randbelow : nat -> G -> nat * G.
Implicit Types (s : state G) (v nv sol : list nat) (h : list (list nat)).

(** The loop when every product converts to an integer [z <= -k]: the
    restricted candidate list is empty by the time one city is left, and
    the choice from it raises. *)
Lemma construir_while_le_m1 distancias (alpha : number) n h fuel :
  randbelow_ok randbelow -> square n distancias ->
  converts n alpha (fun k z => (z <= - Z.of_nat k)%Z) ->
  forall sol nv cur g0,
    nv <> [] -> sol ++ nv ≡ₚ seq 0 n -> cur < n -> length nv <= fuel -> length nv < n ->
    while_loop fuel
      (fun _ => let* k := list_len (S (length h)) in ret (negb (k =? 0)))
      (construir_passo randbelow distancias alpha (length h) (S (length h))) cur
      (mkState (h ++ [sol; nv]) g0)
    = Raise IndexError.
Proof.
  intros Hrand HM Hconv.
  induction fuel as [|fuel IH]; intros sol nv cur g0 Hnv Hperm Hcur Hfuel Hlt.
  { destruct nv; [contradiction|cbn in Hfuel; lia]. }
  assert (Hsub : forall c, c ∈ nv -> c < n).
  { intros c Hc. assert (c ∈ seq 0 n) as Hs
      by (rewrite <- Hperm; apply elem_of_app; now right).
    apply elem_of_seq in Hs. lia. }
  pose proof (lookups_ok_square distancias n cur nv HM Hcur Hsub) as Hd.
  cbn [while_loop]. rewrite (bind_ret_eq _ _ _ _ _ (construir_cond h sol nv g0)).
  assert (negb (length nv =? 0) = true) as -> by (destruct nv; [contradiction|reflexivity]).
  destruct (Hconv (length nv)) as (z & Hz & Hz1).
  { destruct nv; [contradiction|cbn [length] in *; lia]. }
  destruct (slice_prefix (candidatos distancias cur nv) (z + 1)) as [|x rcl] eqn:Ercl.
  { unfold bind.
    now rewrite (construir_passo_num_empty randbelow _ alpha h sol _ _ g0 z Hd Hz Ercl). }
  destruct (randbelow (length (slice_prefix (candidatos distancias cur nv) (z + 1))) g0)
    as [k g] eqn:Hk.
  assert (Hlk : k < length (slice_prefix (candidatos distancias cur nv) (z + 1))).
  { pose proof (Hrand (length (slice_prefix (candidatos distancias cur nv) (z + 1))) g0) as Hr.
    rewrite Hk in Hr. apply Hr. rewrite Ercl. cbn. lia. }
  destruct (lookup_lt_is_Some_2 _ _ Hlk) as [[c d] Hc].
  destruct (construir_passo_num_step randbelow distancias alpha h sol nv cur g0 z k g c d
              Hd Hz Hk Hc) as (nv' & Hrem & Hp & Hrun).
  rewrite (bind_ret_eq _ _ _ _ _ Hrun).
  assert (Hlen : length nv = S (length nv')) by now rewrite Hp.
  apply IH.
  - intros ->. cbn [length] in Hlen.
    assert (Hl : length (slice_prefix (candidatos distancias cur nv) (z + 1)) = 0).
    { unfold slice_prefix. rewrite candidatos_length, Hlen.
      destruct (z + 1 <? 0)%Z eqn:E;
        [apply Z.ltb_lt in E|apply Z.ltb_ge in E]; rewrite length_take; lia. }
    rewrite Ercl in Hl. discriminate.
  - rewrite <- Hperm, Hp, <- app_assoc. reflexivity.
  - apply Hsub. rewrite Hp. apply list_elem_of_here.
  - lia.
  - lia.
Qed.


Lemma construir_solucao_le_m1 distancias (alpha : number) n fuel s :
  randbelow_ok randbelow -> 2 <= n -> square n distancias ->
  alpha_le_m1 n alpha -> n <= S fuel ->
  construir_solucao randbelow fuel distancias alpha s = Raise IndexError.
Proof.
  intros Hrand Hn HM H1 Hfuel. destruct s as [h g0].
  destruct (construir_solucao_inicio randbelow distancias alpha n fuel h g0
              Hrand ltac:(lia) (proj1 HM)) as (nv & Hlt & Hrem & Hp & ->).
  assert (Hlen : n = S (length nv)).
  { apply Permutation_length in Hp. rewrite length_seq in Hp. exact Hp. }
  unfold bind at 1.
  rewrite (construir_while_le_m1 distancias alpha n h fuel Hrand HM
             (alpha_le_m1_converts n alpha H1) [(randbelow n g0).1] nv (randbelow n g0).1
             (randbelow n g0).2);
    [reflexivity| |now rewrite Hp|assumption|lia|lia].
  intros ->. cbn in Hlen. lia.
Qed.

(** A product that does not convert at the first step stops the run. *)
Lemma construir_solucao_int_error distancias (alpha : number) n fuel s e :
  randbelow_ok randbelow -> 2 <= n -> square n distancias -> 1 <= fuel ->
  int_times (n - 1) alpha = inl e ->
  construir_solucao randbelow fuel distancias alpha s = Raise e.
Proof.
  intros Hrand Hn HM Hfuel He. destruct s as [h g0].
  destruct (construir_solucao_inicio randbelow distancias alpha n fuel h g0
              Hrand ltac:(lia) (proj1 HM)) as (nv & Hlt & Hrem & Hp & ->).
  assert (Hlen : n = S (length nv)).
  { apply Permutation_length in Hp. rewrite length_seq in Hp. exact Hp. }
  assert (Hsub : forall c, c ∈ nv -> c < n).
  { intros c Hc. assert (c ∈ seq 0 n) as Hs
      by (rewrite Hp; now apply list_elem_of_further).
    apply elem_of_seq in Hs. lia. }
  pose proof (lookups_ok_square distancias n _ nv HM Hlt Hsub) as Hd.
  destruct fuel as [|fuel]; [lia|].
  unfold bind at 1. cbn [while_loop].
  rewrite (bind_ret_eq _ _ _ _ _ (construir_cond h _ nv _)).
  assert (negb (length nv =? 0) = true) as ->
    by (destruct nv; [cbn in Hlen; lia|reflexivity]).
  unfold bind at 1.
  rewrite (construir_passo_num_error randbelow distancias alpha h _ nv _ _ e Hd);
    [reflexivity|].
  now replace (length nv) with (n - 1) by lia.
Qed.

End ConstructionErrors.

(** * Properties of the specification *)

Section Claims.
Context {G : Type}.
Implicit Types (s : state G) (T : list nat) (r : loc).

(** C9.  For a tour [T] with at least one city, all of them below [n], and
    an [n x n] matrix, [calcular_custo] leaves the state as it is and
    returns the sum of [distancias[T[i]][T[i+1]]] for [i] from [0] to
    [len(T) - 2] plus the wrap-around term [distancias[T[-1]][T[0]]]; when
    no entry of the matrix is negative this sum is at least zero. *)
Theorem calcular_custo_sum distancias T n r s :
  1 <= length T -> Forall (fun a => a < n) T -> square n distancias ->
  heap s !! r = Some T ->
  calcular_custo r distancias s = Ret (tour_cost_spec distancias T) s
  /\ (nonneg distancias -> (0 <= tour_cost_spec distancias T)%Z).
Proof.
  intros Hlen HT HM Hr. split; [|apply tour_cost_spec_nonneg].
  rewrite (calcular_custo_sim _ _ _ _ Hr).
  rewrite custo_de_spec; [reflexivity|].
  apply (tour_defined_on n); [|assumption..]. intros ->. cbn in Hlen. lia.
Qed.

(** C2.  For a tour [T] of [n >= 1] cities and an [n x n] matrix, with
    enough passes allowed, [busca_local] returns a tour whose cost, as
    [calcular_custo] gives it, is at most the cost of [T]. *)
Theorem busca_local_never_worsens distancias T n r s fuel :
  1 <= n -> T ≡ₚ seq 0 n -> square n distancias ->
  heap s !! r = Some T -> fuel_for T <= fuel ->
  exists r' s' c c',
    busca_local fuel r distancias s = Ret r' s'
    /\ calcular_custo r distancias s = Ret c s
    /\ calcular_custo r' distancias s' = Ret c' s'
    /\ (c' <= c)%Z.
Proof.
  intros Hn HT HM Hr Hfuel.
  destruct (busca_local_spec distancias fuel r T s Hr)
    as (r' & s' & T' & c & c' & Hrun & _ & Hr' & Hc & Hc' & Hle & _);
    [now apply (perm_defined_on n)|assumption|].
  exists r', s', c, c'. split; [assumption|].
  rewrite (calcular_custo_sim _ _ _ _ Hr), Hc.
  rewrite (calcular_custo_sim _ _ _ _ Hr'), Hc'. now repeat split.
Qed.

(** X22.  What the loops do reach: for a tour [T] of [n >= 1] cities and
    an [n x n] matrix, with enough passes allowed, [busca_local] returns an
    arrangement of [T] that no reversal of a segment of positions [a..b]
    with [1 <= a < b <= n - 2] makes strictly cheaper.  The segments that
    hold the first or the last position are never tried. *)
Theorem busca_local_inner_optimum distancias T n r s fuel :
  1 <= n -> T ≡ₚ seq 0 n -> square n distancias ->
  heap s !! r = Some T -> fuel_for T <= fuel ->
  exists r' s' T',
    busca_local fuel r distancias s = Ret r' s'
    /\ heap s' !! r' = Some T' /\ T' ≡ₚ T
    /\ optimal_inner distancias T'.
Proof.
  intros Hn HT HM Hr Hfuel.
  destruct (busca_local_spec distancias fuel r T s Hr)
    as (r' & s' & T' & c & c' & Hrun & _ & Hr' & _ & Hc' & _ & Hp & _ & _ & Hfix);
    [now apply (perm_defined_on n)|assumption|].
  exists r', s', T'. repeat (split; [assumption|]).
  now apply (pass_fix_optimal_inner distancias T' c').
Qed.

(** C6.  Whatever the tour and the matrix, [busca_local] does not time out
    once it may run one pass more than there are tours over the cities of
    [T]; on a tour of [n >= 1] cities and an [n x n] matrix without negative
    entries, one pass more than the cost of [T] is enough as well.  Each
    candidate the loop accepts is strictly cheaper than the best so far, and
    the loop is left after a pass that accepted none. *)
Theorem busca_local_terminates distancias T r s fuel :
  heap s !! r = Some T ->
  (fuel_for T <= fuel -> busca_local fuel r distancias s <> Timeout)
  /\ (forall n c, 1 <= n -> T ≡ₚ seq 0 n -> square n distancias -> nonneg distancias ->
        calcular_custo r distancias s = Ret c s -> Z.to_nat c < fuel ->
        busca_local fuel r distancias s <> Timeout)
  /\ (forall i j st s1 st' s2,
        busca_local_j distancias i j st s1 = Ret st' s2 ->
        st' = st \/ ((st'.1.2 < st.1.2)%Z /\ st'.2 = true))
  /\ (forall r' s', busca_local fuel r distancias s = Ret r' s' ->
        exists T' c', heap s' !! r' = Some T' /\ custo_de distancias T' = Some c'
                      /\ pass_val distancias T' c' = Some (T', c', false)).
Proof.
  intros Hr. split; [now apply busca_local_halts|].
  split; [|split; [apply busca_local_j_cases|]].
  2:{ intros r' s' Hrun. exact (busca_local_exit _ _ _ _ _ _ _ Hr Hrun). }
  intros n c Hn HT HM Hpos Hc Hfuel.
  pose proof (perm_defined_on n T distancias Hn HT HM) as Hd.
  rewrite (calcular_custo_sim _ _ _ _ Hr) in Hc.
  destruct (custo_de distancias T) as [c0|] eqn:Hc0; [|discriminate].
  inversion Hc; subst c0.
  pose proof (busca_local_sim distancias fuel r T s Hr) as Hsim.
  unfold sim_res, busca_local_val in Hsim. rewrite Hc0 in Hsim.
  pose proof (busca_val_halts_nonneg distancias fuel T c Hd Hpos Hc0 Hfuel) as Hh.
  destruct (busca_val fuel distancias T c) as [v'| |].
  - destruct Hsim as (r' & s' & -> & _). discriminate.
  - rewrite Hsim. discriminate.
  - contradiction.
Qed.

(** C7.  For a tour [T] of [n >= 1] cities and an [n x n] matrix, with
    enough passes allowed, [busca_local] on its own answer returns the same
    tour, hence one of the same cost. *)
Theorem busca_local_idempotent distancias T n r s fuel :
  1 <= n -> T ≡ₚ seq 0 n -> square n distancias ->
  heap s !! r = Some T -> fuel_for T <= fuel ->
  exists r1 s1 r2 s2 T' c,
    busca_local fuel r distancias s = Ret r1 s1
    /\ busca_local fuel r1 distancias s1 = Ret r2 s2
    /\ heap s1 !! r1 = Some T' /\ heap s2 !! r2 = Some T'
    /\ calcular_custo r1 distancias s1 = Ret c s1
    /\ calcular_custo r2 distancias s2 = Ret c s2.
Proof.
  intros Hn HT HM Hr Hfuel.
  pose proof (perm_defined_on n T distancias Hn HT HM) as Hd.
  destruct (busca_local_val_returns distancias fuel T Hd Hfuel) as [T' HT'].
  pose proof (busca_local_sim distancias fuel r T s Hr) as Hsim.
  rewrite HT' in Hsim. destruct Hsim as (r1 & s1 & Hrun1 & _ & Hr1).
  assert (Hfuel1 : 1 <= fuel) by (unfold fuel_for in Hfuel; lia).
  pose proof (busca_local_val_fix distancias fuel T T' HT' fuel Hfuel1) as HT''.
  pose proof (busca_local_sim distancias fuel r1 T' s1 Hr1) as Hsim2.
  rewrite HT'' in Hsim2. destruct Hsim2 as (r2 & s2 & Hrun2 & _ & Hr2).
  destruct (busca_local_val_ok _ _ _ _ HT') as (c0 & c & _ & Hc & _).
  exists r1, s1, r2, s2, T', c. repeat (split; [assumption|]).
  now rewrite (calcular_custo_sim _ _ _ _ Hr1), (calcular_custo_sim _ _ _ _ Hr2), Hc.
Qed.

(** C10.  For a tour [T] of [n >= 1] cities and an [n x n] matrix, with
    enough passes allowed, [busca_local] returns a tour with the cities of
    [T] at its first and at its last position; every object of the store,
    the input among them, is as it was; and the candidate of a scanned move
    [(i, j)] differs from its tour at positions [i..j-1] only, which lie
    between [1] and [n - 2]. *)
Theorem busca_local_keeps_ends distancias T n r s fuel :
  1 <= n -> T ≡ₚ seq 0 n -> square n distancias ->
  heap s !! r = Some T -> fuel_for T <= fuel ->
  exists r' s' T',
    busca_local fuel r distancias s = Ret r' s'
    /\ heap s' !! r' = Some T'
    /\ T' !! 0 = T !! 0 /\ T' !! (n - 1) = T !! (n - 1)
    /\ heap s' !! r = Some T
    /\ (forall l v, heap s !! l = Some v -> heap s' !! l = Some v)
    /\ (forall v i j k, scanned (length v) i j -> k < i \/ j <= k ->
          1 <= i /\ j - 1 <= length v - 2 /\ two_opt v i j !! k = v !! k).
Proof.
  intros Hn HT HM Hr Hfuel.
  destruct (busca_local_spec distancias fuel r T s Hr)
    as (r' & s' & T' & c & c' & Hrun & Hext & Hr' & _ & _ & _ & Hp & Hh & Hl & _);
    [now apply (perm_defined_on n)|assumption|].
  exists r', s', T'. split; [assumption|]. split; [assumption|]. split; [assumption|].
  assert (length T = n) by now rewrite HT, length_seq.
  assert (length T' = n) by now rewrite Hp.
  split.
  { rewrite !last_lookup in Hl. replace (n - 1) with (pred n) by lia. congruence. }
  split; [now apply (extends_lookup s)|].
  split; [intros l v; now apply extends_lookup|].
  intros v i j k (Hi & Hj & Hlen) Hk. split; [assumption|]. split; [lia|].
  apply two_opt_lookup_outside; lia.
Qed.

End Claims.

(** C1.  The code at the input where it misses the 2-opt optimum its
    docstring announces: on the rectangle the tour [0, 1, 2, 3] comes back
    as it is, at cost 16, although the reversal of positions [2..3] gives
    the tour [0, 1, 3, 2] along the sides, at cost 14.  The loops reverse
    positions [i..j-1] for [1 <= i <= n - 3] only, so the edge from the last
    city back to the first, which [calcular_custo] counts, is never
    exchanged. *)
Lemma busca_local_not_2opt_optimum :
  crossing_tour ≡ₚ seq 0 4 /\ square 4 rect345
  /\ fuel_for crossing_tour <= 257
  /\ (exists s', busca_local 257 0 rect345 (mkState [crossing_tour] tt) = Ret 0 s'
                 /\ heap s' !! 0 = Some crossing_tour)
  /\ calcular_custo 0 rect345 (mkState [crossing_tour] tt)
     = Ret 16%Z (mkState [crossing_tour] tt)
  /\ reverse_segment crossing_tour 2 3 = [0; 1; 3; 2]
  /\ calcular_custo 0 rect345 (mkState [reverse_segment crossing_tour 2 3] tt)
     = Ret 14%Z (mkState [reverse_segment crossing_tour 2 3] tt)
  /\ ~ optimal_2opt rect345 crossing_tour.
Proof.
  split; [reflexivity|]. split; [split; [reflexivity|repeat constructor]|].
  split; [vm_compute; lia|].
  split; [eexists; split; [vm_compute; reflexivity|reflexivity]|].
  split; [reflexivity|]. split; [reflexivity|]. split; [reflexivity|].
  intros H. specialize (H 2 3 16%Z 14%Z). cbn in H.
  specialize (H ltac:(lia) ltac:(lia) eq_refl eq_refl). lia.
Qed.

Section RandomClaims.
Context {G : Type}.
Variable randbelow : nat -> G -> nat * G.
Variable sample2 : nat -> G -> (nat * nat) * G.
Implicit Types (s : state G) (T : list nat) (r : loc).

(** C8.  For a tour [T] of length at least two, [perturbar] returns a
    reference to a new object and leaves the objects of the store, [T] among
    them, as they were.  The new tour is [T] with the items at the two
    positions [random.sample(range(len(T)), 2)] gave, which are distinct,
    exchanged: every other position holds what it held.  When no city
    occurs twice in [T] the positions that changed are exactly those two. *)
Theorem perturbar_swaps_two T r s :
  sample2_ok sample2 -> heap s !! r = Some T -> 2 <= length T ->
  exists i j T',
    (sample2 (length T) (gen s)).1 = (i, j)
    /\ i < length T /\ j < length T /\ i <> j
    /\ perturbar sample2 r s
       = Ret (length (heap s))
           (mkState (heap s ++ [T']) (sample2 (length T) (gen s)).2)
    /\ r < length (heap s)
    /\ T' !! i = T !! j /\ T' !! j = T !! i
    /\ (forall k, k <> i -> k <> j -> T' !! k = T !! k)
    /\ length T' = length T /\ T' ≡ₚ T
    /\ (NoDup T -> forall k, k < length T -> T' !! k <> T !! k <-> k = i \/ k = j).
Proof.
  intros Hsample Hr Hlen.
  destruct (sample2 (length T) (gen s)) as [[i j] g] eqn:Hs.
  pose proof (Hsample (length T) (gen s) Hlen) as (Hi & Hj & Hne).
  rewrite Hs in Hi, Hj, Hne. cbn in Hi, Hj, Hne.
  destruct (lookup_lt_is_Some_2 T j Hj) as [a Ha].
  destruct (lookup_lt_is_Some_2 T i Hi) as [b Hb].
  exists i, j, (<[j:=b]> (<[i:=a]> T)).
  split; [reflexivity|]. split; [assumption|]. split; [assumption|]. split; [assumption|].
  split; [exact (perturbar_spec sample2 r T s i j g a b Hr Hlen Hs Ha Hb)|].
  split; [now apply lookup_lt_Some in Hr|].
  pose proof (swap_lookup T i j a b) as Hswap.
  split. { rewrite (Hswap i Ha Hb Hne). now rewrite decide_True. }
  split. { rewrite (Hswap j Ha Hb Hne). rewrite decide_False by congruence.
           now rewrite decide_True. }
  split. { intros k Hki Hkj. rewrite (Hswap k Ha Hb Hne). now rewrite !decide_False. }
  split; [now rewrite !length_insert|].
  split; [apply (Permutation_insert_swap T i j b a Hb Ha)|].
  intros Hnd k Hk. rewrite (Hswap k Ha Hb Hne).
  destruct (decide (k = i)) as [->|Hki].
  - split; [now left|]. intros _. rewrite Hb. intros [= ->].
    apply Hne. apply (NoDup_lookup T i j b Hnd Hb Ha).
  - destruct (decide (k = j)) as [->|Hkj].
    + split; [now right|]. intros _. rewrite Ha. intros [= ->].
      apply Hne. apply (NoDup_lookup T i j a Hnd Hb Ha).
    + split; [contradiction|]. intros [?|?]; contradiction.
Qed.


(** C4.  For an [n x n] matrix with [1 <= n <= 2^53] and [alpha] in
    [[0, 1]], an exact number or a float, with [n - 1] runs of the loop
    allowed: [construir_solucao] draws its first city and then takes
    [n - 1] steps, each of them a step [passo_rcl].  At every step the
    candidates are the unvisited cities in ascending order of their distance
    from the current city; the city chosen is the one at the position
    [random.choice] draws among the first [int(k * alpha) + 1] of them,
    [k] the number of unvisited cities, and distinct positions hold distinct
    cities; [k * alpha] is the product the program computes, rounded when
    [alpha] is a float, and [int(k * alpha)] is [floor(k * alpha)] when
    [alpha] is exact.  For [alpha = 0] the list drawn from is one city, a
    nearest one; for [alpha = 1] it holds every unvisited city. *)
Theorem construir_solucao_rcl distancias (alpha : number) n fuel s :
  randbelow_ok randbelow -> 1 <= n -> (Z.of_nat n <= 2 ^ 53)%Z -> square n distancias ->
  unit_alpha alpha -> n <= S fuel ->
  (exists T g nv,
     construir_solucao randbelow fuel distancias alpha s
     = Ret (length (heap s)) (mkState (heap s ++ [T; []]) g)
     /\ T ≡ₚ seq 0 n
     /\ remove_first (randbelow n (gen s)).1 (seq 0 n) = Some nv
     /\ nsteps (passo_rcl randbelow distancias alpha) (n - 1)
          ([(randbelow n (gen s)).1], nv, (randbelow n (gen s)).2) (T, [], g))
  /\ (forall q k, alpha = Exact q ->
        int_times k alpha = inr (Qfloor (inject_Z (Z.of_nat k) * q))).
Proof.
  intros Hrand Hn Hn53 HM Ha Hfuel.
  split; [exact (construir_solucao_passos randbelow distancias alpha n fuel s
                   Hrand Hn Hn53 HM Ha Hfuel)|].
  intros q k ->. destruct Ha as [H0 _]. cbn [int_times]. f_equal.
  pose proof (limite_rcl_floor k q H0) as Hf. unfold limite_rcl in Hf. lia.
Qed.


End RandomClaims.

(** C4, as stated, fails for a float [alpha], the default [0.3] among
    them.  With eleven cities on a line and city 0 drawn first, ten cities
    are unvisited; the product [10 * 0.3] is rounded to [3.0], the code
    draws among four candidates and this run takes the fourth, city 4.  The
    number the float [0.3] stands for is below 3/10, and
    [floor(10 * alpha) + 1] is 3: the first three candidates are the cities
    1, 2 and 3.  Nor does the decimal fit: with [alpha = 0.58] and fifty
    unvisited cities, [int(50 * 0.58)] is 28 and the code draws among 29
    candidates, where [floor(50 * 58/100) + 1] is 30. *)
Lemma construir_solucao_rcl_not_floor :
  float_03 = float_ratio 3 10 /\ unit_alpha (Float float_03)
  /\ (0 <= float_value float_03)%Q /\ (float_value float_03 <= 1)%Q
  /\ square 11 (line 11)
  /\ (exists T g,
        construir_solucao Lcg.randbelow 10 (line 11) (Float float_03) (mkState [] 0)
        = Ret 0 (mkState [T; []] g)
        /\ T !! 0 = Some 0 /\ T !! 1 = Some 4)
  /\ int_times 10 (Float float_03) = inr 3%Z
  /\ (Qfloor (inject_Z 10 * float_value float_03) + 1 = 3)%Z
  /\ map fst (take (Z.to_nat (Qfloor (inject_Z 10 * float_value float_03) + 1))
                (candidatos (line 11) 0 (seq 1 10)))
     = [1; 2; 3]
  /\ (4 ∉ map fst (take (Z.to_nat (Qfloor (inject_Z 10 * float_value float_03) + 1))
                     (candidatos (line 11) 0 (seq 1 10))))
  /\ float_058 = float_ratio 58 100
  /\ int_times 50 (Float float_058) = inr 28%Z
  /\ (Qfloor (inject_Z 50 * (58 # 100)) + 1 = 30)%Z.
Proof.
  split; [reflexivity|]. split; [repeat split|].
  split; [vm_compute; discriminate|]. split; [vm_compute; discriminate|].
  split; [split; [reflexivity|repeat constructor]|].
  split; [eexists _, _; split; [vm_compute; reflexivity|split; reflexivity]|].
  split; [reflexivity|]. split; [reflexivity|]. split; [reflexivity|].
  split; [intros H; apply list_elem_of_In in H; vm_compute in H; intuition lia|].
  split; [reflexivity|]. split; reflexivity.
Qed.

(** * The properties at concrete inputs

    The rectangle and the tour along its diagonals for the cost and the
    local search; the generator [Lcg] for the randomised functions. *)

Lemma calcular_custo_sum_witness :
  calcular_custo 0 rect345 (mkState [crossing_tour] tt)
  = Ret (tour_cost_spec rect345 crossing_tour) (mkState [crossing_tour] tt)
  /\ (nonneg rect345 -> (0 <= tour_cost_spec rect345 crossing_tour)%Z).
Proof.
  apply (calcular_custo_sum rect345 crossing_tour 4 0 (mkState [crossing_tour] tt)).
  - cbn. lia.
  - repeat (constructor; [lia|]). constructor.
  - split; [reflexivity|]. repeat (constructor; [reflexivity|]). constructor.
  - reflexivity.
Defined.

Lemma busca_local_never_worsens_witness :
  exists r' s' c c',
    busca_local 257 0 rect345 (mkState [crossing_tour] tt) = Ret r' s'
    /\ calcular_custo 0 rect345 (mkState [crossing_tour] tt)
       = Ret c (mkState [crossing_tour] tt)
    /\ calcular_custo r' rect345 s' = Ret c' s'
    /\ (c' <= c)%Z.
Proof.
  apply (busca_local_never_worsens rect345 crossing_tour 4 0
           (mkState [crossing_tour] tt) 257).
  - lia.
  - reflexivity.
  - split; [reflexivity|]. repeat (constructor; [reflexivity|]). constructor.
  - reflexivity.
  - vm_compute. lia.
Defined.

Lemma busca_local_inner_optimum_witness :
  exists r' s' T',
    busca_local 257 0 rect345 (mkState [crossing_tour] tt) = Ret r' s'
    /\ heap s' !! r' = Some T' /\ T' ≡ₚ crossing_tour
    /\ optimal_inner rect345 T'.
Proof.
  apply (busca_local_inner_optimum rect345 crossing_tour 4 0
           (mkState [crossing_tour] tt) 257).
  - lia.
  - reflexivity.
  - split; [reflexivity|]. repeat (constructor; [reflexivity|]). constructor.
  - reflexivity.
  - vm_compute. lia.
Defined.

Lemma busca_local_terminates_witness :
  busca_local 257 0 rect345 (mkState [crossing_tour] tt) <> Timeout
  /\ busca_local 17 0 rect345 (mkState [crossing_tour] tt) <> Timeout.
Proof.
  split.
  - apply (busca_local_terminates rect345 crossing_tour 0
             (mkState [crossing_tour] tt) 257); [reflexivity|vm_compute; lia].
  - apply (proj1 (proj2 (busca_local_terminates rect345 crossing_tour 0
             (mkState [crossing_tour] tt) 17 eq_refl)) 4 16%Z).
    + lia.
    + reflexivity.
    + split; [reflexivity|]. repeat (constructor; [reflexivity|]). constructor.
    + repeat (constructor; [repeat (constructor; [lia|]); constructor|]). constructor.
    + reflexivity.
    + vm_compute. lia.
Defined.

Lemma busca_local_idempotent_witness :
  exists r1 s1 r2 s2 T' c,
    busca_local 257 0 rect345 (mkState [crossing_tour] tt) = Ret r1 s1
    /\ busca_local 257 r1 rect345 s1 = Ret r2 s2
    /\ heap s1 !! r1 = Some T' /\ heap s2 !! r2 = Some T'
    /\ calcular_custo r1 rect345 s1 = Ret c s1
    /\ calcular_custo r2 rect345 s2 = Ret c s2.
Proof.
  apply (busca_local_idempotent rect345 crossing_tour 4 0
           (mkState [crossing_tour] tt) 257).
  - lia.
  - reflexivity.
  - split; [reflexivity|]. repeat (constructor; [reflexivity|]). constructor.
  - reflexivity.
  - vm_compute. lia.
Defined.

Lemma busca_local_keeps_ends_witness :
  exists r' s' T',
    busca_local 257 0 rect345 (mkState [crossing_tour] tt) = Ret r' s'
    /\ heap s' !! r' = Some T'
    /\ T' !! 0 = Some 0 /\ T' !! 3 = Some 3
    /\ heap s' !! 0 = Some crossing_tour.
Proof.
  destruct (busca_local_keeps_ends rect345 crossing_tour 4 0
              (mkState [crossing_tour] tt) 257)
    as (r' & s' & T' & Hrun & Hr' & Hh & Hl & Hin & _).
  - lia.
  - reflexivity.
  - split; [reflexivity|]. repeat (constructor; [reflexivity|]). constructor.
  - reflexivity.
  - vm_compute. lia.
  - exists r', s', T'. repeat (split; [assumption|]). assumption.
Defined.

Lemma perturbar_swaps_two_witness :
  exists i j T',
    (Lcg.sample2 4 5).1 = (i, j) /\ i < 4 /\ j < 4 /\ i <> j
    /\ perturbar Lcg.sample2 0 (mkState [crossing_tour] 5)
       = Ret 1 (mkState [crossing_tour; T'] (Lcg.sample2 4 5).2)
    /\ T' !! i = crossing_tour !! j /\ T' !! j = crossing_tour !! i
    /\ T' ≡ₚ crossing_tour.
Proof.
  destruct (perturbar_swaps_two Lcg.sample2 crossing_tour 0 (mkState [crossing_tour] 5))
    as (i & j & T' & Hs & Hi & Hj & Hne & Hrun & _ & Hij & Hji & _ & _ & Hp & _).
  - exact Lcg_sample2_ok.
  - reflexivity.
  - cbn. lia.
  - exists i, j, T'. repeat (split; [assumption|]). assumption.
Defined.


Lemma construir_solucao_rcl_witness :
  exists T g nv,
    construir_solucao Lcg.randbelow 3 rect345 (Float float_03) (mkState [] 5)
    = Ret 0 (mkState [T; []] g)
    /\ T ≡ₚ seq 0 4
    /\ remove_first (Lcg.randbelow 4 5).1 (seq 0 4) = Some nv
    /\ nsteps (passo_rcl Lcg.randbelow rect345 (Float float_03)) 3
         ([(Lcg.randbelow 4 5).1], nv, (Lcg.randbelow 4 5).2) (T, [], g).
Proof.
  apply (construir_solucao_rcl Lcg.randbelow rect345 (Float float_03) 4 3 (mkState [] 5)).
  - exact Lcg_randbelow_ok.
  - lia.
  - lia.
  - split; [reflexivity|]. repeat (constructor; [reflexivity|]). constructor.
  - repeat split.
  - lia.
Defined.


(** * Further properties of the code *)

(** ** The matrix of distances *)

Section DistanciasFacts.
Context {D : Type}.
Variable zero : D.
Variable raiz : Z -> exn + D.
Implicit Types (m : list (list D)) (cidades : list (Z * Z)).

Lemma distancia_euclidiana_sym a b :
  distancia_euclidiana raiz a b = distancia_euclidiana raiz b a.
Proof. unfold distancia_euclidiana. f_equal. lia. Qed.

Lemma square_lookup n m i row : square n m -> m !! i = Some row -> length row = n.
Proof. intros [_ Hrows] Hrow. rewrite Forall_lookup in Hrows. eauto. Qed.

(** An item assignment keeps the shape and changes one entry. *)
Lemma matriz_set_spec n m i j d :
  square n m -> i < n -> j < n ->
  exists m', matriz_set m i j d = inr m' /\ square n m'
    /\ forall a b, cell zero m' a b = if decide (a = i /\ b = j) then d else cell zero m a b.
Proof.
  intros HM Hi Hj. pose proof HM as [Hlen Hrows].
  destruct (lookup_lt_is_Some_2 m i) as [row Hrow]; [lia|].
  pose proof (square_lookup n m i row HM Hrow) as Hr.
  unfold matriz_set. rewrite Hrow.
  destruct (j <? length row) eqn:E; [|apply Nat.ltb_ge in E; lia].
  eexists. split; [reflexivity|]. split.
  - split; [now rewrite length_insert|].
    apply Forall_insert; [assumption|]. now rewrite length_insert.
  - intros a b. unfold cell at 1.
    destruct (decide (a = i)) as [->|Hai].
    + rewrite (nth_lookup_Some _ _ _ (<[j:=d]> row))
        by (apply list_lookup_insert_eq; lia).
      destruct (decide (b = j)) as [->|Hbj].
      * rewrite decide_True by easy.
        apply nth_lookup_Some. apply list_lookup_insert_eq. lia.
      * rewrite decide_False by (intros [_ ?]; contradiction).
        unfold cell. rewrite (nth_lookup_Some _ _ _ _ Hrow).
        rewrite !nth_lookup. now rewrite list_lookup_insert_ne by congruence.
    + rewrite decide_False by (intros [? _]; contradiction).
      unfold cell. rewrite !(nth_lookup _ a []).
      now rewrite list_lookup_insert_ne by congruence.
Qed.

(** One row: it is filled with the distances from city [i], or the loop
    stops at a distance that does not convert. *)
Lemma gerar_matriz_row n cidades i js : forall m,
  length cidades = n -> square n m -> i < n -> Forall (fun j => j < n) js ->
  match for_exn js (gerar_matriz_j raiz cidades i) m with
  | inr m' =>
      square n m'
      /\ forall a b,
           if decide (a = i /\ b ∈ js /\ b <> i)
           then distancia_euclidiana raiz (nth a cidades (0, 0)%Z) (nth b cidades (0, 0)%Z)
                = inr (cell zero m' a b)
           else cell zero m' a b = cell zero m a b
  | inl e =>
      exists j, j ∈ js /\ j <> i
        /\ distancia_euclidiana raiz (nth i cidades (0, 0)%Z) (nth j cidades (0, 0)%Z)
           = inl e
  end.
Proof.
  induction js as [|j js IH]; intros m Hn HM Hi Hjs.
  - cbn [for_exn]. split; [assumption|]. intros a b.
    rewrite decide_False; [reflexivity|]. intros (_ & Hb & _). now apply elem_of_nil in Hb.
  - apply Forall_cons in Hjs as [Hj Hjs]. cbn [for_exn]. unfold gerar_matriz_j at 1.
    destruct (i =? j) eqn:E.
    + apply Nat.eqb_eq in E. subst j. cbn [and_then].
      specialize (IH m Hn HM Hi Hjs).
      destruct (for_exn js (gerar_matriz_j raiz cidades i) m) as [e|m'].
      * destruct IH as (j & Hjin & Hne & He). exists j.
        split; [now apply list_elem_of_further|now split].
      * destruct IH as [HM' Hent]. split; [assumption|]. intros a b.
        specialize (Hent a b).
        destruct (decide (a = i /\ b ∈ js /\ b <> i)) as [(-> & Hb & Hne)|Hno].
        -- rewrite decide_True; [assumption|]. split; [reflexivity|].
           split; [now apply list_elem_of_further|assumption].
        -- rewrite decide_False; [assumption|]. intros (-> & Hb & Hne). apply Hno.
           split; [reflexivity|]. split; [|assumption].
           apply elem_of_cons in Hb as [->|Hb]; [contradiction|assumption].
    + apply Nat.eqb_neq in E.
      destruct (lookup_lt_is_Some_2 cidades i) as [ci Hci]; [lia|].
      destruct (lookup_lt_is_Some_2 cidades j) as [cj Hcj]; [lia|].
      unfold cidade. rewrite Hci, Hcj. cbn [and_then].
      destruct (distancia_euclidiana raiz ci cj) as [e|d] eqn:Ed; cbn [and_then].
      { exists j. split; [apply list_elem_of_here|]. split; [congruence|].
        now rewrite (nth_lookup_Some _ _ _ _ Hci), (nth_lookup_Some _ _ _ _ Hcj). }
      destruct (matriz_set_spec n m i j d HM Hi Hj) as (m1 & -> & HM1 & Hent1).
      cbn [and_then]. specialize (IH m1 Hn HM1 Hi Hjs).
      destruct (for_exn js (gerar_matriz_j raiz cidades i) m1) as [e|m'].
      * destruct IH as (j' & Hjin & Hne & He). exists j'.
        split; [now apply list_elem_of_further|now split].
      * destruct IH as [HM' Hent]. split; [assumption|]. intros a b.
        specialize (Hent a b). rewrite Hent1 in Hent.
        destruct (decide (a = i /\ b ∈ js /\ b <> i)) as [(-> & Hb & Hne)|Hno].
        -- rewrite decide_True; [assumption|]. split; [reflexivity|].
           split; [now apply list_elem_of_further|assumption].
        -- destruct (decide (a = i /\ b = j)) as [[-> ->]|Hno1].
           ++ rewrite decide_True.
              ** rewrite (nth_lookup_Some _ _ _ _ Hci), (nth_lookup_Some _ _ _ _ Hcj).
                 now rewrite Hent.
              ** split; [reflexivity|]. split; [apply list_elem_of_here|congruence].
           ++ rewrite decide_False; [assumption|]. intros (-> & Hb & Hne).
              apply elem_of_cons in Hb as [->|Hb]; [now apply Hno1|]. now apply Hno.
Qed.

Lemma gerar_matriz_rows n cidades ixs : forall m,
  length cidades = n -> square n m -> Forall (fun i => i < n) ixs ->
  match for_exn ixs
          (fun i matriz => for_exn (range 0 n) (gerar_matriz_j raiz cidades i) matriz) m
  with
  | inr m' =>
      square n m'
      /\ forall a b,
           if decide (a ∈ ixs /\ b < n /\ b <> a)
           then distancia_euclidiana raiz (nth a cidades (0, 0)%Z) (nth b cidades (0, 0)%Z)
                = inr (cell zero m' a b)
           else cell zero m' a b = cell zero m a b
  | inl e =>
      exists i j, i ∈ ixs /\ j < n /\ j <> i
        /\ distancia_euclidiana raiz (nth i cidades (0, 0)%Z) (nth j cidades (0, 0)%Z)
           = inl e
  end.
Proof.
  induction ixs as [|i ixs IH]; intros m Hn HM Hixs.
  - cbn [for_exn]. split; [assumption|]. intros a b.
    rewrite decide_False; [reflexivity|]. intros (Ha & _). now apply elem_of_nil in Ha.
  - apply Forall_cons in Hixs as [Hi Hixs]. cbn [for_exn].
    pose proof (gerar_matriz_row n cidades i (range 0 n) m Hn HM Hi) as Hrow.
    destruct (for_exn (range 0 n) (gerar_matriz_j raiz cidades i) m) as [e|m1];
      cbn [and_then].
    { destruct Hrow as (j & Hj & Hne & He).
      { apply Forall_forall. intros j Hj%elem_of_range. lia. }
      apply elem_of_range in Hj. exists i, j.
      split; [apply list_elem_of_here|]. split; [lia|now split]. }
    destruct Hrow as [HM1 Hent1].
    { apply Forall_forall. intros j Hj%elem_of_range. lia. }
    specialize (IH m1 Hn HM1 Hixs).
    destruct (for_exn ixs _ m1) as [e|m'].
    + destruct IH as (i' & j & Hi' & Hj & Hne & He). exists i', j.
      split; [now apply list_elem_of_further|]. split; [assumption|now split].
    + destruct IH as [HM' Hent]. split; [assumption|]. intros a b.
      specialize (Hent a b). specialize (Hent1 a b).
      destruct (decide (a ∈ ixs /\ b < n /\ b <> a)) as [(Ha & Hb & Hne)|Hno].
      * rewrite decide_True; [assumption|].
        split; [now apply list_elem_of_further|now split].
      * destruct (decide (a = i /\ b ∈ range 0 n /\ b <> i)) as [(-> & Hb & Hne)|Hno1].
        -- apply elem_of_range in Hb. rewrite decide_True.
           ++ now rewrite Hent.
           ++ split; [apply list_elem_of_here|]. split; [lia|assumption].
        -- rewrite decide_False; [congruence|]. intros (Ha & Hb & Hne).
           apply elem_of_cons in Ha as [->|Ha]; [|now apply Hno].
           apply Hno1. split; [reflexivity|]. split; [apply elem_of_range; lia|assumption].
Qed.

Lemma square_zeros n : square n (replicate n (replicate n zero)).
Proof.
  split; [apply length_replicate|]. apply Forall_replicate. apply length_replicate.
Qed.

Lemma cell_zeros n a b : cell zero (replicate n (replicate n zero)) a b = zero.
Proof.
  unfold cell. rewrite (nth_lookup _ a []).
  destruct (replicate n (replicate n zero) !! a) as [row|] eqn:E; cbn.
  - apply lookup_replicate in E as [-> _]. rewrite nth_lookup.
    destruct (replicate n zero !! b) as [d|] eqn:E'; cbn; [|reflexivity].
    now apply lookup_replicate in E' as [-> _].
  - now destruct b.
Qed.

(** What [gerar_matriz_distancias] answers. *)
Lemma gerar_matriz_cases cidades :
  match gerar_matriz_distancias zero raiz cidades with
  | inr m =>
      square (length cidades) m
      /\ (forall a, cell zero m a a = zero)
      /\ (forall a b ca cb, a <> b -> cidades !! a = Some ca -> cidades !! b = Some cb ->
            distancia_euclidiana raiz ca cb = inr (cell zero m a b))
      /\ (forall a b, cell zero m a b = cell zero m b a)
  | inl e =>
      exists a b ca cb, a <> b /\ cidades !! a = Some ca /\ cidades !! b = Some cb
        /\ distancia_euclidiana raiz ca cb = inl e
  end.
Proof.
  set (n := length cidades). unfold gerar_matriz_distancias. fold n.
  pose proof (gerar_matriz_rows n cidades (range 0 n) (replicate n (replicate n zero))
                eq_refl (square_zeros n)) as H.
  destruct (for_exn (range 0 n) _ (replicate n (replicate n zero))) as [e|m].
  - destruct H as (i & j & Hi & Hj & Hne & He).
    { apply Forall_forall. intros i Hi%elem_of_range. lia. }
    apply elem_of_range in Hi.
    destruct (lookup_lt_is_Some_2 cidades i) as [ci Hci]; [fold n; lia|].
    destruct (lookup_lt_is_Some_2 cidades j) as [cj Hcj]; [fold n; lia|].
    exists i, j, ci, cj. split; [congruence|]. split; [assumption|]. split; [assumption|].
    now rewrite (nth_lookup_Some _ _ _ _ Hci), (nth_lookup_Some _ _ _ _ Hcj) in He.
  - destruct H as [HM Hent].
    { apply Forall_forall. intros i Hi%elem_of_range. lia. }
    split; [assumption|]. split; [|split].
    + intros a. specialize (Hent a a).
      rewrite decide_False in Hent by (intros (_ & _ & ?); congruence).
      now rewrite Hent, cell_zeros.
    + intros a b ca cb Hne Ha Hb. specialize (Hent a b).
      pose proof (lookup_lt_Some _ _ _ Ha). pose proof (lookup_lt_Some _ _ _ Hb).
      rewrite decide_True in Hent.
      * now rewrite (nth_lookup_Some _ _ _ _ Ha), (nth_lookup_Some _ _ _ _ Hb) in Hent.
      * split; [apply elem_of_range; lia|]. split; [assumption|congruence].
    + intros a b. pose proof (Hent a b) as Hab. pose proof (Hent b a) as Hba.
      destruct (decide (a ∈ range 0 n /\ b < n /\ b <> a)) as [(Ha & Hb & Hne)|Hno].
      * apply elem_of_range in Ha. rewrite decide_True in Hba.
        -- rewrite distancia_euclidiana_sym in Hba. congruence.
        -- split; [apply elem_of_range; lia|]. split; [lia|congruence].
      * rewrite decide_False in Hba.
        -- now rewrite Hab, Hba, !cell_zeros.
        -- intros (Hb & Ha & Hne). apply elem_of_range in Hb. apply Hno.
           split; [apply elem_of_range; lia|]. split; [lia|congruence].
Qed.

End DistanciasFacts.

(** ** The cost as a walk *)

Section Walk.
Variable distancias : list (list Z).
Implicit Types (l v : list nat).

Lemma edge_sum_path l :
  foldr Z.add 0%Z (map (fun i => edge_cost distancias l i (i + 1)) (seq 0 (length l - 1)))
  = path_cost distancias l.
Proof.
  induction l as [|a l IH]; [reflexivity|].
  destruct l as [|b l]; [reflexivity|].
  cbn [length] in *. replace (S (S (length l)) - 1) with (S (length l)) by lia.
  replace (S (length l) - 1) with (length l) in IH by lia.
  change (path_cost distancias (a :: b :: l))
    with (entry distancias a b + path_cost distancias (b :: l))%Z.
  cbn [seq map foldr]. f_equal. rewrite <- IH.
  rewrite <- seq_shift, map_map. reflexivity.
Qed.

Lemma tour_cost_spec_walk l :
  l <> [] -> tour_cost_spec distancias l = (path_cost distancias l + closing distancias l)%Z.
Proof.
  intros Hne. unfold tour_cost_spec. cbn zeta. rewrite edge_sum_path. f_equal.
  unfold edge_cost, closing, last_city, first_city. f_equal.
  - destruct l as [|a l]; [contradiction|]. cbn [length].
    replace (S (length l) - 1) with (length l) by lia.
    clear Hne. revert a. induction l as [|b l IH]; intros a; [reflexivity|].
    exact (IH b).
  - now destruct l.
Qed.

Lemma path_cost_app l1 l2 :
  l1 <> [] -> l2 <> [] ->
  path_cost distancias (l1 ++ l2)
  = (path_cost distancias l1 + entry distancias (last_city l1) (first_city l2)
     + path_cost distancias l2)%Z.
Proof.
  intros H1 H2. induction l1 as [|a l1 IH]; [contradiction|].
  destruct l1 as [|b l1].
  - destruct l2 as [|c l2]; [contradiction|]. cbn. lia.
  - specialize (IH ltac:(discriminate)).
    change (path_cost distancias ((a :: b :: l1) ++ l2))
      with (entry distancias a b + path_cost distancias ((b :: l1) ++ l2))%Z.
    rewrite IH.
    change (path_cost distancias (a :: b :: l1))
      with (entry distancias a b + path_cost distancias (b :: l1))%Z.
    change (last_city (a :: b :: l1)) with (last_city (b :: l1)). lia.
Qed.

Lemma last_rev l : last_city (rev l) = first_city l.
Proof. destruct l as [|a l]; [reflexivity|]. cbn [rev]. apply List.last_last. Qed.

Lemma hd_rev l : first_city (rev l) = last_city l.
Proof.
  rewrite <- (rev_involutive l) at 2. now rewrite last_rev.
Qed.

Lemma last_app_r l1 l2 : l2 <> [] -> last_city (l1 ++ l2) = last_city l2.
Proof.
  intros H. unfold last_city. induction l1 as [|a l1 IH]; [reflexivity|].
  cbn [app]. destruct (l1 ++ l2) eqn:E; [|cbn [List.last] in *; exact IH].
  apply app_eq_nil in E as [_ ->]. contradiction.
Qed.

Lemma hd_app_l l1 l2 : l1 <> [] -> first_city (l1 ++ l2) = first_city l1.
Proof. now destruct l1. Qed.

Lemma rev_nonempty l : l <> [] -> rev l <> [].
Proof. intros H E. apply (f_equal (@rev nat)) in E. rewrite rev_involutive in E. now apply H. Qed.

Hypothesis Hsym : forall a b, entry distancias a b = entry distancias b a.

Lemma path_cost_rev l : path_cost distancias (rev l) = path_cost distancias l.
Proof.
  induction l as [|a l IH]; [reflexivity|].
  destruct l as [|b l]; [reflexivity|].
  cbn [rev] in *. rewrite path_cost_app; [|apply (rev_nonempty (b :: l)); discriminate|discriminate].
  rewrite IH. change (rev l ++ [b]) with (rev (b :: l)). rewrite last_rev.
  change (path_cost distancias (a :: b :: l))
    with (entry distancias a b + path_cost distancias (b :: l))%Z.
  cbn [first_city hd]. change (path_cost distancias [a]) with 0%Z. rewrite (Hsym b a). lia.
Qed.

Lemma closing_rev l : closing distancias (rev l) = closing distancias l.
Proof. unfold closing. rewrite last_rev, hd_rev. apply Hsym. Qed.

End Walk.

Section WalkMoves.
Variable distancias : list (list Z).
Implicit Types (l v : list nat).

Lemma first_city_nth l : first_city l = nth 0 l 0.
Proof. now destruct l. Qed.

Lemma last_city_nth l : last_city l = nth (length l - 1) l 0.
Proof.
  unfold last_city. induction l as [|a l IH]; [reflexivity|].
  destruct l as [|b l]; [reflexivity|].
  change (List.last (a :: b :: l) 0) with (List.last (b :: l) 0). rewrite IH.
  cbn [length]. replace (S (S (length l)) - 1) with (S (S (length l) - 1)) by lia.
  reflexivity.
Qed.

Lemma nth_take l k m : k < m -> nth k (take m l) 0 = nth k l 0.
Proof. intros H. rewrite !nth_lookup. now rewrite lookup_take_lt. Qed.

Lemma nth_drop l k m : nth k (drop m l) 0 = nth (m + k) l 0.
Proof. rewrite !nth_lookup. now rewrite lookup_drop. Qed.

(** A rotation of the tour costs the same. *)
Lemma tour_cost_spec_rotate l1 l2 :
  tour_cost_spec distancias (l2 ++ l1) = tour_cost_spec distancias (l1 ++ l2).
Proof.
  destruct l1 as [|a l1]; [now rewrite app_nil_r|].
  destruct l2 as [|b l2]; [now rewrite app_nil_r|].
  rewrite !tour_cost_spec_walk by discriminate.
  rewrite !path_cost_app by discriminate. unfold closing.
  rewrite !last_app_r, !hd_app_l by discriminate. lia.
Qed.

Hypothesis Hsym : forall a b, entry distancias a b = entry distancias b a.

(** On a symmetric matrix the tour walked backwards costs the same. *)
Lemma tour_cost_spec_rev l : tour_cost_spec distancias (rev l) = tour_cost_spec distancias l.
Proof.
  destruct l as [|a l]; [reflexivity|].
  rewrite !tour_cost_spec_walk by (try apply rev_nonempty; discriminate).
  now rewrite path_cost_rev, closing_rev.
Qed.

(** On a symmetric matrix a move changes the cost by [delta_2opt]. *)
Lemma tour_cost_spec_two_opt v i j :
  1 <= i -> i < j -> j < length v ->
  tour_cost_spec distancias (two_opt v i j)
  = (tour_cost_spec distancias v + delta_2opt distancias v i j)%Z.
Proof.
  intros Hi Hj Hn. rewrite two_opt_eq by lia.
  rewrite (split3 v i j) at 4 by lia.
  set (A := take i v). set (S := take (j - i) (drop i v)). set (B := drop j v).
  assert (HA : A <> []).
  { intros E. apply (f_equal length) in E. unfold A in E. rewrite length_take in E.
    cbn in E. lia. }
  assert (HS : S <> []).
  { intros E. apply (f_equal length) in E. unfold S in E.
    rewrite length_take, length_drop in E. cbn in E. lia. }
  assert (HB : B <> []).
  { intros E. apply (f_equal length) in E. unfold B in E. rewrite length_drop in E.
    cbn in E. lia. }
  assert (HSB : S ++ B <> []) by (intros [E _]%app_eq_nil; contradiction).
  assert (HRB : rev S ++ B <> []) by (intros [_ E]%app_eq_nil; contradiction).
  rewrite !tour_cost_spec_walk by (intros [E _]%app_eq_nil; contradiction).
  rewrite (path_cost_app distancias A (rev S ++ B)) by assumption.
  rewrite (path_cost_app distancias A (S ++ B)) by assumption.
  rewrite (path_cost_app distancias (rev S) B) by (try apply rev_nonempty; assumption).
  rewrite (path_cost_app distancias S B) by assumption.
  unfold closing. rewrite !last_app_r by assumption.
  rewrite !hd_app_l by (try apply rev_nonempty; assumption).
  rewrite path_cost_rev by assumption. rewrite last_rev, hd_rev.
  assert (last_city A = nth (i - 1) v 0) as ->.
  { rewrite last_city_nth. unfold A. rewrite length_take.
    replace (i `min` length v) with i by lia. apply nth_take. lia. }
  assert (first_city S = nth i v 0) as ->.
  { rewrite first_city_nth. unfold S. rewrite nth_take by lia. rewrite nth_drop.
    f_equal. lia. }
  assert (last_city S = nth (j - 1) v 0) as ->.
  { rewrite last_city_nth. unfold S. rewrite length_take, length_drop.
    replace ((j - i) `min` (length v - i)) with (j - i) by lia.
    rewrite nth_take by lia. rewrite nth_drop. f_equal. lia. }
  assert (first_city B = nth j v 0) as ->.
  { rewrite first_city_nth. unfold B. rewrite nth_drop. f_equal. lia. }
  unfold delta_2opt, edge_cost. lia.
Qed.

End WalkMoves.

(** ** Reading the cost: what it leaves alone and when it fails *)

Lemma fold_opt_fail {A S} (xs : list A) (f : A -> S -> option S) x :
  x ∈ xs -> (forall s, f x s = None) -> forall s, fold_opt xs f s = None.
Proof.
  intros Hx Hf. induction xs as [|y xs IH]; intros s; [now apply elem_of_nil in Hx|].
  cbn [fold_opt]. apply elem_of_cons in Hx as [<-|Hx]; [now rewrite Hf|].
  destruct (f y s); [now apply IH|reflexivity].
Qed.

Lemma custo_de_no_row (distancias : list (list Z)) v a :
  a ∈ v -> distancias !! a = None -> custo_de distancias v = None.
Proof.
  intros [k Hk]%list_elem_of_lookup_1 Hrow. pose proof (lookup_lt_Some _ _ _ Hk) as Hlt.
  unfold custo_de.
  destruct (decide (k + 1 < length v)) as [Hin|Hlast].
  - rewrite (fold_opt_fail _ _ k); [reflexivity|apply elem_of_range; lia|].
    intros c. unfold passo_custo. rewrite Hk. cbn. now rewrite Hrow.
  - destruct (fold_opt _ _ _) as [c|]; [|reflexivity]. cbn [mbind option_bind].
    rewrite last_lookup. replace (pred (length v)) with k by lia. rewrite Hk. cbn.
    now rewrite Hrow.
Qed.

Lemma custo_de_bad distancias v :
  v = [] \/ (exists a, a ∈ v /\ length distancias <= a) -> custo_de distancias v = None.
Proof.
  intros [->|(a & Ha & Hlen)]; [reflexivity|].
  apply (custo_de_no_row distancias v a Ha). now apply lookup_ge_None.
Qed.

Section ReadOnly.
Context {G : Type}.
Implicit Types (s : state G) (T : list nat) (r : loc).

Lemma calcular_custo_same_state distancias r s c s' :
  calcular_custo r distancias s = Ret c s' -> s' = s.
Proof.
  destruct (heap s !! r) as [T|] eqn:Hr.
  - rewrite (calcular_custo_sim _ _ _ _ Hr).
    destruct (custo_de distancias T); [|discriminate]. now intros [= _ <-].
  - unfold calcular_custo, bind, list_len, bind, heap_get. rewrite Hr. discriminate.
Qed.

(** X3.  When [calcular_custo] returns, the state is the one it started
    in: the function reads its tour and changes nothing. *)
Theorem calcular_custo_read_only distancias r s c s' :
  calcular_custo r distancias s = Ret c s' -> s' = s.
Proof. exact (calcular_custo_same_state distancias r s c s'). Qed.

(** X4.  On an empty tour, and on a tour with a city that has no row in the
    matrix, [calcular_custo] raises [IndexError]. *)
Theorem calcular_custo_index_error distancias T r s :
  heap s !! r = Some T ->
  T = [] \/ (exists a, a ∈ T /\ length distancias <= a) ->
  calcular_custo r distancias s = Raise IndexError.
Proof.
  intros Hr Hbad. rewrite (calcular_custo_sim _ _ _ _ Hr).
  now rewrite (custo_de_bad distancias T Hbad).
Qed.

Lemma busca_local_no_move distancias T r s c fuel :
  heap s !! r = Some T -> length T <= 3 ->
  calcular_custo r distancias s = Ret c s -> 1 <= fuel ->
  busca_local fuel r distancias s = Ret r s.
Proof.
  intros Hr Hlen Hc Hfuel. unfold busca_local.
  erewrite bind_ret_eq; [|exact Hc].
  assert (Hpass : busca_local_pass distancias (r, r, c, true) s = Ret (r, r, c, false) s).
  { unfold busca_local_pass. erewrite bind_ret_eq; [|apply (list_len_eq r T), Hr].
    replace (range 1 (length T - 2)) with (@nil nat); [reflexivity|].
    unfold range. replace (length T - 2 - 1) with 0 by lia. reflexivity. }
  assert (Hloop : while_loop fuel (fun '(_, _, _, melhorou) => ret melhorou)
            (busca_local_pass distancias) (r, r, c, true) s = Ret (r, r, c, false) s).
  { destruct fuel as [|fuel]; [lia|]. cbn [while_loop]. unfold bind at 1. cbn [ret].
    rewrite (bind_ret_eq _ _ _ _ _ Hpass). now destruct fuel. }
  now rewrite (bind_ret_eq _ _ _ _ _ Hloop).
Qed.

(** X8.  A tour of at most three cities has no move to scan: given one pass,
    [busca_local] returns the reference it was given and leaves the state as
    it is, nothing allocated. *)
Theorem busca_local_short distancias T r s c fuel :
  heap s !! r = Some T -> length T <= 3 ->
  calcular_custo r distancias s = Ret c s -> 1 <= fuel ->
  busca_local fuel r distancias s = Ret r s.
Proof. exact (busca_local_no_move distancias T r s c fuel). Qed.

(** X9.  On an empty tour, and on a tour with a city that has no row in the
    matrix, [busca_local] raises [IndexError] before its loop, whatever the
    number of passes allowed. *)
Theorem busca_local_index_error distancias T r s fuel :
  heap s !! r = Some T ->
  T = [] \/ (exists a, a ∈ T /\ length distancias <= a) ->
  busca_local fuel r distancias s = Raise IndexError.
Proof.
  intros Hr Hbad. unfold busca_local, bind.
  rewrite (calcular_custo_sim _ _ _ _ Hr).
  now rewrite (custo_de_bad distancias T Hbad).
Qed.

End ReadOnly.

Section PerturbarErrors.
Context {G : Type}.
Variable sample2 : nat -> G -> (nat * nat) * G.

Lemma perturbar_too_short (T : list nat) r (s : state G) :
  heap s !! r = Some T -> length T < 2 ->
  perturbar sample2 r s = Raise ValueError.
Proof.
  intros Hr Hlen. destruct s as [h g]. cbn in Hr. unfold perturbar.
  erewrite bind_ret_eq.
  2:{ unfold list_copy. erewrite bind_ret_eq; [|apply heap_get_eq, Hr]. reflexivity. }
  cbn [heap gen].
  erewrite bind_ret_eq; [|apply (list_len_eq r T); now apply lookup_old].
  unfold bind, random_sample2.
  destruct (length T <? 2) eqn:E; [reflexivity|]. apply Nat.ltb_ge in E. lia.
Qed.

(** X11.  On a tour with fewer than two cities [perturbar] raises
    [ValueError], whatever the generator. *)
Theorem perturbar_value_error (T : list nat) r (s : state G) :
  heap s !! r = Some T -> length T < 2 ->
  perturbar sample2 r s = Raise ValueError.
Proof. exact (perturbar_too_short T r s). Qed.

End PerturbarErrors.

(** ** Moves and sorting *)

(** X10.  A move undoes itself: the candidate of [(i, j)] on the candidate
    of [(i, j)] is the tour one started from. *)
Theorem two_opt_involutive (v : list nat) i j :
  1 <= i -> i <= j -> j <= length v -> two_opt (two_opt v i j) i j = v.
Proof.
  intros Hi Hj Hn.
  assert (HA : length (take i v) = i) by (rewrite length_take; lia).
  assert (HS : length (rev (take (j - i) (drop i v))) = j - i)
    by (rewrite length_rev, length_take, length_drop; lia).
  rewrite (two_opt_eq (two_opt v i j)) by assumption.
  rewrite (two_opt_eq v) by assumption.
  set (A := take i v) in *. set (R := rev (take (j - i) (drop i v))) in *.
  set (B := drop j v).
  assert (Hd : drop i (A ++ R ++ B) = R ++ B) by now apply drop_app_length'.
  replace (drop j (A ++ R ++ B)) with B.
  2:{ replace j with (i + (j - i)) at 1 by lia. rewrite <- drop_drop, Hd.
      symmetry. now apply drop_app_length'. }
  rewrite Hd, (take_app_length' A), (take_app_length' R) by (symmetry; assumption).
  unfold R. rewrite rev_involutive. symmetry. now apply split3.
Qed.

Lemma filter_sort_insert d x l :
  filter (fun y : nat * Z => snd y = d) (sort_insert x l)
  = filter (fun y : nat * Z => snd y = d) (x :: l).
Proof.
  induction l as [|y l IH]; [reflexivity|]. cbn [sort_insert].
  destruct (snd y <? snd x)%Z eqn:E; [|reflexivity].
  apply Z.ltb_lt in E. rewrite filter_cons, IH, !filter_cons.
  destruct (decide (snd y = d)) as [Hy|Hy]; [|reflexivity].
  destruct (decide (snd x = d)) as [Hx|Hx]; [lia|reflexivity].
Qed.

(** X16.  The sort of the candidates is stable: candidates of one cost come
    out in the order they went in. *)
Theorem sort_by_cost_stable (l : list (nat * Z)) (d : Z) :
  filter (fun y : nat * Z => snd y = d) (sort_by_cost l)
  = filter (fun y : nat * Z => snd y = d) l.
Proof.
  induction l as [|x l IH]; [reflexivity|].
  change (sort_by_cost (x :: l)) with (sort_insert x (sort_by_cost l)).
  now rewrite filter_sort_insert, !filter_cons, IH.
Qed.

(** ** The matrix of distances, and the cost on it *)

(** X1.  [gerar_matriz_distancias] returns a matrix when every distance
    between two of the cities converts, and otherwise raises what
    [math.sqrt] raised on one of them.  For [n] cities the matrix is
    [n x n], with the integer it was filled with on the diagonal and the
    distance between city [a] and city [b] at [(a, b)]; it is symmetric,
    whatever [math.sqrt] returns. *)
Theorem gerar_matriz_distancias_spec {D} (zero : D) (raiz : Z -> exn + D)
    (cidades : list (Z * Z)) :
  match gerar_matriz_distancias zero raiz cidades with
  | inr m =>
      square (length cidades) m
      /\ (forall a, cell zero m a a = zero)
      /\ (forall a b ca cb, a <> b -> cidades !! a = Some ca -> cidades !! b = Some cb ->
            distancia_euclidiana raiz ca cb = inr (cell zero m a b))
      /\ (forall a b, cell zero m a b = cell zero m b a)
  | inl e =>
      exists a b ca cb, a <> b /\ cidades !! a = Some ca /\ cidades !! b = Some cb
        /\ distancia_euclidiana raiz ca cb = inl e
  end.
Proof. exact (gerar_matriz_cases zero raiz cidades). Qed.

Section CostFacts.
Context {G : Type}.
Implicit Types (s : state G) (T v : list nat) (r : loc).

(** X2.  With integer distances, where sums are exact: on a symmetric
    [n x n] matrix and a tour of cities below [n], the tour walked
    backwards costs the same. *)
Theorem calcular_custo_reversal distancias n T r r' s c :
  symmetric distancias -> square n distancias -> Forall (fun a => a < n) T ->
  heap s !! r = Some T -> heap s !! r' = Some (rev T) ->
  calcular_custo r distancias s = Ret c s ->
  calcular_custo r' distancias s = Ret c s.
Proof.
  intros Hsym HM HT Hr Hr' Hc.
  rewrite (calcular_custo_sim _ _ _ _ Hr) in Hc.
  assert (Hne : T <> []) by (intros E; rewrite E in Hc; discriminate).
  pose proof (tour_defined_on n _ _ Hne HT HM) as Hd.
  assert (Hd' : defined_on distancias (rev T)).
  { apply (defined_on_perm distancias T); [apply Permutation_rev|assumption]. }
  rewrite (custo_de_spec _ _ Hd) in Hc. inversion Hc; subst c.
  rewrite (calcular_custo_sim _ _ _ _ Hr'), (custo_de_spec _ _ Hd').
  now rewrite (tour_cost_spec_rev distancias Hsym).
Qed.

(** X5.  Two cities make a there-and-back tour: on the matrix built from
    them, the tour costs twice their distance. *)
Theorem two_cities_there_and_back (raiz : Z -> exn + Z) (c0 c1 : Z * Z) (d : Z) T r s :
  distancia_euclidiana raiz c0 c1 = inr d ->
  heap s !! r = Some T -> T = [0; 1] \/ T = [1; 0] ->
  exists m,
    gerar_matriz_distancias 0%Z raiz [c0; c1] = inr m
    /\ calcular_custo r m s = Ret (2 * d)%Z s.
Proof.
  intros Hd Hr HT.
  exists [[0%Z; d]; [d; 0%Z]]. split.
  - unfold gerar_matriz_distancias. cbn. rewrite Hd. cbn.
    rewrite (distancia_euclidiana_sym raiz c1 c0), Hd. reflexivity.
  - rewrite (calcular_custo_sim _ _ _ _ Hr).
    destruct HT as [-> | ->]; cbn; do 2 f_equal; lia.
Qed.

(** X6.  With integer distances, where sums are exact, it does not matter
    where a tour starts: on a tour of cities below [n] and an [n x n]
    matrix, a rotation of the tour costs the same. *)
Theorem calcular_custo_rotation distancias n l1 l2 r r' s c :
  Forall (fun a => a < n) (l1 ++ l2) -> square n distancias ->
  heap s !! r = Some (l1 ++ l2) -> heap s !! r' = Some (l2 ++ l1) ->
  calcular_custo r distancias s = Ret c s ->
  calcular_custo r' distancias s = Ret c s.
Proof.
  intros HT HM Hr Hr' Hc.
  rewrite (calcular_custo_sim _ _ _ _ Hr) in Hc.
  assert (Hne : l1 ++ l2 <> []) by (intros E; rewrite E in Hc; discriminate).
  pose proof (tour_defined_on n _ _ Hne HT HM) as Hd.
  assert (Hd' : defined_on distancias (l2 ++ l1)).
  { apply (defined_on_perm distancias (l1 ++ l2)); [apply Permutation_app_comm|assumption]. }
  rewrite (custo_de_spec _ _ Hd) in Hc. inversion Hc; subst c.
  rewrite (calcular_custo_sim _ _ _ _ Hr'), (custo_de_spec _ _ Hd').
  now rewrite tour_cost_spec_rotate.
Qed.

(** X7.  With integer distances, where sums are exact: on a symmetric
    [n x n] matrix and a tour of cities below [n], the candidate of a move
    [(i, j)] with [1 <= i < j < len] costs what the tour costs plus
    [delta_2opt]: the edges [(v[i-1], v[j-1])] and [(v[i], v[j])] come in,
    the edges [(v[i-1], v[i])] and [(v[j-1], v[j])] go out. *)
Theorem calcular_custo_two_opt_delta distancias n v i j r r' s c :
  symmetric distancias -> square n distancias -> Forall (fun a => a < n) v ->
  1 <= i -> i < j -> j < length v ->
  heap s !! r = Some v -> heap s !! r' = Some (two_opt v i j) ->
  calcular_custo r distancias s = Ret c s ->
  calcular_custo r' distancias s = Ret (c + delta_2opt distancias v i j)%Z s.
Proof.
  intros Hsym HM HT Hi Hj Hn Hr Hr' Hc.
  assert (Hne : v <> []) by (intros ->; cbn in Hn; lia).
  pose proof (tour_defined_on n _ _ Hne HT HM) as Hd.
  assert (Hd' : defined_on distancias (two_opt v i j)).
  { apply (defined_on_perm distancias v); [symmetry; apply two_opt_perm; lia|assumption]. }
  rewrite (calcular_custo_sim _ _ _ _ Hr), (custo_de_spec _ _ Hd) in Hc.
  inversion Hc; subst c.
  rewrite (calcular_custo_sim _ _ _ _ Hr'), (custo_de_spec _ _ Hd').
  now rewrite (tour_cost_spec_two_opt distancias Hsym) by assumption.
Qed.

End CostFacts.

(** ** Which object the local search returns *)

Section Aliasing.
Context {G : Type}.
Implicit Types (s : state G) (T v : list nat) (r : loc).

Lemma for_each_inv {A S} (P : S -> state G -> Prop) (body : A -> S -> M G S)
    (xs : list A) :
  (forall x st s st' s', P st s -> body x st s = Ret st' s' -> P st' s') ->
  forall st s st' s', P st s -> for_each xs body st s = Ret st' s' -> P st' s'.
Proof.
  intros Hbody. induction xs as [|x xs IH]; intros st s st' s' HP Hrun.
  - cbn in Hrun. inversion Hrun; subst. assumption.
  - cbn [for_each] in Hrun. apply bind_inv in Hrun as (st1 & s1 & H1 & Hrun).
    eapply IH; [|exact Hrun]. eapply Hbody; eassumption.
Qed.

Lemma extends_length s s' : extends s s' -> length (heap s) <= length (heap s').
Proof. intros [_ [e ->]]. rewrite length_app. lia. Qed.

Lemma busca_local_j_tracks distancias s0 m0 c0 i j st s st' s' :
  tracks distancias s0 m0 c0 st s ->
  busca_local_j distancias i j st s = Ret st' s' ->
  tracks distancias s0 m0 c0 st' s'.
Proof.
  destruct st as [[m c] b]. intros (Hext & (v & Hm & Hcv) & Hcase) Hrun.
  cbn [fst snd] in *. unfold busca_local_j in Hrun.
  destruct (j - i =? 1).
  { inversion Hrun; subst. split; [assumption|]. split; [now exists v|assumption]. }
  destruct s as [h g]. cbn [heap] in Hm.
  unfold bind at 1 in Hrun. unfold list_copy, bind at 1 in Hrun.
  rewrite (heap_get_eq m v) in Hrun by assumption. cbn [heap_new heap gen] in Hrun.
  unfold bind at 1 in Hrun. unfold list_slice_down, bind at 1 in Hrun.
  rewrite (heap_get_eq m v) in Hrun by (now apply lookup_old). cbn [ret] in Hrun.
  unfold bind at 1 in Hrun. unfold list_slice_assign, bind at 1 in Hrun.
  rewrite (heap_get_eq (length h) v) in Hrun by apply lookup_fresh.
  rewrite (heap_set_eq (length h) v) in Hrun by apply lookup_fresh.
  cbn [heap gen] in Hrun. rewrite insert_fresh in Hrun. fold (two_opt v i j) in Hrun.
  unfold bind at 1 in Hrun.
  rewrite (calcular_custo_sim _ (length h) (two_opt v i j)) in Hrun by apply lookup_fresh.
  destruct (custo_de distancias (two_opt v i j)) as [c'|] eqn:Hc'; [|discriminate].
  assert (Hext' : extends s0 (mkState (h ++ [two_opt v i j]) g)).
  { eapply extends_trans; [exact Hext|apply extends_new]. }
  destruct (c' <? c)%Z eqn:Hlt; inversion Hrun; subst; (split; [assumption|]).
  - apply Z.ltb_lt in Hlt. cbn [fst snd]. split.
    + exists (two_opt v i j). split; [apply lookup_fresh|assumption].
    + right. split; [reflexivity|]. apply extends_length in Hext. cbn [heap] in Hext.
      split; [assumption|].
      destruct Hcase as [[= -> -> ->]|(_ & _ & Hc)]; lia.
  - cbn [fst snd]. split; [|assumption].
    exists v. split; [now apply lookup_old|assumption].
Qed.

Lemma busca_local_pass_tracks distancias m c s st' s' :
  (exists v, heap s !! m = Some v /\ custo_de distancias v = Some c) ->
  busca_local_pass distancias (m, m, c, true) s = Ret st' s' ->
  st'.1.1.1 = st'.1.1.2
  /\ tracks distancias s m c (st'.1.1.2, st'.1.2, st'.2) s'.
Proof.
  intros Hv Hrun. unfold busca_local_pass in Hrun.
  apply bind_inv in Hrun as (n & s1 & Hlen & Hrun).
  assert (s1 = s) as ->.
  { unfold list_len in Hlen. apply bind_inv in Hlen as (v & s2 & Hget & Hret).
    unfold heap_get in Hget. destruct (heap s !! m); [|discriminate].
    inversion Hget; subst. now inversion Hret. }
  apply bind_inv in Hrun as ([[m' c'] b'] & s2 & Hfor & Hret).
  inversion Hret; subst. cbn [fst snd]. split; [reflexivity|].
  revert Hfor. apply for_each_inv.
  - intros i st s3 st3 s4 HP Hi. unfold busca_local_i in Hi.
    apply bind_inv in Hi as (n' & s5 & Hlen' & Hi).
    assert (s5 = s3) as ->.
    { unfold list_len in Hlen'. apply bind_inv in Hlen' as (v & s6 & Hget & Hret').
      unfold heap_get in Hget. destruct (heap s3 !! m); [|discriminate].
      inversion Hget; subst. now inversion Hret'. }
    revert Hi. apply for_each_inv; [|assumption].
    intros j st5 s5 st6 s6. apply busca_local_j_tracks.
  - split; [apply extends_refl|]. split; [assumption|]. now left.
Qed.

(** What the loop keeps from pass to pass, from the input [r] of cost [c0]
    in the state [s0]. *)
Lemma busca_while_tracks distancias s0 r c0 fuel : forall m c s st' s',
  extends s0 s ->
  (exists v, heap s !! m = Some v /\ custo_de distancias v = Some c) ->
  (m = r /\ c = c0) \/ (length (heap s0) <= m /\ (c < c0)%Z) ->
  while_loop fuel (fun '(_, _, _, melhorou) => ret melhorou)
    (busca_local_pass distancias) (m, m, c, true) s = Ret st' s' ->
  extends s0 s'
  /\ (exists v, heap s' !! st'.1.1.2 = Some v /\ custo_de distancias v = Some st'.1.2)
  /\ ((st'.1.1.2 = r /\ st'.1.2 = c0)
      \/ (length (heap s0) <= st'.1.1.2 /\ (st'.1.2 < c0)%Z)).
Proof.
  induction fuel as [|fuel IH]; intros m c s st' s' Hext Hv Hcase Hrun;
    [discriminate|].
  cbn [while_loop] in Hrun. unfold bind at 1 in Hrun. cbn [ret] in Hrun.
  apply bind_inv in Hrun as ([[[m0 m1] c1] b1] & s1 & Hpass & Hrun).
  destruct (busca_local_pass_tracks _ _ _ _ _ _ Hv Hpass)
    as (Heq & Hext1 & Hv1 & Hcase1). cbn [fst snd] in *. subst m0.
  assert (Hext' : extends s0 s1) by (eapply extends_trans; eassumption).
  assert (Hcase' : (m1 = r /\ c1 = c0) \/ (length (heap s0) <= m1 /\ (c1 < c0)%Z)).
  { destruct Hcase1 as [[= -> -> _]|(_ & Hm1 & Hc1)]; [assumption|]. right.
    apply extends_length in Hext. split; [lia|].
    destruct Hcase as [[_ ->]|[_ Hc]]; lia. }
  destruct b1.
  - eapply IH; eassumption.
  - assert (st' = (m1, m1, c1, false) /\ s' = s1) as [-> ->].
    { destruct fuel; cbn in Hrun; inversion Hrun; now subst. }
    cbn [fst snd]. split; [assumption|]. split; assumption.
Qed.

(** X12.  [busca_local] draws no random number and leaves every object of
    the store as it was.  It returns the very object it was given, unchanged,
    when no move improved it; otherwise it returns an object allocated
    during the call, of strictly smaller cost. *)
Theorem busca_local_same_or_new distancias T r s fuel r' s' :
  heap s !! r = Some T -> busca_local fuel r distancias s = Ret r' s' ->
  extends s s'
  /\ ((r' = r /\ heap s' !! r' = Some T)
      \/ (length (heap s) <= r'
          /\ exists c c', calcular_custo r distancias s = Ret c s
                          /\ calcular_custo r' distancias s' = Ret c' s'
                          /\ (c' < c)%Z)).
Proof.
  intros Hr Hrun. unfold busca_local in Hrun.
  apply bind_inv in Hrun as (c & s1 & Hc & Hrun).
  pose proof (calcular_custo_same_state _ _ _ _ _ Hc) as ->.
  pose proof Hc as Hc0. rewrite (calcular_custo_sim _ _ _ _ Hr) in Hc0.
  destruct (custo_de distancias T) as [c0|] eqn:HcT; [|discriminate].
  inversion Hc0; subst c0.
  apply bind_inv in Hrun as ([[[m0 m1] c1] b1] & s2 & Hloop & Hret).
  inversion Hret; subst.
  assert (HvT : exists v, heap s !! r = Some v /\ custo_de distancias v = Some c)
    by (now exists T).
  destruct (busca_while_tracks distancias s r c fuel r c s _ _ (extends_refl s)
              HvT (or_introl (conj eq_refl eq_refl)) Hloop)
    as (Hext & (v & Hv & Hcv) & Hcase).
  cbn [fst snd] in *. split; [assumption|].
  destruct Hcase as [[-> ->]|[Hnew Hlt]].
  - left. split; [reflexivity|]. now apply (extends_lookup s).
  - right. split; [assumption|]. exists c, c1. split; [assumption|].
    split; [|assumption]. now rewrite (calcular_custo_sim _ _ _ _ Hv), Hcv.
Qed.

End Aliasing.

Section ConstructionClaims.
Context {G : Type}.
Variable randbelow : nat -> G -> nat * G.
Implicit Types (s : state G) (T : list nat).

Lemma construir_solucao_no_city fuel alpha s :
  construir_solucao randbelow fuel [] alpha s = Raise IndexError.
Proof.
  destruct s as [h g0]. unfold construir_solucao. cbn [length].
  erewrite bind_ret_eq; [|reflexivity]. cbn [heap gen].
  erewrite bind_ret_eq; [|reflexivity]. cbn [heap gen].
  rewrite <- app_assoc. cbn [app]. rewrite length_app. cbn [length].
  replace (length h + 1) with (S (length h)) by lia.
  erewrite bind_ret_eq; [|apply heap_get_eq, lookup_pair_r]. reflexivity.
Qed.

(** X13.  On an empty matrix [construir_solucao] raises [IndexError]: there
    is no city to start from. *)
Theorem construir_solucao_empty fuel alpha s :
  construir_solucao randbelow fuel [] alpha s = Raise IndexError.
Proof. exact (construir_solucao_no_city fuel alpha s). Qed.


(** X15.  For an exact [alpha <= -1], and for a float whose products
    [k * alpha], [1 <= k < n], convert to integers [z <= -k], with at least
    two cities the construction cannot end: by the time one city is left
    its restricted candidate list is empty, and [construir_solucao] raises
    [IndexError]. *)
Theorem construir_solucao_negative_alpha distancias (alpha : number) n fuel s :
  randbelow_ok randbelow -> 2 <= n -> square n distancias ->
  alpha_le_m1 n alpha -> n <= S fuel ->
  construir_solucao randbelow fuel distancias alpha s = Raise IndexError.
Proof. exact (construir_solucao_le_m1 randbelow distancias alpha n fuel s). Qed.

(** X23.  When the product of the first step does not convert to an
    integer, [construir_solucao] raises what the conversion raises:
    [OverflowError] for a float [alpha] so large that [(n - 1) * alpha] is
    infinite, [ValueError] for a NaN. *)
Theorem construir_solucao_conversion_error distancias (alpha : number) n fuel s e :
  randbelow_ok randbelow -> 2 <= n -> square n distancias -> 1 <= fuel ->
  int_times (n - 1) alpha = inl e ->
  construir_solucao randbelow fuel distancias alpha s = Raise e.
Proof. exact (construir_solucao_int_error randbelow distancias alpha n fuel s e). Qed.


End ConstructionClaims.

(** ** What [grasp] returns, and when it fails *)

Section GraspResult.
Context {G : Type}.
Variable randbelow : nat -> G -> nat * G.
Variable sample2 : nat -> G -> (nat * nat) * G.
Implicit Types (s : state G) (T : list nat) (st : option loc * num).


Section ValidInput.
Variables (distancias : list (list Z)) (alpha : Q) (n fuel : nat).
Hypothesis Hrand : randbelow_ok randbelow.
Hypothesis Hsample : sample2_ok sample2.
Hypothesis Hn : 2 <= n.
Hypothesis HM : square n distancias.
Hypothesis H0 : (0 <= alpha)%Q.
Hypothesis H1 : (alpha <= 1)%Q.
Hypothesis Hfuel : S (n ^ n) <= fuel.



End ValidInput.
End GraspResult.

Section GraspClaims.
Context {G : Type}.
Variable randbelow : nat -> G -> nat * G.
Variable sample2 : nat -> G -> (nat * nat) * G.
Implicit Types (s : state G) (T : list nat).



(** X19.  On an empty matrix, with at least one iteration, [grasp] raises
    the [IndexError] of the construction. *)
Theorem grasp_empty_matrix fuel alpha iteracoes s :
  1 <= iteracoes ->
  grasp randbelow sample2 fuel [] iteracoes alpha s = Raise IndexError.
Proof.
  intros Hit. unfold grasp, range. rewrite Nat.sub_0_r.
  destruct iteracoes as [|k]; [lia|]. cbn [seq for_each].
  unfold bind at 1. unfold grasp_iter. unfold bind at 1.
  now rewrite construir_solucao_no_city.
Qed.

Lemma construir_single distancias alpha fuel h g0 :
  randbelow_ok randbelow -> length distancias = 1 ->
  exists g,
    construir_solucao randbelow fuel distancias alpha (mkState h g0)
    = Ret (length h) (mkState (h ++ [[0]; []]) g).
Proof.
  intros Hrand Hlen.
  destruct (construir_solucao_prelude randbelow distancias alpha 1 fuel h g0
              Hrand ltac:(lia) Hlen) as (k & g & nv & Hk & Hlt & Hp & ->).
  assert (k = 0) as -> by lia.
  assert (nv = []) as ->.
  { apply Permutation_length in Hp. cbn in Hp. destruct nv; [reflexivity|discriminate]. }
  exists g. erewrite bind_ret_eq; [reflexivity|].
  destruct fuel; cbn [while_loop];
    now rewrite (bind_ret_eq _ _ _ _ _ (construir_cond h [0] [] g)).
Qed.

(** X20.  On a single city, with at least one iteration and one pass
    allowed, [grasp] raises [ValueError]: the construction and the local
    search give the tour [[0]], and [perturbar] cannot sample two positions
    of it. *)
Theorem grasp_single_city distancias fuel alpha iteracoes s :
  randbelow_ok randbelow -> square 1 distancias -> 1 <= fuel -> 1 <= iteracoes ->
  grasp randbelow sample2 fuel distancias iteracoes alpha s = Raise ValueError.
Proof.
  intros Hrand HM Hfuel Hit. unfold grasp, range. rewrite Nat.sub_0_r.
  destruct iteracoes as [|k]; [lia|]. cbn [seq for_each].
  unfold bind at 1. destruct s as [h g0]. unfold grasp_iter.
  destruct (construir_single distancias alpha fuel h g0 Hrand (proj1 HM)) as [g Hc].
  erewrite bind_ret_eq; [|exact Hc].
  set (s1 := mkState (h ++ [[0]; []]) g).
  assert (Hr : heap s1 !! length h = Some [0]) by apply lookup_pair_l.
  assert (Hd : defined_on distancias [0]).
  { apply (tour_defined_on 1); [discriminate|repeat constructor|assumption]. }
  destruct (custo_de_defined _ _ Hd) as [c Hcu].
  assert (Hcc : calcular_custo (length h) distancias s1 = Ret c s1)
    by now rewrite (calcular_custo_sim _ _ _ _ Hr), Hcu.
  erewrite bind_ret_eq;
    [|apply (busca_local_no_move distancias [0] (length h) s1 c fuel Hr);
      [cbn; lia|exact Hcc|exact Hfuel]].
  erewrite bind_ret_eq; [|exact Hcc].
  unfold bind at 1.
  now rewrite (perturbar_too_short sample2 [0] (length h) s1 Hr) by (cbn; lia).
Qed.

End GraspClaims.

(** * The further properties at concrete inputs

    The rectangle again, now also as the four points it is measured from,
    with the integer square root for [math.sqrt]. *)

Lemma rect345_symmetric : symmetric rect345.
Proof.
  intros a b. unfold entry, rect345.
  do 5 (destruct a as [|a]; [do 5 (destruct b as [|b]; [reflexivity|]); reflexivity|]).
  do 5 (destruct b as [|b]; [reflexivity|]). reflexivity.
Qed.

Lemma gerar_matriz_distancias_spec_witness :
  (exists a b ca cb,
     a <> b /\ far_apart !! a = Some ca /\ far_apart !! b = Some cb
     /\ distancia_euclidiana math_sqrt ca cb = inl OverflowError)
  /\ exists m,
       gerar_matriz_distancias (PyInt 0) math_sqrt rectangle = inr m
       /\ square 4 m
       /\ cell (PyInt 0) m 0 3 = PyFloat (float_ratio 5 1)
       /\ forall a b, cell (PyInt 0) m a b = cell (PyInt 0) m b a.
Proof.
  split; [exact (gerar_matriz_distancias_spec (PyInt 0) math_sqrt far_apart)|].
  pose proof (gerar_matriz_distancias_spec (PyInt 0) math_sqrt rectangle) as H.
  destruct (gerar_matriz_distancias (PyInt 0) math_sqrt rectangle) as [e|m] eqn:E;
    [discriminate|].
  exists m. destruct H as (HM & _ & _ & Hsym).
  split; [reflexivity|]. split; [assumption|]. split; [|assumption].
  vm_compute in E. inversion E. reflexivity.
Defined.

Lemma calcular_custo_reversal_witness :
  calcular_custo 1 rect345 (mkState [crossing_tour; rev crossing_tour] tt)
  = Ret 16%Z (mkState [crossing_tour; rev crossing_tour] tt).
Proof.
  apply (calcular_custo_reversal rect345 4 crossing_tour 0 1
           (mkState [crossing_tour; rev crossing_tour] tt) 16%Z).
  - exact rect345_symmetric.
  - split; [reflexivity|]. repeat (constructor; [reflexivity|]). constructor.
  - repeat (constructor; [lia|]). constructor.
  - reflexivity.
  - reflexivity.
  - reflexivity.
Defined.

Lemma calcular_custo_read_only_witness :
  mkState [crossing_tour] tt = mkState [crossing_tour] tt.
Proof.
  apply (calcular_custo_read_only rect345 0 (mkState [crossing_tour] tt) 16%Z
           (mkState [crossing_tour] tt)).
  reflexivity.
Defined.

Lemma calcular_custo_index_error_witness :
  calcular_custo 0 rect345 (mkState [[0; 4]] tt) = Raise IndexError.
Proof.
  apply (calcular_custo_index_error rect345 [0; 4] 0 (mkState [[0; 4]] tt)).
  - reflexivity.
  - right. exists 4. split; [|cbn; lia].
    apply list_elem_of_In. cbn. tauto.
Defined.

Lemma two_cities_there_and_back_witness :
  exists m,
    gerar_matriz_distancias 0%Z (fun z => inr (Z.sqrt z)) [(0, 0); (3, 4)]%Z = inr m
    /\ calcular_custo 0 m (mkState [[1; 0]] tt) = Ret (2 * 5)%Z (mkState [[1; 0]] tt).
Proof.
  apply (two_cities_there_and_back (fun z => inr (Z.sqrt z)) (0, 0)%Z (3, 4)%Z 5%Z
           [1; 0] 0 (mkState [[1; 0]] tt)).
  - reflexivity.
  - reflexivity.
  - right. reflexivity.
Defined.

Lemma calcular_custo_rotation_witness :
  calcular_custo 1 rect345 (mkState [[0; 1; 2; 3]; [2; 3; 0; 1]] tt)
  = Ret 16%Z (mkState [[0; 1; 2; 3]; [2; 3; 0; 1]] tt).
Proof.
  apply (calcular_custo_rotation rect345 4 [0; 1] [2; 3] 0 1
           (mkState [[0; 1; 2; 3]; [2; 3; 0; 1]] tt) 16%Z).
  - repeat (constructor; [lia|]). constructor.
  - split; [reflexivity|]. repeat (constructor; [reflexivity|]). constructor.
  - reflexivity.
  - reflexivity.
  - reflexivity.
Defined.

Lemma calcular_custo_two_opt_delta_witness :
  calcular_custo 1 rect345 (mkState [crossing_tour; two_opt crossing_tour 1 3] tt)
  = Ret (16 + delta_2opt rect345 crossing_tour 1 3)%Z
      (mkState [crossing_tour; two_opt crossing_tour 1 3] tt).
Proof.
  apply (calcular_custo_two_opt_delta rect345 4 crossing_tour 1 3 0 1
           (mkState [crossing_tour; two_opt crossing_tour 1 3] tt) 16%Z).
  - exact rect345_symmetric.
  - split; [reflexivity|]. repeat (constructor; [reflexivity|]). constructor.
  - repeat (constructor; [lia|]). constructor.
  - lia.
  - lia.
  - cbn. lia.
  - reflexivity.
  - reflexivity.
  - reflexivity.
Defined.

Lemma busca_local_short_witness :
  busca_local 1 0 rect345 (mkState [[0; 1; 2]] tt) = Ret 0 (mkState [[0; 1; 2]] tt).
Proof.
  apply (busca_local_short rect345 [0; 1; 2] 0 (mkState [[0; 1; 2]] tt) 12%Z 1).
  - reflexivity.
  - cbn. lia.
  - reflexivity.
  - lia.
Defined.

Lemma busca_local_index_error_witness :
  busca_local 257 0 rect345 (mkState [[]] tt) = Raise IndexError.
Proof.
  apply (busca_local_index_error rect345 [] 0 (mkState [[]] tt) 257).
  - reflexivity.
  - left. reflexivity.
Defined.

Lemma two_opt_involutive_witness :
  two_opt (two_opt crossing_tour 1 3) 1 3 = crossing_tour.
Proof.
  apply (two_opt_involutive crossing_tour 1 3).
  - lia.
  - lia.
  - cbn. lia.
Defined.

Lemma perturbar_value_error_witness :
  perturbar Lcg.sample2 0 (mkState [[0]] 5) = Raise ValueError.
Proof.
  apply (perturbar_value_error Lcg.sample2 [0] 0 (mkState [[0]] 5)).
  - reflexivity.
  - cbn. lia.
Defined.

Lemma busca_local_same_or_new_witness :
  extends (mkState [[0; 2; 1; 3]] tt)
    (mkState [[0; 2; 1; 3]; [0; 1; 2; 3]; [0; 2; 1; 3]] tt)
  /\ (1 = 0 /\ [[0; 2; 1; 3]; [0; 1; 2; 3]; [0; 2; 1; 3]] !! 1 = Some [0; 2; 1; 3]
      \/ 1 <= 1
         /\ exists c c',
              calcular_custo 0 rect345 (mkState [[0; 2; 1; 3]] tt)
              = Ret c (mkState [[0; 2; 1; 3]] tt)
              /\ calcular_custo 1 rect345
                   (mkState [[0; 2; 1; 3]; [0; 1; 2; 3]; [0; 2; 1; 3]] tt)
                 = Ret c' (mkState [[0; 2; 1; 3]; [0; 1; 2; 3]; [0; 2; 1; 3]] tt)
              /\ (c' < c)%Z).
Proof.
  apply (busca_local_same_or_new rect345 [0; 2; 1; 3] 0 (mkState [[0; 2; 1; 3]] tt)
           257 1 (mkState [[0; 2; 1; 3]; [0; 1; 2; 3]; [0; 2; 1; 3]] tt)).
  - reflexivity.
  - vm_compute. reflexivity.
Defined.


Lemma construir_solucao_negative_alpha_witness :
  construir_solucao Lcg.randbelow 3 rect345 (Float float_m1) (mkState [] 5)
  = Raise IndexError.
Proof.
  apply (construir_solucao_negative_alpha Lcg.randbelow rect345 (Float float_m1) 4 3
           (mkState [] 5)).
  - exact Lcg_randbelow_ok.
  - lia.
  - split; [reflexivity|]. repeat (constructor; [reflexivity|]). constructor.
  - intros k Hk. assert (k = 1 \/ k = 2 \/ k = 3) as [->|[->| ->]] by lia;
      eexists; (split; [vm_compute; reflexivity|lia]).
  - lia.
Defined.

Lemma construir_solucao_conversion_error_witness :
  construir_solucao Lcg.randbelow 3 rect345 (Float float_1e308) (mkState [] 5)
  = Raise OverflowError.
Proof.
  apply (construir_solucao_conversion_error Lcg.randbelow rect345 (Float float_1e308)
           4 3 (mkState [] 5) OverflowError).
  - exact Lcg_randbelow_ok.
  - lia.
  - split; [reflexivity|]. repeat (constructor; [reflexivity|]). constructor.
  - lia.
  - reflexivity.
Defined.



Lemma grasp_empty_matrix_witness :
  grasp Lcg.randbelow Lcg.sample2 5 [] 1 (3 # 10) (mkState [] 5) = Raise IndexError.
Proof.
  apply (grasp_empty_matrix Lcg.randbelow Lcg.sample2 5 (3 # 10) 1 (mkState [] 5)).
  lia.
Defined.

Lemma grasp_single_city_witness :
  grasp Lcg.randbelow Lcg.sample2 1 [[0%Z]] 1 (3 # 10) (mkState [] 5)
  = Raise ValueError.
Proof.
  apply (grasp_single_city Lcg.randbelow Lcg.sample2 [[0%Z]] 1 (3 # 10) 1 (mkState [] 5)).
  - exact Lcg_randbelow_ok.
  - split; [reflexivity|]. repeat (constructor; [reflexivity|]). constructor.
  - lia.
  - lia.
Defined.
